(** * The grouped statistics pipe of lib/logstorage/pipe_stats.go

    A shallow embedding of the [| stats ...] pipe: per-function [if] filters,
    the three-way group map, the per-shard write path, the state-size budget
    protocol, the cross-shard merge, the stats writer and the result-name
    checks of the parser.

    Conventions.
    - Go [int], [int64] and [uint64] values are [Z]; every arithmetic step
      that can wrap in Go is written with [wrap64] or [to_uint64].
    - A pointer to a group ([*pipeStatsGroup]) is the place of the group in
      its map ([groupRef]); updating through the pointer is an update of the
      map at that place.
    - Go maps are [gmap]s.  A nil map reads as the empty map.
    - Methods carry the receiver as a prefix: [psg_] for [pipeStatsGroup],
      [psm_] for [pipeStatsGroupMap], [shard_] for [pipeStatsProcessorShard],
      [psp_] for [pipeStatsProcessor], [psw_] for [pipeStatsWriter] and
      [sfp_] for the [statsProcessor] interface. *)

From Stdlib Require Import ZArith String Ascii List Lia Permutation.
From stdpp Require Import base option list gmap fin_maps strings pretty.
From Equations Require Import Equations.

Local Open Scope Z_scope.

(** ** Machine integers *)

(** The value of a 64-bit two's complement integer after wrap-around. *)
Definition wrap64 (z : Z) : Z := (z + 2 ^ 63) `mod` 2 ^ 64 - 2 ^ 63.

(** The Go conversion [uint64(n)]. *)
Definition to_uint64 (z : Z) : Z := z `mod` 2 ^ 64.

Definition int64_range (z : Z) : Prop := - 2 ^ 63 <= z < 2 ^ 63.

(** [const stateSizeBudgetChunk = 1 << 20] *)
Definition stateSizeBudgetChunk : Z := Z.shiftl 1 20.

(** ** Blocks, columns and bitmaps *)

Inductive valueType : Type :=
| valueTypeUnknown
| valueTypeString
| valueTypeDict
| valueTypeUint8
| valueTypeUint16
| valueTypeUint32
| valueTypeUint64
| valueTypeInt64
| valueTypeFloat64
| valueTypeIPv4
| valueTypeTimestampISO8601.

(** Modelled from the spec: the column of a block (block_result.go is not
    part of the sources at hand).  A column has a name, a value type tag, the
    encoded values and the [isConst] flag; a const column keeps the one value
    all rows share. *)
Record blockResultColumn : Type := {
  c_name : string;
  c_isConst : bool;
  c_valueType : valueType;
  c_valuesEncoded : list string
}.

(** Modelled from the spec: the column block, the number of rows with the
    columns. *)
Record blockResult : Type := {
  rowsLen : nat;
  br_cs : list blockResultColumn
}.

(** Modelled from the spec: the bitmap of the rows of a block, one bit per
    row. *)
Definition bitmap : Type := list bool.

Definition bm_init (n : nat) : bitmap := replicate n false.

Definition bm_setBits (bm : bitmap) : bitmap := replicate (length bm) true.

Definition bm_isSetBit (bm : bitmap) (i : nat) : bool := default false (bm !! i).

(** The encoded value of column [c] at row [i]. *)
Definition c_valueAt (c : blockResultColumn) (i : nat) : string :=
  if c_isConst c then default "" (c_valuesEncoded c !! 0%nat)
  else default "" (c_valuesEncoded c !! i).

(** Row [i] of a block: the value of every column at [i], by column name. *)
Definition br_row (br : blockResult) (i : nat) : list (string * string) :=
  map (λ c, (c_name c, c_valueAt c i)) (br_cs br).

Definition br_rows (br : blockResult) : list (list (string * string)) :=
  map (br_row br) (seq 0 (rowsLen br)).

(** The values of [vs] at the set bits of [bm]. *)
Fixpoint filterByBitmap {A} (bm : bitmap) (vs : list A) : list A :=
  match bm, vs with
  | b :: bm', v :: vs' =>
      if b then v :: filterByBitmap bm' vs' else filterByBitmap bm' vs'
  | _, _ => []
  end.

(** Modelled from the spec: [brTmp.initFromFilterAllColumns(br, bm)], the
    projection of [br] where only the rows selected by [bm] are visible. *)
Definition initFromFilterAllColumns (br : blockResult) (bm : bitmap) : blockResult :=
  {| rowsLen := length (filterByBitmap bm (seq 0 (rowsLen br)));
     br_cs :=
       map (λ c, if c_isConst c then c
                 else {| c_name := c_name c;
                         c_isConst := false;
                         c_valueType := c_valueType c;
                         c_valuesEncoded := filterByBitmap bm (c_valuesEncoded c) |})
           (br_cs br) |}.

(** Every column that is not const holds one value per row. *)
Definition br_wf (br : blockResult) : Prop :=
  forallb (λ c, c_isConst c || Nat.eqb (length (c_valuesEncoded c)) (rowsLen br))
          (br_cs br) = true.

(** Modelled from the spec: [br.getColumnByName]; a column the block does not
    have reads as a const column with the empty value. *)
Definition getColumnByName (br : blockResult) (name : string) : blockResultColumn :=
  match List.find (λ c, bool_decide (c_name c = name)) (br_cs br) with
  | Some c => c
  | None => {| c_name := name; c_isConst := true;
               c_valueType := valueTypeString; c_valuesEncoded := [""] |}
  end.

(** ** Values: integers in text and in fixed-width encodings *)

Definition digitValue (a : ascii) : option Z :=
  let n := Z.of_N (N_of_ascii a) in
  if (48 <=? n) && (n <=? 57) then Some (n - 48) else None.

Fixpoint parseDigits (s : string) (acc : Z) : option Z :=
  match s with
  | EmptyString => Some acc
  | String a rest =>
      match digitValue a with
      | None => None
      | Some d =>
          let acc' := acc * 10 + d in
          if acc' <? 2 ^ 64 then parseDigits rest acc' else None
      end
  end.

(** Modelled from the spec: [tryParseUint64], absent from the sources at
    hand: [s] parses as a non-negative 64-bit integer when it is a non-empty
    run of decimal digits with a value below [2^64]. *)
Definition tryParseUint64 (s : string) : option Z :=
  match s with
  | EmptyString => None
  | _ => parseDigits s 0
  end.

(** Modelled from the spec: [tryParseInt64], absent from the sources at
    hand: an optional [-] and the digits of a value in the range of
    [int64]. *)
Definition tryParseInt64 (s : string) : option Z :=
  match s with
  | EmptyString => None
  | String a rest =>
      if Ascii.eqb a "-" then
        match tryParseUint64 rest with
        | Some u => if u <=? 2 ^ 63 then Some (- u) else None
        | None => None
        end
      else
        match tryParseUint64 s with
        | Some u => if u <? 2 ^ 63 then Some u else None
        | None => None
        end
  end.

(** [len(key) > 0 && key[0] == '-'] *)
Definition startsWithMinus (s : string) : bool :=
  match s with
  | EmptyString => false
  | String a _ => Ascii.eqb a "-"
  end.

(** Modelled from the spec: [marshalUint64String] and [marshalInt64String],
    the canonical decimal formatter. *)
Definition marshalUint64String (n : Z) : string := pretty n.
Definition marshalInt64String (n : Z) : string := pretty n.

(** The little-endian value of the bytes of [v]. *)
Fixpoint unmarshalLE (v : string) : Z :=
  match v with
  | EmptyString => 0
  | String a rest => Z.of_N (N_of_ascii a) + 256 * unmarshalLE rest
  end.

Fixpoint takeBytes (n : nat) (v : string) : string :=
  match n, v with
  | S n', String a rest => String a (takeBytes n' rest)
  | _, _ => EmptyString
  end.

(** Modelled from the spec: [unmarshalUint8] ... [unmarshalInt64], the
    fixed-width little-endian integers of a typed column. *)
Definition unmarshalUint8 (v : string) : Z := unmarshalLE (takeBytes 1 v).
Definition unmarshalUint16 (v : string) : Z := unmarshalLE (takeBytes 2 v).
Definition unmarshalUint32 (v : string) : Z := unmarshalLE (takeBytes 4 v).
Definition unmarshalUint64 (v : string) : Z := unmarshalLE (takeBytes 8 v).
Definition unmarshalInt64 (v : string) : Z := wrap64 (unmarshalLE (takeBytes 8 v)).

(** ** Length-prefixed byte strings *)

(** The variable-length encoding of a length: seven bits per byte, low bits
    first, the high bit of a byte set when more bytes follow. *)
Equations? marshalVarUint64 (n : N) : string by wf (N.to_nat n) lt :=
  marshalVarUint64 n with decide (n < 128)%N => {
    | left _ := String (ascii_of_N n) EmptyString
    | right _ := String (ascii_of_N (128 + n mod 128)%N) (marshalVarUint64 (n / 128)%N) }.
Proof.
  assert (n / 128 < n)%N by (apply N.div_lt; lia). lia.
Qed.

Fixpoint unmarshalVarUint64 (s : string) : option (N * string) :=
  match s with
  | EmptyString => None
  | String a rest =>
      let b := N_of_ascii a in
      if (b <? 128)%N then Some (b, rest)
      else match unmarshalVarUint64 rest with
           | Some (hi, rest') => Some (b - 128 + 128 * hi, rest')%N
           | None => None
           end
  end.

Fixpoint splitBytes (n : nat) (s : string) : option (string * string) :=
  match n with
  | O => Some (EmptyString, s)
  | S n' =>
      match s with
      | EmptyString => None
      | String a rest =>
          match splitBytes n' rest with
          | Some (v, tail) => Some (String a v, tail)
          | None => None
          end
      end
  end.

(** Modelled from the spec: [encoding.MarshalBytes(dst, b)] appends the
    length-prefixed [b] to [dst]. *)
Definition MarshalBytes (dst b : string) : string :=
  dst +:+ marshalVarUint64 (N.of_nat (String.length b)) +:+ b.

(** Modelled from the spec: [encoding.UnmarshalBytes(src)] reads one
    length-prefixed byte string; [None] stands for [nSize <= 0].  The second
    component is the tail [src[nSize:]]. *)
Definition UnmarshalBytes (src : string) : option (string * string) :=
  match unmarshalVarUint64 src with
  | Some (len, rest) => splitBytes (N.to_nat len) rest
  | None => None
  end.

(** The text [MarshalBytes] appends for [b]. *)
Definition marshalledBytes (b : string) : string :=
  marshalVarUint64 (N.of_nat (String.length b)) +:+ b.

(** The strings of a list, one after the other. *)
Fixpoint concatStrings (l : list string) : string :=
  match l with
  | [] => ""
  | x :: rest => x +:+ concatStrings rest
  end.

(** ** The pipe and what it is built from *)

(** [type ifFilter]: the filter of [if (...)], with its string form.
    [applyToBlockResult br bm] clears the bits of [bm] at the rows of [br]
    the filter rejects. *)
Record ifFilter : Type := {
  iff_String : string;
  applyToBlockResult : blockResult → bitmap → bitmap
}.

(** [type byStatsField].  The bucket size and offset are floating-point
    numbers in the source; only their string forms take part here. *)
Record byStatsField : Type := {
  bf_name : string;
  bucketSizeStr : string;
  bucketOffsetStr : string
}.

(** [func (bf *byStatsField) hasBucketConfig() bool] *)
Definition hasBucketConfig (bf : byStatsField) : bool :=
  negb (Nat.eqb (String.length (bucketSizeStr bf)) 0)
  || negb (Nat.eqb (String.length (bucketOffsetStr bf)) 0).

(** The interfaces [statsFunc] and [statsProcessor], and the helpers of the
    package that pipe_stats.go calls and that live in other files.

    [sfp_updateStatsForAllRows] and [sfp_updateStatsForRow] return the new
    state of the processor with the change of its state size in bytes.
    [newStatsProcessor] returns the processor with the number of bytes it
    took from the chunked allocator.  [sfp_finalizeStats sfp stopped] is the
    text that [finalizeStats] appends to its buffer. *)
Class StatsAPI : Type := {
  statsFunc : Type;
  statsProcessor : Type;
  sf_String : statsFunc → string;
  newStatsProcessor : statsFunc → statsProcessor * Z;
  sfp_updateStatsForAllRows : statsProcessor → blockResult → statsProcessor * Z;
  sfp_updateStatsForRow : statsProcessor → blockResult → nat → statsProcessor * Z;
  sfp_mergeState : statsProcessor → statsProcessor → statsProcessor;
  sfp_finalizeStats : statsProcessor → bool → string;
  (** [br.getBucketedValue(s, bf)] *)
  getBucketedValue : blockResult → string → byStatsField → string;
  (** [c.getValuesBucketed(br, bf)]: one string per row *)
  getValuesBucketed : blockResultColumn → blockResult → byStatsField → list string;
  (** [quoteTokenIfNeeded] *)
  quoteTokenIfNeeded : string → string;
  (** [xxhash.Sum64] *)
  xxhash_Sum64 : string → Z;
  (** [cgroup.AvailableCPUs()] *)
  cpusCount : nat
}.

Section Engine.
Context `{API : StatsAPI}.

(** [type pipeStatsFunc] *)
Record pipeStatsFunc : Type := {
  f : statsFunc;
  iff : option ifFilter;
  resultName : string
}.

(** [type pipeStats] *)
Record pipeStats : Type := {
  byFields : list byStatsField;
  funcs : list pipeStatsFunc
}.

(** [type pipeStatsGroup] *)
Record pipeStatsGroup : Type := {
  psg_funcs : list pipeStatsFunc;
  sfps : list statsProcessor
}.

(** The [iff] of function [i]; [None] also where [funcs] has no entry [i]
    (Go panics there; [group_wf] below excludes it). *)
Definition iffAt (fs : list pipeStatsFunc) (i : nat) : option ifFilter :=
  fs !! i ≫= iff.

Definition bmAt (bms : list bitmap) (i : nat) : bitmap := default [] (bms !! i).

(** The loop of [pipeStatsGroup.updateStatsForAllRows], from index [i] on. *)
Fixpoint psg_updateStatsForAllRows_from (fs : list pipeStatsFunc) (bms : list bitmap)
    (br : blockResult) (i : nat) (ps : list statsProcessor) (n : Z)
  : list statsProcessor * Z :=
  match ps with
  | [] => ([], n)
  | sfp :: rest =>
      let brTmp := match iffAt fs i with
                   | None => br
                   | Some _ => initFromFilterAllColumns br (bmAt bms i)
                   end in
      let '(sfp', d) := sfp_updateStatsForAllRows sfp brTmp in
      let '(rest', n') := psg_updateStatsForAllRows_from fs bms br (S i) rest (wrap64 (n + d)) in
      (sfp' :: rest', n')
  end.

(** [func (psg *pipeStatsGroup) updateStatsForAllRows(bms []bitmap, br, brTmp *blockResult) int] *)
Definition psg_updateStatsForAllRows (bms : list bitmap) (br : blockResult)
    (psg : pipeStatsGroup) : pipeStatsGroup * Z :=
  let '(ps, n) := psg_updateStatsForAllRows_from (psg_funcs psg) bms br 0 (sfps psg) 0 in
  ({| psg_funcs := psg_funcs psg; sfps := ps |}, n).

(** The loop of [pipeStatsGroup.updateStatsForRow], from index [i] on. *)
Fixpoint psg_updateStatsForRow_from (fs : list pipeStatsFunc) (bms : list bitmap)
    (br : blockResult) (rowIdx : nat) (i : nat) (ps : list statsProcessor) (n : Z)
  : list statsProcessor * Z :=
  match ps with
  | [] => ([], n)
  | sfp :: rest =>
      let '(sfp', n1) :=
        match iffAt fs i with
        | None =>
            let '(s, d) := sfp_updateStatsForRow sfp br rowIdx in (s, wrap64 (n + d))
        | Some _ =>
            if bm_isSetBit (bmAt bms i) rowIdx
            then let '(s, d) := sfp_updateStatsForRow sfp br rowIdx in (s, wrap64 (n + d))
            else (sfp, n)
        end in
      let '(rest', n') := psg_updateStatsForRow_from fs bms br rowIdx (S i) rest n1 in
      (sfp' :: rest', n')
  end.

(** [func (psg *pipeStatsGroup) updateStatsForRow(bms []bitmap, br *blockResult, rowIdx int) int] *)
Definition psg_updateStatsForRow (bms : list bitmap) (br : blockResult) (rowIdx : nat)
    (psg : pipeStatsGroup) : pipeStatsGroup * Z :=
  let '(ps, n) := psg_updateStatsForRow_from (psg_funcs psg) bms br rowIdx 0 (sfps psg) 0 in
  ({| psg_funcs := psg_funcs psg; sfps := ps |}, n).

(** The block function [i] of a group is given by [updateStatsForAllRows]. *)
Definition blockFor (fs : list pipeStatsFunc) (bms : list bitmap) (br : blockResult)
    (i : nat) : blockResult :=
  match iffAt fs i with
  | None => br
  | Some _ => initFromFilterAllColumns br (bmAt bms i)
  end.

(** Whether function [i] of a group is updated for row [rowIdx]. *)
Definition rowSelected (fs : list pipeStatsFunc) (bms : list bitmap) (rowIdx i : nat) : bool :=
  match iffAt fs i with
  | None => true
  | Some _ => bm_isSetBit (bmAt bms i) rowIdx
  end.

(** [func (psg *pipeStatsGroup) mergeState(src *pipeStatsGroup)]: processor
    [i] of [psg] takes in processor [i] of [src]. *)
Fixpoint mergeProcessors (dst src : list statsProcessor) : list statsProcessor :=
  match dst, src with
  | d :: dst', s :: src' => sfp_mergeState d s :: mergeProcessors dst' src'
  | _, _ => dst
  end.

Definition psg_mergeState (psg src : pipeStatsGroup) : pipeStatsGroup :=
  {| psg_funcs := psg_funcs psg; sfps := mergeProcessors (sfps psg) (sfps src) |}.

(** The loop of [applyPerFunctionFilters]: slot [i] of [bms] is set from the
    filter of function [i]; the slot of a function without filter is left as
    it is. *)
Fixpoint applyPerFunctionFilters_from (fs : list pipeStatsFunc) (br : blockResult)
    (bms : list bitmap) : list bitmap :=
  match fs, bms with
  | fn :: fs', bm :: bms' =>
      (match iff fn with
       | None => bm
       | Some flt => applyToBlockResult flt br (bm_setBits (bm_init (rowsLen br)))
       end) :: applyPerFunctionFilters_from fs' br bms'
  | _, _ => bms
  end.

(** *** The group map *)

(** A pointer to a group: the sub-map that holds the group, and its key. *)
Inductive groupRef : Type :=
| RefU64 (n : Z)
| RefNegative64 (n : Z)
| RefString (key : string).

#[global] Instance groupRef_eq_dec : EqDecision groupRef.
Proof. solve_decision. Defined.

(** [type pipeStatsGroupMap].  The chunked allocator is seen through the byte
    counts that [newStatsProcessor] returns. *)
Record pipeStatsGroupMap : Type := {
  u64 : gmap Z pipeStatsGroup;
  negative64 : gmap Z pipeStatsGroup;
  strings : gmap string pipeStatsGroup
}.

(** [func (psm *pipeStatsGroupMap) init(shard *pipeStatsProcessorShard)] *)
Definition psm_init : pipeStatsGroupMap :=
  {| u64 := ∅; negative64 := ∅; strings := ∅ |}.

(** [func (psm *pipeStatsGroupMap) reset()] *)
Definition psm_reset (psm : pipeStatsGroupMap) : pipeStatsGroupMap :=
  {| u64 := ∅; negative64 := ∅; strings := ∅ |}.

(** [func (psm *pipeStatsGroupMap) entriesCount() uint64] *)
Definition psm_entriesCount (psm : pipeStatsGroupMap) : nat :=
  (size (u64 psm) + size (negative64 psm) + size (strings psm))%nat.

Definition psm_lookup (psm : pipeStatsGroupMap) (r : groupRef) : option pipeStatsGroup :=
  match r with
  | RefU64 n => u64 psm !! n
  | RefNegative64 n => negative64 psm !! n
  | RefString key => strings psm !! key
  end.

Definition psm_store (psm : pipeStatsGroupMap) (r : groupRef) (psg : pipeStatsGroup)
  : pipeStatsGroupMap :=
  match r with
  | RefU64 n =>
      {| u64 := <[n := psg]> (u64 psm); negative64 := negative64 psm; strings := strings psm |}
  | RefNegative64 n =>
      {| u64 := u64 psm; negative64 := <[n := psg]> (negative64 psm); strings := strings psm |}
  | RefString key =>
      {| u64 := u64 psm; negative64 := negative64 psm; strings := <[key := psg]> (strings psm) |}
  end.

(** [type pipeStatsProcessorShard]: the fields the write path and the flush
    read or write. *)
Record pipeStatsProcessorShard : Type := {
  shard_ps : pipeStats;
  shard_m : pipeStatsGroupMap;
  shard_bms : list bitmap;
  shard_stateSizeBudget : Z
}.

Definition shard_with_m (psm : pipeStatsGroupMap) (sh : pipeStatsProcessorShard)
  : pipeStatsProcessorShard :=
  {| shard_ps := shard_ps sh; shard_m := psm; shard_bms := shard_bms sh;
     shard_stateSizeBudget := shard_stateSizeBudget sh |}.

Definition shard_with_bms (bms : list bitmap) (sh : pipeStatsProcessorShard)
  : pipeStatsProcessorShard :=
  {| shard_ps := shard_ps sh; shard_m := shard_m sh; shard_bms := bms;
     shard_stateSizeBudget := shard_stateSizeBudget sh |}.

Definition shard_with_budget (b : Z) (sh : pipeStatsProcessorShard)
  : pipeStatsProcessorShard :=
  {| shard_ps := shard_ps sh; shard_m := shard_m sh; shard_bms := shard_bms sh;
     shard_stateSizeBudget := b |}.

(** The loop of [newPipeStatsGroup]: one processor per function, the bytes
    each one took from the allocator leave the budget. *)
Fixpoint newStatsProcessors_from (fs : list pipeStatsFunc) (budget : Z)
  : list statsProcessor * Z :=
  match fs with
  | [] => ([], budget)
  | fn :: fs' =>
      let '(sfp, bytes) := newStatsProcessor (f fn) in
      let '(rest, budget') := newStatsProcessors_from fs' (wrap64 (budget - bytes)) in
      (sfp :: rest, budget')
  end.

(** [func (psm *pipeStatsGroupMap) newPipeStatsGroup() *pipeStatsGroup];
    [unsafe.Sizeof(psg)] is the size of a pointer, [unsafe.Sizeof(sfps[0])]
    the size of an interface value. *)
Definition psm_newPipeStatsGroup (ps : pipeStats) (budget : Z) : pipeStatsGroup * Z :=
  let '(ps', budget') := newStatsProcessors_from (funcs ps) budget in
  ({| psg_funcs := funcs ps; sfps := ps' |},
   wrap64 (budget' - (8 + 16 * Z.of_nat (length ps')))).

(** The miss branch shared by the three lookups: a new group is stored at
    [r] and [keyBytes] more bytes leave the budget. *)
Definition psm_addGroup (r : groupRef) (keyBytes : Z) (sh : pipeStatsProcessorShard)
  : pipeStatsProcessorShard :=
  let '(psg, budget) := psm_newPipeStatsGroup (shard_ps sh) (shard_stateSizeBudget sh) in
  shard_with_budget (wrap64 (budget - keyBytes)) (shard_with_m (psm_store (shard_m sh) r psg) sh).

(** [func (psm *pipeStatsGroupMap) getPipeStatsGroupUint64(n uint64) *pipeStatsGroup] *)
Definition psm_getPipeStatsGroupUint64 (n : Z) (sh : pipeStatsProcessorShard)
  : pipeStatsProcessorShard * groupRef :=
  match u64 (shard_m sh) !! n with
  | Some _ => (sh, RefU64 n)
  | None => (psm_addGroup (RefU64 n) 8 sh, RefU64 n)
  end.

(** [func (psm *pipeStatsGroupMap) getPipeStatsGroupNegativeInt64(n int64) *pipeStatsGroup] *)
Definition psm_getPipeStatsGroupNegativeInt64 (n : Z) (sh : pipeStatsProcessorShard)
  : pipeStatsProcessorShard * groupRef :=
  match negative64 (shard_m sh) !! to_uint64 n with
  | Some _ => (sh, RefNegative64 (to_uint64 n))
  | None => (psm_addGroup (RefNegative64 (to_uint64 n)) 8 sh, RefNegative64 (to_uint64 n))
  end.

(** [func (psm *pipeStatsGroupMap) getPipeStatsGroupString(key []byte) *pipeStatsGroup];
    [unsafe.Sizeof(keyCopy)] is the size of a string header. *)
Definition psm_getPipeStatsGroupString (key : string) (sh : pipeStatsProcessorShard)
  : pipeStatsProcessorShard * groupRef :=
  match strings (shard_m sh) !! key with
  | Some _ => (sh, RefString key)
  | None => (psm_addGroup (RefString key) (Z.of_nat (String.length key) + 16) sh, RefString key)
  end.

(** [func (psm *pipeStatsGroupMap) getPipeStatsGroupInt64(n int64) *pipeStatsGroup] *)
Definition psm_getPipeStatsGroupInt64 (n : Z) (sh : pipeStatsProcessorShard)
  : pipeStatsProcessorShard * groupRef :=
  if 0 <=? n then psm_getPipeStatsGroupUint64 (to_uint64 n) sh
  else psm_getPipeStatsGroupNegativeInt64 n sh.

(** [func (psm *pipeStatsGroupMap) getPipeStatsGroupGeneric(key string) *pipeStatsGroup] *)
Definition psm_getPipeStatsGroupGeneric (key : string) (sh : pipeStatsProcessorShard)
  : pipeStatsProcessorShard * groupRef :=
  match tryParseUint64 key with
  | Some n => psm_getPipeStatsGroupUint64 n sh
  | None =>
      if startsWithMinus key then
        match tryParseInt64 key with
        | Some n => psm_getPipeStatsGroupNegativeInt64 n sh
        | None => psm_getPipeStatsGroupString key sh
        end
      else psm_getPipeStatsGroupString key sh
  end.

(** The three lookups are one: the group at the place [r], made on a miss
    with [keyBytes] bytes of the budget for the key. *)
Definition psm_getAt (r : groupRef) (keyBytes : Z) (sh : pipeStatsProcessorShard)
  : pipeStatsProcessorShard * groupRef :=
  match psm_lookup (shard_m sh) r with
  | Some _ => (sh, r)
  | None => (psm_addGroup r keyBytes sh, r)
  end.

(** The sub-map and key for a derived key value, in the words of the
    specification: the [u64] map for a value that parses as a non-negative
    integer, the negative map for a value that does not, starts with [-] and
    parses as an [int64], the string map for every other value. *)
Definition keySubMap (key : string) : groupRef :=
  match tryParseUint64 key with
  | Some n => RefU64 n
  | None =>
      match tryParseInt64 key with
      | Some n => if startsWithMinus key then RefNegative64 (to_uint64 n) else RefString key
      | None => RefString key
      end
  end.

(** *** The shard *)

(** [func (shard *pipeStatsProcessorShard) init()] *)
Definition shard_init (sh : pipeStatsProcessorShard) : pipeStatsProcessorShard :=
  {| shard_ps := shard_ps sh; shard_m := psm_init;
     shard_bms := replicate (length (funcs (shard_ps sh))) [];
     shard_stateSizeBudget := shard_stateSizeBudget sh |}.

(** [func (shard *pipeStatsProcessorShard) applyPerFunctionFilters(br *blockResult)] *)
Definition shard_applyPerFunctionFilters (br : blockResult) (sh : pipeStatsProcessorShard)
  : pipeStatsProcessorShard :=
  shard_with_bms (applyPerFunctionFilters_from (funcs (shard_ps sh)) br (shard_bms sh)) sh.

(** [shard.stateSizeBudget -= psg.updateStatsForAllRows(shard.bms, br, &shard.brTmp)]
    for the group [r] points to. *)
Definition shard_updateStatsForAllRows (r : groupRef) (br : blockResult)
    (sh : pipeStatsProcessorShard) : pipeStatsProcessorShard :=
  match psm_lookup (shard_m sh) r with
  | Some psg =>
      let '(psg', n) := psg_updateStatsForAllRows (shard_bms sh) br psg in
      shard_with_budget (wrap64 (shard_stateSizeBudget sh - n))
        (shard_with_m (psm_store (shard_m sh) r psg') sh)
  | None => sh
  end.

(** [shard.stateSizeBudget -= psg.updateStatsForRow(shard.bms, br, i)] for
    the group [r] points to. *)
Definition shard_updateStatsForRow (r : groupRef) (br : blockResult) (i : nat)
    (sh : pipeStatsProcessorShard) : pipeStatsProcessorShard :=
  match psm_lookup (shard_m sh) r with
  | Some psg =>
      let '(psg', n) := psg_updateStatsForRow (shard_bms sh) br i psg in
      shard_with_budget (wrap64 (shard_stateSizeBudget sh - n))
        (shard_with_m (psm_store (shard_m sh) r psg') sh)
  | None => sh
  end.

(** The row loop all the per-row paths share:
    [if i <= 0 || values[i-1] != v { psg = get(v) }] and then the update of
    row [i] through [psg].  [prev] is [None] at [i = 0], later the value of
    the row before with the group pointer in [psg]. *)
Fixpoint shard_updateRuns {K : Type} `{EqDecision K}
    (getGroup : K → pipeStatsProcessorShard → pipeStatsProcessorShard * groupRef)
    (br : blockResult) (values : list K) (i : nat) (prev : option (K * groupRef))
    (sh : pipeStatsProcessorShard) : pipeStatsProcessorShard :=
  match values with
  | [] => sh
  | v :: values' =>
      let '(sh1, psg) :=
        match prev with
        | Some (pv, psg) => if decide (pv = v) then (sh, psg) else getGroup v sh
        | None => getGroup v sh
        end in
      shard_updateRuns getGroup br values' (S i) (Some (v, psg))
        (shard_updateStatsForRow psg br i sh1)
  end.

(** [func (shard *pipeStatsProcessorShard) updateStatsSingleColumn(br *blockResult, bf *byStatsField)] *)
Definition shard_updateStatsSingleColumn (br : blockResult) (bf : byStatsField)
    (sh : pipeStatsProcessorShard) : pipeStatsProcessorShard :=
  let c := getColumnByName br (bf_name bf) in
  let generic :=
    shard_updateRuns psm_getPipeStatsGroupGeneric br
      (take (rowsLen br) (getValuesBucketed c br bf)) 0 None sh in
  let typed (unmarshal : string → Z) :=
    shard_updateRuns (λ v, psm_getPipeStatsGroupUint64 (unmarshal v)) br
      (c_valuesEncoded c) 0 None sh in
  if c_isConst c then
    let v := getBucketedValue br (default "" (c_valuesEncoded c !! 0%nat)) bf in
    let '(sh1, psg) := psm_getPipeStatsGroupGeneric v sh in
    shard_updateStatsForAllRows psg br sh1
  else if hasBucketConfig bf then generic
  else
    match c_valueType c with
    | valueTypeUint8 => typed unmarshalUint8
    | valueTypeUint16 => typed unmarshalUint16
    | valueTypeUint32 => typed unmarshalUint32
    | valueTypeUint64 => typed unmarshalUint64
    | valueTypeInt64 =>
        shard_updateRuns (λ v, psm_getPipeStatsGroupInt64 (unmarshalInt64 v)) br
          (c_valuesEncoded c) 0 None sh
    | _ => generic
    end.

(** [func areConstValues(values []string) bool] *)
Definition areConstValues (values : list string) : bool :=
  match values with
  | [] => false
  | v :: rest => forallb (λ w, bool_decide (v = w)) rest
  end.

(** The values of the by-fields at row [i]. *)
Definition rowTuple (columnValues : list (list string)) (i : nat) : list string :=
  map (λ values, default "" (values !! i)) columnValues.

(** The composite key: [keyBuf = encoding.MarshalBytes(keyBuf, v)] for the
    value [v] of every by-field, in order. *)
Definition marshalKey (tuple : list string) : string :=
  foldl MarshalBytes "" tuple.

(** [func (shard *pipeStatsProcessorShard) writeBlock(br *blockResult)] *)
Definition shard_writeBlock (br : blockResult) (sh0 : pipeStatsProcessorShard)
  : pipeStatsProcessorShard :=
  let byFs := byFields (shard_ps sh0) in
  let sh := shard_applyPerFunctionFilters br sh0 in
  match byFs with
  | [] =>
      let '(sh1, psg) := psm_getPipeStatsGroupString "" sh in
      shard_updateStatsForAllRows psg br sh1
  | [bf] => shard_updateStatsSingleColumn br bf sh
  | _ =>
      let columnValues :=
        map (λ bf, getValuesBucketed (getColumnByName br (bf_name bf)) br bf) byFs in
      if forallb areConstValues columnValues then
        let '(sh1, psg) := psm_getPipeStatsGroupString (marshalKey (rowTuple columnValues 0)) sh in
        shard_updateStatsForAllRows psg br sh1
      else
        shard_updateRuns (λ tuple, psm_getPipeStatsGroupString (marshalKey tuple)) br
          (map (rowTuple columnValues) (seq 0 (rowsLen br))) 0 None sh
  end.

(** *** The processor and its write path *)

(** [type pipeStatsProcessor].  [stopCh_closed] tells whether [stopCh] is
    closed, which is what [needStop(psp.stopCh)] reads; [cancelCalls] counts
    the calls of [psp.cancel()]. *)
Record pipeStatsProcessor : Type := {
  psp_ps : pipeStats;
  stopCh_closed : bool;
  cancelCalls : nat;
  shards : list pipeStatsProcessorShard;
  maxStateSize : Z;
  psp_stateSizeBudget : Z
}.

(** [func (ps *pipeStats) newPipeProcessor(workersCount int, stopCh, cancel, ppNext)];
    [maxStateSize] is [int64(float64(memory.Allowed()) * 0.3)], taken as
    given. *)
Definition newPipeProcessor (ps : pipeStats) (workersCount : nat) (stopped : bool)
    (maxSize : Z) : pipeStatsProcessor :=
  {| psp_ps := ps;
     stopCh_closed := stopped;
     cancelCalls := 0;
     shards := replicate workersCount
                 (shard_init {| shard_ps := ps; shard_m := psm_init; shard_bms := [];
                                shard_stateSizeBudget := 0 |});
     maxStateSize := maxSize;
     psp_stateSizeBudget := maxSize |}.

(** How the loop at the head of [pipeStatsProcessor.writeBlock] ends: with
    [return] when the global budget is used up (with the global counter, the
    local counter, and whether [cancel()] was called), or with the local
    counter back at zero or above. *)
Inductive budgetOutcome : Type :=
| BudgetExhausted (global : Z) (local : Z) (cancelled : bool)
| BudgetReady (global : Z) (local : Z).

(** [for shard.stateSizeBudget < 0 { remaining := psp.stateSizeBudget.Add(-stateSizeBudgetChunk); ... }] *)
Equations? stealBudget (global local : Z) : budgetOutcome by wf (Z.to_nat (- local)) lt :=
  stealBudget global local with decide (local < 0) => {
    | right _ := BudgetReady global local
    | left _ with decide (wrap64 (global - stateSizeBudgetChunk) < 0) => {
        | left _ :=
            BudgetExhausted (wrap64 (global - stateSizeBudgetChunk)) local
              (bool_decide
                 (0 <= wrap64 (wrap64 (global - stateSizeBudgetChunk) + stateSizeBudgetChunk)))
        | right _ :=
            stealBudget (wrap64 (global - stateSizeBudgetChunk))
                        (wrap64 (local + stateSizeBudgetChunk)) } }.
Proof.
  assert (Hc : stateSizeBudgetChunk = 1048576) by reflexivity.
  assert (local + stateSizeBudgetChunk <= wrap64 (local + stateSizeBudgetChunk)); [|lia].
  unfold wrap64.
  destruct (Z_le_gt_dec (- 2 ^ 63) (local + stateSizeBudgetChunk)) as [Hlo | Hlo].
  - rewrite Z.mod_small by lia. lia.
  - pose proof (Z.mod_pos_bound (local + stateSizeBudgetChunk + 2 ^ 63) (2 ^ 64) ltac:(lia)).
    lia.
Qed.

Definition psp_with_shard (w : nat) (sh : pipeStatsProcessorShard) (global : Z)
    (cancels : nat) (psp : pipeStatsProcessor) : pipeStatsProcessor :=
  {| psp_ps := psp_ps psp;
     stopCh_closed := stopCh_closed psp;
     cancelCalls := cancels;
     shards := <[w := sh]> (shards psp);
     maxStateSize := maxStateSize psp;
     psp_stateSizeBudget := global |}.

(** [func (psp *pipeStatsProcessor) writeBlock(workerID uint, br *blockResult)].
    A [workerID] without a shard is an index out of range in Go; the state
    stays as it is here. *)
Definition psp_writeBlock (workerID : nat) (br : blockResult) (psp : pipeStatsProcessor)
  : pipeStatsProcessor :=
  if Nat.eqb (rowsLen br) 0 then psp
  else
    match shards psp !! workerID with
    | None => psp
    | Some shard =>
        match stealBudget (psp_stateSizeBudget psp) (shard_stateSizeBudget shard) with
        | BudgetExhausted global local cancelled =>
            psp_with_shard workerID (shard_with_budget local shard) global
              (if cancelled then S (cancelCalls psp) else cancelCalls psp) psp
        | BudgetReady global local =>
            psp_with_shard workerID (shard_writeBlock br (shard_with_budget local shard))
              global (cancelCalls psp) psp
        end
    end.

(** *** The string form of the pipe and the budget error *)

Definition joinStrings (sep : string) (a : list string) : string :=
  match a with
  | [] => ""
  | x :: rest => foldl (λ acc y, acc +:+ sep +:+ y) x rest
  end.

(** [func (bf *byStatsField) String() string] *)
Definition bf_String (bf : byStatsField) : string :=
  quoteTokenIfNeeded (bf_name bf) +:+
  (if bool_decide (bucketSizeStr bf = "") then ""
   else ":" +:+ bucketSizeStr bf +:+
        (if bool_decide (bucketOffsetStr bf = "") then ""
         else " offset " +:+ bucketOffsetStr bf)).

Definition pipeStatsFunc_line (fn : pipeStatsFunc) : string :=
  sf_String (f fn) +:+
  (match iff fn with
   | None => ""
   | Some flt => " " +:+ iff_String flt
   end) +:+ " as " +:+ quoteTokenIfNeeded (resultName fn).

(** [func (ps *pipeStats) String() string]; [None] is the panic
    [BUG: pipeStats must contain at least a single statsFunc]. *)
Definition ps_String (ps : pipeStats) : option string :=
  let s := "stats " +:+
           (match byFields ps with
            | [] => ""
            | _ => "by (" +:+ joinStrings ", " (map bf_String (byFields ps)) +:+ ") "
            end) in
  match funcs ps with
  | [] => None
  | _ => Some (s +:+ joinStrings ", " (map pipeStatsFunc_line (funcs ps)))
  end.

(** [fmt.Errorf("cannot calculate [%s], since it requires more than %dMB of memory",
    psp.ps.String(), psp.maxStateSize/(1<<20))]; the division of Go truncates
    towards zero. *)
Definition budgetError (psp : pipeStatsProcessor) : option string :=
  match ps_String (psp_ps psp) with
  | None => None
  | Some s =>
      Some ("cannot calculate [" +:+ s +:+ "], since it requires more than " +:+
            pretty (Z.quot (maxStateSize psp) (Z.shiftl 1 20)) +:+ "MB of memory")
  end.

(** *** The merge of the shards at flush *)

(** The eight bytes of a [uint64] in memory, low byte first: the
    [unsafe.Slice] of length 8 over the address of [n]. *)
Fixpoint bytesLE (k : nat) (n : Z) : string :=
  match k with
  | O => ""
  | S k' => String (ascii_of_N (Z.to_N (n `mod` 256))) (bytesLE k' (n `div` 256))
  end.

(** [h % uint64(len(perCPU))] for the key of a group. *)
Definition cpuIdxU64 (n : Z) : nat :=
  Z.to_nat (xxhash_Sum64 (bytesLE 8 n) `mod` Z.of_nat cpusCount).

Definition cpuIdxString (k : string) : nat :=
  Z.to_nat (xxhash_Sum64 k `mod` Z.of_nat cpusCount).

(** The scatter of one shard over the maps of the CPUs:
    [perCPU[shardIdx].u64[n] = psg] and the like for every group.  The order
    in which Go walks a map is open; the model walks it in the order of
    [map_fold]. *)
Definition scatterShard (psm : pipeStatsGroupMap) : list pipeStatsGroupMap :=
  let perCPU0 := replicate cpusCount psm_init in
  let perCPU1 :=
    map_fold (λ n psg perCPU,
                alter (λ d, psm_store d (RefU64 n) psg) (cpuIdxU64 n) perCPU)
             perCPU0 (u64 psm) in
  let perCPU2 :=
    map_fold (λ n psg perCPU,
                alter (λ d, psm_store d (RefNegative64 n) psg) (cpuIdxU64 n) perCPU)
             perCPU1 (negative64 psm) in
  map_fold (λ k psg perCPU,
              alter (λ d, psm_store d (RefString k) psg) (cpuIdxString k) perCPU)
           perCPU2 (strings psm).

(** One of the three loops of [pipeStatsGroupMap.mergeState]: a group of
    [src] moves to [dst] when [dst] has no group at its key, and is merged
    into the group of [dst] otherwise. *)
Definition mergeGroups `{Countable K} (dst src : gmap K pipeStatsGroup)
  : gmap K pipeStatsGroup :=
  map_fold (λ k psgSrc acc,
              match acc !! k with
              | None => <[k := psgSrc]> acc
              | Some psgDst => <[k := psg_mergeState psgDst psgSrc]> acc
              end)
           dst src.

(** [func (psm *pipeStatsGroupMap) mergeState(src *pipeStatsGroupMap, stopCh <-chan struct{})] *)
Definition psm_mergeState (stopped : bool) (psm src : pipeStatsGroupMap)
  : pipeStatsGroupMap :=
  if stopped then psm
  else {| u64 := mergeGroups (u64 psm) (u64 src);
          negative64 := mergeGroups (negative64 psm) (negative64 src);
          strings := mergeGroups (strings psm) (strings src) |}.

(** What [mergeShardsParallel] returns: the maps to write, the budget error,
    or a panic. *)
Inductive mergeResult : Type :=
| MergeMaps (psms : list pipeStatsGroupMap)
| MergeError (msg : string)
| MergePanic.

Definition budgetErrorResult (psp : pipeStatsProcessor) : mergeResult :=
  match budgetError psp with
  | Some msg => MergeError msg
  | None => MergePanic
  end.

(** [for i := range psms { if psms[i].entriesCount() > 0 { result = append(result, &psms[i]) } }] *)
Definition nonEmptyMaps (psms : list pipeStatsGroupMap) : list pipeStatsGroupMap :=
  filter (λ psm, (0 < psm_entriesCount psm)%nat) psms.

(** The part of [mergeShardsParallel] after the shortcut for one shard: the
    scatter of every shard, the merge of the maps of every CPU into the maps
    of the first shard, the checks of [stopCh] and of the budget in between,
    and the drop of the empty maps.  Without a shard, [perShardMaps[0]] is an
    index out of range. *)
Definition mergeShardsGeneral (psp : pipeStatsProcessor) : mergeResult :=
  let perShardMaps := map (λ sh, scatterShard (shard_m sh)) (shards psp) in
  if stopCh_closed psp then MergeMaps []
  else if psp_stateSizeBudget psp <? 0 then budgetErrorResult psp
  else
    match perShardMaps with
    | [] => MergePanic
    | first :: others =>
        let merged :=
          foldl (λ acc perCPU, zip_with (psm_mergeState (stopCh_closed psp)) acc perCPU)
                first others in
        if stopCh_closed psp then MergeMaps []
        else if psp_stateSizeBudget psp <? 0 then budgetErrorResult psp
        else MergeMaps (nonEmptyMaps merged)
    end.

(** [func (psp *pipeStatsProcessor) mergeShardsParallel() ([]*pipeStatsGroupMap, error)] *)
Definition psp_mergeShardsParallel (psp : pipeStatsProcessor) : mergeResult :=
  match shards psp with
  | [shard] =>
      if (0 <? psm_entriesCount (shard_m shard))%nat then MergeMaps [shard_m shard]
      else MergeMaps []
  | _ => mergeShardsGeneral psp
  end.

(** *** The stats writer *)

(** [type resultColumn]: a name with the values added so far. *)
Record resultColumn : Type := {
  rc_name : string;
  rc_values : list string
}.

(** The block the writer hands to the next pipe: what
    [br.setResultColumns(rcs, rowsCount)] is given. *)
Record resultBlock : Type := {
  rb_rowsLen : nat;
  rb_rcs : list resultColumn
}.

(** Row [i] of a result block, one value per column. *)
Definition rb_row (rb : resultBlock) (i : nat) : list string :=
  map (λ rc, default "" (rc_values rc !! i)) (rb_rcs rb).

Definition rb_rows (rb : resultBlock) : list (list string) :=
  map (rb_row rb) (seq 0 (rb_rowsLen rb)).

(** [type pipeStatsWriter].  [psw_written] lists the blocks given to
    [ppNext.writeBlock(psw.workerID, ...)], the first one first.  The values
    are kept as strings; the byte buffer they point into is left out. *)
Record pipeStatsWriter : Type := {
  psw_workerID : nat;
  rcs : list resultColumn;
  resultLen : Z;
  rowsCount : nat;
  psw_values : list string;
  psw_written : list resultBlock
}.

(** [func newPipeStatsWriter(psp *pipeStatsProcessor, workerID uint) *pipeStatsWriter] *)
Definition newPipeStatsWriter (psp : pipeStatsProcessor) (workerID : nat) : pipeStatsWriter :=
  {| psw_workerID := workerID;
     rcs := map (λ bf, {| rc_name := bf_name bf; rc_values := [] |}) (byFields (psp_ps psp))
            ++ map (λ fn, {| rc_name := resultName fn; rc_values := [] |}) (funcs (psp_ps psp));
     resultLen := 0;
     rowsCount := 0;
     psw_values := [];
     psw_written := [] |}.

(** [func (psw *pipeStatsWriter) flush()] *)
Definition psw_flush (psw : pipeStatsWriter) : pipeStatsWriter :=
  {| psw_workerID := psw_workerID psw;
     rcs := map (λ rc, {| rc_name := rc_name rc; rc_values := [] |}) (rcs psw);
     resultLen := 0;
     rowsCount := 0;
     psw_values := [];
     psw_written := psw_written psw ++ [{| rb_rowsLen := rowsCount psw; rb_rcs := rcs psw |}] |}.

(** [psw.rcs[i].addValue(v)] for every value. *)
Definition addValues (cols : list resultColumn) (values : list string) : list resultColumn :=
  zip_with (λ rc v, {| rc_name := rc_name rc; rc_values := rc_values rc ++ [v] |}) cols values.

Definition valuesLen (values : list string) : Z :=
  foldl (λ n v, wrap64 (n + Z.of_nat (String.length v))) 0 values.

(** [func (psw *pipeStatsWriter) writePipeStatsGroup(psg *pipeStatsGroup)];
    [None] is the panic [BUG: len(values)=%d must be equal to len(rcs)=%d]. *)
Definition psw_writePipeStatsGroup (stopped : bool) (psg : pipeStatsGroup)
    (psw : pipeStatsWriter) : option pipeStatsWriter :=
  let values := psw_values psw ++ map (λ sfp, sfp_finalizeStats sfp stopped) (sfps psg) in
  if negb (Nat.eqb (length values) (length (rcs psw))) then None
  else
    let psw1 :=
      {| psw_workerID := psw_workerID psw;
         rcs := addValues (rcs psw) values;
         resultLen := wrap64 (resultLen psw + valuesLen values);
         rowsCount := S (rowsCount psw);
         psw_values := values;
         psw_written := psw_written psw |} in
    Some (if 64000 <=? resultLen psw1 then psw_flush psw1 else psw1).

Definition psw_with_values (values : list string) (psw : pipeStatsWriter) : pipeStatsWriter :=
  {| psw_workerID := psw_workerID psw;
     rcs := rcs psw;
     resultLen := resultLen psw;
     rowsCount := rowsCount psw;
     psw_values := values;
     psw_written := psw_written psw |}.

(** The decoding loop of [writeShardData]:
    [for len(keyBuf) > 0 { v, nSize := encoding.UnmarshalBytes(keyBuf); ... }];
    [None] is the panic [BUG: cannot unmarshal value from keyBuf].  Every
    round takes at least one byte, so [fuel] at the length of the key lasts
    to the end of the loop. *)
Fixpoint unmarshalKey (fuel : nat) (keyBuf : string) : option (list string) :=
  match keyBuf with
  | EmptyString => Some []
  | _ =>
      match fuel with
      | O => None
      | S fuel' =>
          match UnmarshalBytes keyBuf with
          | None => None
          | Some (v, tail) =>
              match unmarshalKey fuel' tail with
              | Some vs => Some (v :: vs)
              | None => None
              end
          end
      end
  end.

(** One round of a loop of [writeShardData]: the check of [stopCh], the
    values of the by-fields, and the group.  A writer that has panicked or
    returned stays as it is. *)
Definition psw_writeEntry (stopped : bool) (keyValues : option (list string))
    (psg : pipeStatsGroup) (acc : option pipeStatsWriter) : option pipeStatsWriter :=
  match acc with
  | None => None
  | Some psw =>
      if stopped then Some psw
      else
        match keyValues with
        | None => None
        | Some values => psw_writePipeStatsGroup stopped psg (psw_with_values values psw)
        end
  end.

(** The values of the by-fields of a composite key; [None] is one of the two
    panics of the decoding. *)
Definition decodeKey (nFields : nat) (key : string) : option (list string) :=
  match unmarshalKey (String.length key) key with
  | Some values => if Nat.eqb (length values) nFields then Some values else None
  | None => None
  end.

(** [func (psw *pipeStatsWriter) writeShardData(psm *pipeStatsGroupMap)].
    The groups of a map are written in the order of [map_to_list]; Go leaves
    the order open. *)
Definition psw_writeShardData (stopped : bool) (byFs : list byStatsField)
    (psm : pipeStatsGroupMap) (psw : pipeStatsWriter) : option pipeStatsWriter :=
  match byFs with
  | [_] =>
      let w1 :=
        foldl (λ acc '(n, psg),
                 psw_writeEntry stopped (Some [marshalUint64String n]) psg acc)
              (Some psw) (map_to_list (u64 psm)) in
      let w2 :=
        foldl (λ acc '(n, psg),
                 psw_writeEntry stopped (Some [marshalInt64String (wrap64 n)]) psg acc)
              w1 (map_to_list (negative64 psm)) in
      foldl (λ acc '(key, psg), psw_writeEntry stopped (Some [key]) psg acc)
            w2 (map_to_list (strings psm))
  | _ =>
      foldl (λ acc '(key, psg),
               psw_writeEntry stopped (decodeKey (length byFs) key) psg acc)
            (Some psw) (map_to_list (strings psm))
  end.

(** *** Flush *)

(** What [flush] returns: [nil], the budget error, or a panic. *)
Inductive flushResult : Type :=
| FlushNil
| FlushError (msg : string)
| FlushPanic.

(** The body of a writer goroutine of [flush]:
    [psw := newPipeStatsWriter(psp, workerID); psw.writeShardData(psms[workerID]); psw.flush()];
    the blocks it gave to the next pipe. *)
Definition runWriter (psp : pipeStatsProcessor) (workerID : nat) (psm : pipeStatsGroupMap)
  : option (list resultBlock) :=
  match psw_writeShardData (stopCh_closed psp) (byFields (psp_ps psp)) psm
          (newPipeStatsWriter psp workerID) with
  | Some psw => Some (psw_written (psw_flush psw))
  | None => None
  end.

(** The special case of zero matching rows in [flush]:
    [shard := &psp.shards[0]; shard.init(); _ = shard.m.getPipeStatsGroupString(nil)]. *)
Definition emptyMatchMaps (psp : pipeStatsProcessor) : option (list pipeStatsGroupMap) :=
  match shards psp with
  | shard :: _ => Some [shard_m (fst (psm_getPipeStatsGroupString "" (shard_init shard)))]
  | [] => None
  end.

(** The body of [flush] over the merge step [mergeShards]. *)
Definition psp_flushWith (mergeShards : pipeStatsProcessor → mergeResult)
    (psp : pipeStatsProcessor) : flushResult * list (list resultBlock) :=
  if psp_stateSizeBudget psp <=? 0 then
    match budgetError psp with
    | Some msg => (FlushError msg, [])
    | None => (FlushPanic, [])
    end
  else
    match mergeShards psp with
    | MergeError msg => (FlushError msg, [])
    | MergePanic => (FlushPanic, [])
    | MergeMaps psms =>
        if stopCh_closed psp then (FlushNil, [])
        else
          let psms' :=
            if Nat.eqb (length (byFields (psp_ps psp))) 0 && Nat.eqb (length psms) 0
            then emptyMatchMaps psp else Some psms in
          match psms' with
          | None => (FlushPanic, [])
          | Some maps =>
              match mapM (λ '(i, psm), runWriter psp i psm) (imap pair maps) with
              | Some written => (FlushNil, written)
              | None => (FlushPanic, [])
              end
          end
    end.

(** [func (psp *pipeStatsProcessor) flush() error], with the blocks every
    writer gave to the next pipe, writer [i] at place [i]. *)
Definition psp_flush (psp : pipeStatsProcessor) : flushResult * list (list resultBlock) :=
  psp_flushWith psp_mergeShardsParallel psp.

(** [flush] as it would run without the shortcut for one shard. *)
Definition psp_flushGeneral (psp : pipeStatsProcessor) : flushResult * list (list resultBlock) :=
  psp_flushWith mergeShardsGeneral psp.

(** The rows the writers gave to the next pipe, block after block. *)
Definition writtenRows (written : list resultBlock) : list (list string) :=
  concat (map rb_rows written).

(** *** States of a run *)

(** The groups of a map hold one processor per function of the pipe. *)
Definition group_wf (ps : pipeStats) (psg : pipeStatsGroup) : Prop :=
  length (sfps psg) = length (funcs ps).

(** The places of a group map the write path uses: for a pipe with one
    by-field any integer key, and the string keys that do not parse as an
    integer; for any other pipe the string keys that decode to one value per
    by-field. *)
Definition ref_ok (ps : pipeStats) (r : groupRef) : Prop :=
  if decide (length (byFields ps) = 1%nat) then
    match r with
    | RefString key => tryParseUint64 key = None ∧ tryParseInt64 key = None
    | _ => True
    end
  else
    match r with
    | RefString key => is_Some (decodeKey (length (byFields ps)) key)
    | _ => False
    end.

(** What the write path keeps true of a group map: every group has one
    processor per function and sits at a place of [ref_ok]. *)
Definition psm_wf (ps : pipeStats) (psm : pipeStatsGroupMap) : Prop :=
  ∀ r psg, psm_lookup psm r = Some psg → group_wf ps psg ∧ ref_ok ps r.

Definition shard_wf (ps : pipeStats) (sh : pipeStatsProcessorShard) : Prop :=
  shard_ps sh = ps ∧ psm_wf ps (shard_m sh).

Definition psp_wf (psp : pipeStatsProcessor) : Prop :=
  Forall (shard_wf (psp_ps psp)) (shards psp).

(** The states of a processor between its construction and the flush:
    workers write blocks, and [stopCh] may get closed. *)
Inductive reachable (ps : pipeStats) : pipeStatsProcessor → Prop :=
| reach_new (workersCount : nat) (maxSize : Z) :
    reachable ps (newPipeProcessor ps workersCount false maxSize)
| reach_writeBlock (psp : pipeStatsProcessor) (workerID : nat) (br : blockResult) :
    reachable ps psp → reachable ps (psp_writeBlock workerID br psp)
| reach_stop (psp : pipeStatsProcessor) :
    reachable ps psp →
    reachable ps {| psp_ps := psp_ps psp;
                    stopCh_closed := true;
                    cancelCalls := cancelCalls psp;
                    shards := shards psp;
                    maxStateSize := maxStateSize psp;
                    psp_stateSizeBudget := psp_stateSizeBudget psp |}.

(** The group at the place [r] of the map of CPU [j]. *)
Definition lookupAt (perCPU : list pipeStatsGroupMap) (j : nat) (r : groupRef)
  : option pipeStatsGroup :=
  perCPU !! j ≫= λ d, psm_lookup d r.

(** The CPU the scatter sends the group at the place [r] to. *)
Definition cpuIdx (r : groupRef) : nat :=
  match r with
  | RefU64 n => cpuIdxU64 n
  | RefNegative64 n => cpuIdxU64 n
  | RefString key => cpuIdxString key
  end.

Definition selU64 (r : groupRef) : option Z :=
  match r with RefU64 n => Some n | _ => None end.
Definition selNegative64 (r : groupRef) : option Z :=
  match r with RefNegative64 n => Some n | _ => None end.
Definition selString (r : groupRef) : option string :=
  match r with RefString key => Some key | _ => None end.

(** The group two maps hold together at one place, after [mergeState]. *)
Definition mergedGroup (dst src : option pipeStatsGroup) : option pipeStatsGroup :=
  match dst, src with
  | Some d, Some s => Some (psg_mergeState d s)
  | Some d, None => Some d
  | None, _ => src
  end.

(** *** What a flush should write, in the words of the specification *)

(** The names of the columns: the by-fields, then the functions, each in the
    order of the declaration. *)
Definition pipeNames (ps : pipeStats) : list string :=
  map bf_name (byFields ps) ++ map resultName (funcs ps).

(** The final values of the processors of a group, in the order of the
    functions. *)
Definition finalValues (psg : pipeStatsGroup) : list string :=
  map (λ sfp, sfp_finalizeStats sfp false) (sfps psg).

(** The values of the by-fields a key stands for. *)
Definition keyValues (ps : pipeStats) (r : groupRef) : list string :=
  match r with
  | RefU64 n => [marshalUint64String n]
  | RefNegative64 n => [marshalInt64String (wrap64 n)]
  | RefString key =>
      if decide (length (byFields ps) = 1%nat) then [key]
      else default [] (decodeKey (length (byFields ps)) key)
  end.

(** The groups of a map with their places, in the order the writer walks
    them. *)
Definition psm_entries (psm : pipeStatsGroupMap) : list (groupRef * pipeStatsGroup) :=
  map (λ '(n, psg), (RefU64 n, psg)) (map_to_list (u64 psm))
  ++ map (λ '(n, psg), (RefNegative64 n, psg)) (map_to_list (negative64 psm))
  ++ map (λ '(key, psg), (RefString key, psg)) (map_to_list (strings psm)).

(** The row of a group: the values of the by-fields, then the final values
    of the functions. *)
Definition groupRow (ps : pipeStats) (entry : groupRef * pipeStatsGroup) : list string :=
  keyValues ps entry.1 ++ finalValues entry.2.

Definition psm_rows (ps : pipeStats) (psm : pipeStatsGroupMap) : list (list string) :=
  map (groupRow ps) (psm_entries psm).

(** The rows a writer has taken so far: those of the blocks it has written
    and those it holds for the next block. *)
Definition psw_rows (psw : pipeStatsWriter) : list (list string) :=
  writtenRows (psw_written psw)
  ++ rb_rows {| rb_rowsLen := rowsCount psw; rb_rcs := rcs psw |}.

(** What holds of a writer between two groups: the columns have the names of
    the pipe and one value per row held, and every block written so far has
    the names of the pipe and at least one row. *)
Definition psw_ok (ps : pipeStats) (psw : pipeStatsWriter) : Prop :=
  map rc_name (rcs psw) = pipeNames ps
  ∧ Forall (λ rc, length (rc_values rc) = rowsCount psw) (rcs psw)
  ∧ Forall (λ rb, map rc_name (rb_rcs rb) = pipeNames ps ∧ (0 < rb_rowsLen rb)%nat)
           (psw_written psw).

(** All the rows the writers of a flush gave to the next pipe. *)
Definition allRows (written : list (list resultBlock)) : list (list string) :=
  concat (map writtenRows written).

(** What a writer gives to the next pipe for a map, in the words of the
    specification: blocks with the columns of the pipe whose rows are the
    rows of the groups of the map; every block but the last has at least one
    row. *)
Definition writerOutput (ps : pipeStats) (blocks : list resultBlock)
    (psm : pipeStatsGroupMap) : Prop :=
  ∃ init last,
    blocks = init ++ [last]
    ∧ Forall (λ rb, map rc_name (rb_rcs rb) = pipeNames ps) blocks
    ∧ writtenRows blocks = psm_rows ps psm
    ∧ Forall (λ rb, (0 < rb_rowsLen rb)%nat) init.

(** The map of the special case of zero matching rows: one new group at the
    empty key. *)
Definition emptyMatchMap (ps : pipeStats) : pipeStatsGroupMap :=
  psm_store psm_init (RefString "")
    {| psg_funcs := funcs ps;
       sfps := map (λ fn, (newStatsProcessor (f fn)).1) (funcs ps) |}.

End Engine.

(** ** The parser of the pipe *)

(** What a parse function returns; [ParseOutOfFuel] is not a result of the
    source, it marks a run the fuel of the model did not cover. *)
Inductive parseResult (A : Type) : Type :=
| ParseOk (a : A)
| ParseErr (msg : string)
| ParseOutOfFuel.
Arguments ParseOk {A} a.
Arguments ParseErr {A} msg.
Arguments ParseOutOfFuel {A}.

(** The lexer and the parse functions of other files that [parsePipeStats]
    calls.  A parse function returns what it parsed with the lexer after it.
    [parseByStatsFields] is kept at its signature: what it does with bucket
    sizes and offsets is floating-point work. *)
Class ParserAPI `{API : StatsAPI} : Type := {
  lexer : Type;
  lex_token : lexer → string;
  isKeyword : lexer → list string → bool;
  nextToken : lexer → lexer;
  parseStatsFunc : lexer → parseResult (statsFunc * lexer);
  parseIfFilter : lexer → parseResult (ifFilter * lexer);
  parseFieldName : lexer → parseResult (string * lexer);
  parseByStatsFields : lexer → parseResult (list byStatsField * lexer)
}.

Section Parser.
Context `{PAPI : ParserAPI}.

(** The name of the result when [as NAME] is left out:
    [resultName = sf.String(); if f.iff != nil { resultName += " " + f.iff.String() }]. *)
Definition defaultResultName (sf : statsFunc) (flt : option ifFilter) : string :=
  match flt with
  | None => sf_String sf
  | Some i => sf_String sf +:+ " " +:+ iff_String i
  end.

(** The part of the loop of [parsePipeStats] that settles [resultName]. *)
Definition parseResultName (sf : statsFunc) (flt : option ifFilter) (lex : lexer)
  : parseResult (string * lexer) :=
  if isKeyword lex [","; "|"; ")"; ""] then ParseOk (defaultResultName sf flt, lex)
  else
    let lex1 := if isKeyword lex ["as"] then nextToken lex else lex in
    match parseFieldName lex1 with
    | ParseOk (fieldName, lex2) => ParseOk (fieldName, lex2)
    | ParseErr msg => ParseErr ("cannot parse result name: " +:+ msg)
    | ParseOutOfFuel => ParseOutOfFuel
    end.


(** [if lex.isKeyword("if") { iff, err := parseIfFilter(lex); ... }] *)
Definition parseOptionalIf (lex : lexer) : parseResult (option ifFilter * lexer) :=
  if isKeyword lex ["if"] then
    match parseIfFilter lex with
    | ParseOk (flt, lex1) => ParseOk (Some flt, lex1)
    | ParseErr msg => ParseErr ("cannot parse 'if' filter: " +:+ msg)
    | ParseOutOfFuel => ParseOutOfFuel
    end
  else ParseOk (None, lex).

(** The loop of [parsePipeStats].  [seenByFields] maps the name of every
    by-field to the by-field, [seenResultNames] every result name taken so
    far to its function; [fs] collects the functions.  One round of fuel per
    function. *)
Fixpoint parseFuncs (fuel : nat) (byFs : list byStatsField)
    (seenByFields : gmap string byStatsField) (seenResultNames : gmap string statsFunc)
    (fs : list pipeStatsFunc) (lex : lexer) : parseResult (pipeStats * lexer) :=
  match fuel with
  | O => ParseOutOfFuel
  | S fuel' =>
      match parseStatsFunc lex with
      | ParseErr msg => ParseErr msg
      | ParseOutOfFuel => ParseOutOfFuel
      | ParseOk (sf, lex1) =>
          match parseOptionalIf lex1 with
          | ParseErr msg => ParseErr msg
          | ParseOutOfFuel => ParseOutOfFuel
          | ParseOk (flt, lex2) =>
              match parseResultName sf flt lex2 with
              | ParseErr msg => ParseErr msg
              | ParseOutOfFuel => ParseOutOfFuel
              | ParseOk (name, lex3) =>
                  match seenByFields !! name with
                  | Some _ => ParseErr ("the result name is used as 'by' field: " +:+ name)
                  | None =>
                      match seenResultNames !! name with
                      | Some _ => ParseErr ("cannot use identical result name: " +:+ name)
                      | None =>
                          let fs' := fs ++ [{| f := sf; iff := flt; resultName := name |}] in
                          if isKeyword lex3 ["|"; ")"; ""] then
                            ParseOk ({| byFields := byFs; funcs := fs' |}, lex3)
                          else if negb (isKeyword lex3 [","]) then
                            ParseErr ("unexpected token: " +:+ lex_token lex3)
                          else
                            parseFuncs fuel' byFs seenByFields
                              (<[name := sf]> seenResultNames) fs' (nextToken lex3)
                      end
                  end
              end
          end
      end
  end.

(** [seenByFields[bf.name] = bf] for every by-field. *)
Definition seenByFieldsOf (byFs : list byStatsField) : gmap string byStatsField :=
  foldl (λ seen bf, <[bf_name bf := bf]> seen) ∅ byFs.

(** [func parsePipeStats(lex *lexer, needStatsKeyword bool) (pipe, error)] *)
Definition parsePipeStats (fuel : nat) (lex : lexer) (needStatsKeyword : bool)
  : parseResult (pipeStats * lexer) :=
  if needStatsKeyword && negb (isKeyword lex ["stats"]) then
    ParseErr ("expecting 'stats'; got " +:+ lex_token lex)
  else
    let lex0 := if needStatsKeyword then nextToken lex else lex in
    let parsedBy :=
      if isKeyword lex0 ["by"; "("] then
        parseByStatsFields (if isKeyword lex0 ["by"] then nextToken lex0 else lex0)
      else ParseOk ([], lex0) in
    match parsedBy with
    | ParseErr msg => ParseErr ("cannot parse 'by' clause: " +:+ msg)
    | ParseOutOfFuel => ParseOutOfFuel
    | ParseOk (byFs, lex1) => parseFuncs fuel byFs (seenByFieldsOf byFs) ∅ [] lex1
    end.

End Parser.

(** ** An instance to evaluate the pipe on: [count()] over string tokens *)

(** Modelled from the spec: [c.getValues(br)], the values of a column as
    strings, one per row. *)
Definition getValues (c : blockResultColumn) (br : blockResult) : list string :=
  if c_isConst c then replicate (rowsLen br) (default "" (c_valuesEncoded c !! 0%nat))
  else
    match c_valueType c with
    | valueTypeUint8 => map (λ v, marshalUint64String (unmarshalUint8 v)) (c_valuesEncoded c)
    | valueTypeUint16 => map (λ v, marshalUint64String (unmarshalUint16 v)) (c_valuesEncoded c)
    | valueTypeUint32 => map (λ v, marshalUint64String (unmarshalUint32 v)) (c_valuesEncoded c)
    | valueTypeUint64 => map (λ v, marshalUint64String (unmarshalUint64 v)) (c_valuesEncoded c)
    | valueTypeInt64 => map (λ v, marshalInt64String (unmarshalInt64 v)) (c_valuesEncoded c)
    | _ => c_valuesEncoded c
    end.

(** The filter [if (field:=value)]: it keeps the bits of the rows where
    [field] has the value [value]. *)
Definition exactFilter (field value : string) : ifFilter :=
  {| iff_String := "if (" +:+ field +:+ ":=" +:+ value +:+ ")";
     applyToBlockResult := λ br bm,
       imap (λ i (b : bool),
               b && bool_decide (c_valueAt (getColumnByName br field) i = value)) bm |}.

(** The function [count()] without arguments. *)
Inductive statsCount : Type := StatsCount.

(** Modelled from the spec: the accumulator of [count]: a counter of the
    rows, wrapping as a [uint64]; its final value is the decimal integer.
    The instance has no buckets ([getBucketedValue] and [getValuesBucketed]
    hand the values through), takes tokens as they are, hashes a key to the
    number its bytes spell, and runs on two CPUs. *)
Definition countAPI : StatsAPI :=
  {| statsFunc := statsCount;
     statsProcessor := Z;
     sf_String := λ _, "count(*)";
     newStatsProcessor := λ _, (0, 16);
     sfp_updateStatsForAllRows := λ n br, (to_uint64 (n + Z.of_nat (rowsLen br)), 0);
     sfp_updateStatsForRow := λ n br i, (to_uint64 (n + 1), 0);
     sfp_mergeState := λ n k, to_uint64 (n + k);
     sfp_finalizeStats := λ n stopped, marshalUint64String n;
     getBucketedValue := λ br v bf, v;
     getValuesBucketed := λ c br bf, getValues c br;
     quoteTokenIfNeeded := λ t, t;
     xxhash_Sum64 := unmarshalLE;
     cpusCount := 2 |}.

(** A lexer over a list of tokens, the empty token at the end of the input. *)
Definition tokToken (toks : list string) : string :=
  match toks with
  | [] => ""
  | t :: _ => t
  end.

Fixpoint tokByFields (toks : list string) (acc : list byStatsField)
  : parseResult (list byStatsField * list string) :=
  match toks with
  | [] => ParseErr "missing )"
  | t :: rest =>
      if bool_decide (t = ")") then ParseOk (acc, rest)
      else if bool_decide (t = ",") then tokByFields rest acc
      else tokByFields rest
             (acc ++ [{| bf_name := t; bucketSizeStr := ""; bucketOffsetStr := "" |}])
  end.

(** The tokens after the prefix [pre], when [toks] starts with it. *)
Fixpoint tokExpect (pre toks : list string) : option (list string) :=
  match pre, toks with
  | [], _ => Some toks
  | p :: pre', t :: toks' => if bool_decide (p = t) then tokExpect pre' toks' else None
  | _ :: _, [] => None
  end.

Definition tokParseIfFilter (toks : list string) : parseResult (ifFilter * list string) :=
  match tokExpect ["if"; "("] toks with
  | Some (field :: op :: value :: close :: rest) =>
      if bool_decide (op = ":=") && bool_decide (close = ")")
      then ParseOk (exactFilter field value, rest)
      else ParseErr "cannot parse filter"
  | _ => ParseErr "cannot parse filter"
  end.

Definition tokParserAPI : @ParserAPI countAPI :=
  {| lexer := list string;
     lex_token := tokToken;
     isKeyword := λ toks kws, bool_decide (tokToken toks ∈ kws);
     nextToken := λ toks, tail toks;
     parseStatsFunc := λ toks,
       match tokExpect ["count"; "("; ")"] toks with
       | Some rest => ParseOk (StatsCount : @statsFunc countAPI, rest)
       | None => ParseErr "unknown stats func"
       end;
     parseIfFilter := tokParseIfFilter;
     parseFieldName := λ toks,
       match toks with
       | [] => ParseErr "missing field name"
       | t :: rest => ParseOk (t, rest)
       end;
     parseByStatsFields := λ toks,
       match tokExpect ["("] toks with
       | Some rest => tokByFields rest []
       | None => ParseErr "missing ("
       end |}.

(** ** Inputs the properties are evaluated on *)

Definition ex_byField (name : string) : byStatsField :=
  {| bf_name := name; bucketSizeStr := ""; bucketOffsetStr := "" |}.

Definition ex_column (name : string) (values : list string) : blockResultColumn :=
  {| c_name := name; c_isConst := false; c_valueType := valueTypeString;
     c_valuesEncoded := values |}.

(** Three rows: [metric=a v=1 status=200], [metric=a v=2 status=500],
    [metric=b v=3 status=200]. *)
Definition ex_block : blockResult :=
  {| rowsLen := 3;
     br_cs := [ex_column "metric" ["a"; "a"; "b"];
               ex_column "v" ["1"; "2"; "3"];
               ex_column "status" ["200"; "500"; "200"]] |}.

Definition ex_emptyBlock : blockResult := {| rowsLen := 0; br_cs := [] |}.

Definition ex_count (name : string) (flt : option ifFilter) : @pipeStatsFunc countAPI :=
  {| f := StatsCount : @statsFunc countAPI; iff := flt; resultName := name |}.

(** [stats count() as n] *)
Definition ex_ps_count : @pipeStats countAPI :=
  {| byFields := []; funcs := [ex_count "n" None] |}.

(** [stats by (metric) count() as c, count() if (status:=200) as c200] *)
Definition ex_ps_by : @pipeStats countAPI :=
  {| byFields := [ex_byField "metric"];
     funcs := [ex_count "c" None; ex_count "c200" (Some (exactFilter "status" "200"))] |}.

(** [stats by (x) count() as n] *)
Definition ex_ps_x : @pipeStats countAPI :=
  {| byFields := [ex_byField "x"]; funcs := [ex_count "n" None] |}.

(** A processor of [stats count() as n] that was given no block. *)
Definition ex_psp_fresh : @pipeStatsProcessor countAPI :=
  newPipeProcessor ex_ps_count 2 false 100000000.

(** A processor of [stats by (x) count() as n] without budget. *)
Definition ex_psp_noBudget : @pipeStatsProcessor countAPI :=
  newPipeProcessor ex_ps_x 2 false 0.

(** A processor with one shard that has taken [ex_block]. *)
Definition ex_psp_by : @pipeStatsProcessor countAPI :=
  psp_writeBlock 0 ex_block (newPipeProcessor ex_ps_by 1 false 100000000).

Definition ex_shard_by : @pipeStatsProcessorShard countAPI :=
  shard_writeBlock ex_block
    (shard_init {| shard_ps := ex_ps_by; shard_m := psm_init; shard_bms := [];
                   shard_stateSizeBudget := 0 |}).

(** A shard in debt by 178 bytes, and a processor around it with 100 bytes
    left of the global budget. *)
Definition ex_shard_debt : @pipeStatsProcessorShard countAPI :=
  {| shard_ps := ex_ps_by; shard_m := psm_init; shard_bms := [[]; []];
     shard_stateSizeBudget := -178 |}.

Definition ex_psp_debt : @pipeStatsProcessor countAPI :=
  {| psp_ps := ex_ps_by; stopCh_closed := false; cancelCalls := 0;
     shards := [ex_shard_debt]; maxStateSize := 100000000; psp_stateSizeBudget := 100 |}.

(** A group of [ex_ps_by] with both counters at zero. *)
Definition ex_group : @pipeStatsGroup countAPI :=
  {| psg_funcs := funcs ex_ps_by; sfps := [0; 0] |}.




(** The tokens of [stats by (x) count() as n, count()]. *)
Definition ex_tokens : list string :=
  ["stats"; "by"; "("; "x"; ")"; "count"; "("; ")"; "as"; "n"; ","; "count"; "("; ")"].

(** ** Further parts of pipe_stats.go *)

(** The by-field that [addByTimeField] builds:
    [&byStatsField{name: "_time", bucketSizeStr: stepStr, bucketSize: float64(step)}]
    with [stepStr := fmt.Sprintf("%d", step)]; the offset is left at its zero
    value. *)
Definition byTimeField (step : Z) : byStatsField :=
  {| bf_name := "_time"; bucketSizeStr := pretty step; bucketOffsetStr := "" |}.

(** The loop of [addByTimeField] over [ps.byFields]: a by-field named
    [_time] is replaced and [hasByTime] is set, any other by-field is
    appended to [dstFields] as it is. *)
Fixpoint addByTimeField_loop (step : Z) (fs dstFields : list byStatsField) (hasByTime : bool)
  : list byStatsField * bool :=
  match fs with
  | [] => (dstFields, hasByTime)
  | bf :: rest =>
      if bool_decide (bf_name bf = "_time")
      then addByTimeField_loop step rest (dstFields ++ [byTimeField step]) true
      else addByTimeField_loop step rest (dstFields ++ [bf]) hasByTime
  end.

Section PipeOps.
Context `{API : StatsAPI}.

(** [func (ps *pipeStats) addByTimeField(step int64)] *)
Definition addByTimeField (step : Z) (ps : pipeStats) : pipeStats :=
  if step <=? 0 then ps
  else
    let '(dstFields, hasByTime) := addByTimeField_loop step (byFields ps) [] false in
    {| byFields := if hasByTime then dstFields else dstFields ++ [byTimeField step];
       funcs := funcs ps |}.

(** The loop of [initFilterInValues]: [fNew := *f; fNew.iff = iffNew] for
    every function, up to the first error.  [initIff] stands for
    [f.iff.initFilterInValues(cache, getFieldValuesFunc)], a method of another
    file that is called on a nil filter too, with its result or its error. *)
Fixpoint initFilterInValues_loop (initIff : option ifFilter → option ifFilter + string)
    (fs : list pipeStatsFunc) : list pipeStatsFunc + string :=
  match fs with
  | [] => inl []
  | fn :: rest =>
      match initIff (iff fn) with
      | inr err => inr err
      | inl iffNew =>
          match initFilterInValues_loop initIff rest with
          | inr err => inr err
          | inl rest' =>
              inl ({| f := f fn; iff := iffNew; resultName := resultName fn |} :: rest')
          end
      end
  end.

(** [func (ps *pipeStats) initFilterInValues(cache *inValuesCache, getFieldValuesFunc getFieldValuesFunc) (pipe, error)] *)
Definition initFilterInValues (initIff : option ifFilter → option ifFilter + string)
    (ps : pipeStats) : pipeStats + string :=
  match initFilterInValues_loop initIff (funcs ps) with
  | inr err => inr err
  | inl funcsNew => inl {| byFields := byFields ps; funcs := funcsNew |}
  end.

(** The row loop as it would run without the memory of the previous row:
    the group is looked up for every row. *)
Fixpoint shard_updateEveryRow {K : Type}
    (getGroup : K → pipeStatsProcessorShard → pipeStatsProcessorShard * groupRef)
    (br : blockResult) (values : list K) (i : nat) (sh : pipeStatsProcessorShard)
  : pipeStatsProcessorShard :=
  match values with
  | [] => sh
  | v :: values' =>
      let '(sh1, psg) := getGroup v sh in
      shard_updateEveryRow getGroup br values' (S i) (shard_updateStatsForRow psg br i sh1)
  end.

(** The group the maps of [psms] hold together at the place [r]: the groups
    at [r], merged with [mergeState] from the first map on. *)
Definition mergedAcross (psms : list pipeStatsGroupMap) (r : groupRef)
  : option pipeStatsGroup :=
  foldl (λ acc psm, mergedGroup acc (psm_lookup psm r)) None psms.

(** The bytes a new group takes from the budget of its shard, the key left
    aside: what every processor took from the allocator, the pointer to the
    group and one interface value per processor. *)
Definition newGroupBytes (ps : pipeStats) : Z :=
  foldr (λ fn n, (newStatsProcessor (f fn)).2 + n) 0 (funcs ps)
  + (8 + 16 * Z.of_nat (length (funcs ps))).

(** The columns of values [writeBlock] takes for the by-fields:
    [c.getValuesBucketed(br, bf)] for every by-field. *)
Definition byColumnValues (ps : pipeStats) (br : blockResult) : list (list string) :=
  map (λ bf, getValuesBucketed (getColumnByName br (bf_name bf)) br bf) (byFields ps).

(** The lookups of the write path are lookups at a place that the value
    looked up settles: [getGroup] is a lookup at the place [mk v]. *)
Definition getsAt {K : Type}
    (getGroup : K → pipeStatsProcessorShard → pipeStatsProcessorShard * groupRef)
    (mk : K → groupRef) : Prop :=
  ∀ v sh, ∃ keyBytes, getGroup v sh = psm_getAt (mk v) keyBytes sh.

(** The keys that hold a group in some shard, each key once. *)
Definition shardKeys (psp : pipeStatsProcessor) : list groupRef :=
  remove_dups (concat (map (λ sh, map fst (psm_entries (shard_m sh))) (shards psp))).

End PipeOps.

(** [var statsNames] *)
Definition statsNames : list string :=
  ["avg"; "count"; "count_empty"; "count_uniq"; "count_uniq_hash"; "max"; "median"; "min";
   "quantile"; "rate"; "rate_sum"; "row_any"; "row_max"; "row_min"; "sum"; "sum_len";
   "uniq_values"; "values"].

(** The parse functions of the stats functions, [parseStatsAvg] for [avg],
    [parseStatsCount] for [count] and so on, which live in other files, and
    the quoting of [%q]. *)
Class StatsFuncParsers `{PAPI : ParserAPI} : Type := {
  parseStatsNamed : string → lexer → parseResult (statsFunc * lexer);
  quoteGo : string → string
}.

Section StatsFuncSwitch.
Context `{SFP : StatsFuncParsers}.

(** One case of the switch of [parseStatsFunc]:
    [sas, err := parseStatsAvg(lex); if err != nil { return nil, fmt.Errorf("cannot parse 'avg' func: %w", err) }; return sas, nil]. *)
Definition parseStatsFuncCase (name : string) (lex : lexer)
  : parseResult (statsFunc * lexer) :=
  match parseStatsNamed name lex with
  | ParseOk r => ParseOk r
  | ParseErr msg => ParseErr ("cannot parse '" +:+ name +:+ "' func: " +:+ msg)
  | ParseOutOfFuel => ParseOutOfFuel
  end.

(** [func parseStatsFunc(lex *lexer) (statsFunc, error)] *)
Definition parseStatsFunc_switch (lex : lexer) : parseResult (statsFunc * lexer) :=
  if isKeyword lex ["avg"] then parseStatsFuncCase "avg" lex
  else if isKeyword lex ["count"] then parseStatsFuncCase "count" lex
  else if isKeyword lex ["count_empty"] then parseStatsFuncCase "count_empty" lex
  else if isKeyword lex ["count_uniq"] then parseStatsFuncCase "count_uniq" lex
  else if isKeyword lex ["count_uniq_hash"] then parseStatsFuncCase "count_uniq_hash" lex
  else if isKeyword lex ["max"] then parseStatsFuncCase "max" lex
  else if isKeyword lex ["median"] then parseStatsFuncCase "median" lex
  else if isKeyword lex ["min"] then parseStatsFuncCase "min" lex
  else if isKeyword lex ["quantile"] then parseStatsFuncCase "quantile" lex
  else if isKeyword lex ["rate"] then parseStatsFuncCase "rate" lex
  else if isKeyword lex ["rate_sum"] then parseStatsFuncCase "rate_sum" lex
  else if isKeyword lex ["row_any"] then parseStatsFuncCase "row_any" lex
  else if isKeyword lex ["row_max"] then parseStatsFuncCase "row_max" lex
  else if isKeyword lex ["row_min"] then parseStatsFuncCase "row_min" lex
  else if isKeyword lex ["sum"] then parseStatsFuncCase "sum" lex
  else if isKeyword lex ["sum_len"] then parseStatsFuncCase "sum_len" lex
  else if isKeyword lex ["uniq_values"] then parseStatsFuncCase "uniq_values" lex
  else if isKeyword lex ["values"] then parseStatsFuncCase "values" lex
  else ParseErr ("unknown stats func " +:+ quoteGo (lex_token lex)).

End StatsFuncSwitch.

(** The number formats of bucket sizes and offsets: [float64] with the
    conversion [float64(n)], the parse functions [tryParseFloat64],
    [tryParseDuration], [tryParseBytes] and [tryParseIPv4Mask] and the
    constants [nsecsPerMicrosecond] ... [nsecsPerWeek] of other files. *)
Class BucketAPI : Type := {
  float64 : Type;
  float64_of_int : Z → float64;
  tryParseFloat64 : string → option float64;
  tryParseDuration : string → option Z;
  tryParseBytes : string → option Z;
  tryParseIPv4Mask : string → option Z;
  nsecsPerMicrosecond : float64;
  nsecsPerMillisecond : float64;
  nsecsPerSecond : float64;
  nsecsPerMinute : float64;
  nsecsPerHour : float64;
  nsecsPerDay : float64;
  nsecsPerWeek : float64
}.

Section Buckets.
Context `{BAPI : BucketAPI}.

(** [func tryParseBucketOffset(s string) (float64, bool)] *)
Definition tryParseBucketOffset (s : string) : option float64 :=
  match tryParseFloat64 s with
  | Some x => Some x
  | None =>
      match tryParseDuration s with
      | Some nsecs => Some (float64_of_int nsecs)
      | None =>
          match tryParseBytes s with
          | Some n => Some (float64_of_int n)
          | None => None
          end
      end
  end.

(** [func tryParseBucketSize(s string) (float64, bool)] *)
Definition tryParseBucketSize (s : string) : option float64 :=
  if bool_decide (s = "nanosecond") then Some (float64_of_int 1)
  else if bool_decide (s = "microsecond") then Some nsecsPerMicrosecond
  else if bool_decide (s = "millisecond") then Some nsecsPerMillisecond
  else if bool_decide (s = "second") then Some nsecsPerSecond
  else if bool_decide (s = "minute") then Some nsecsPerMinute
  else if bool_decide (s = "hour") then Some nsecsPerHour
  else if bool_decide (s = "day") then Some nsecsPerDay
  else if bool_decide (s = "week") then Some nsecsPerWeek
  else
    match tryParseFloat64 s with
    | Some x => Some x
    | None =>
        match tryParseDuration s with
        | Some nsecs => Some (float64_of_int nsecs)
        | None =>
            match tryParseBytes s with
            | Some n => Some (float64_of_int n)
            | None =>
                match tryParseIPv4Mask s with
                | Some n => Some (float64_of_int n)
                | None => None
                end
            end
        end
    end.

(** The names of the units of time [tryParseBucketSize] knows. *)
Definition bucketUnitNames : list string :=
  ["nanosecond"; "microsecond"; "millisecond"; "second"; "minute"; "hour"; "day"; "week"].

End Buckets.

(** [stats by (metric, status) count() as n] *)
Definition ex_ps_two : @pipeStats countAPI :=
  {| byFields := [ex_byField "metric"; ex_byField "status"];
     funcs := [ex_count "n" None] |}.

(** A new shard of [ex_ps_two]. *)
Definition ex_shard_two : @pipeStatsProcessorShard countAPI :=
  shard_init {| shard_ps := ex_ps_two; shard_m := psm_init; shard_bms := [];
                shard_stateSizeBudget := 0 |}.

(** Two workers that have taken [ex_block] each, for the pipe with the
    by-field [metric] and for the pipe without by-fields. *)
Definition ex_psp_by2 : @pipeStatsProcessor countAPI :=
  psp_writeBlock 1 ex_block
    (psp_writeBlock 0 ex_block (newPipeProcessor ex_ps_by 2 false 100000000)).

Definition ex_psp_count2 : @pipeStatsProcessor countAPI :=
  psp_writeBlock 1 ex_block
    (psp_writeBlock 0 ex_block (newPipeProcessor ex_ps_count 2 false 100000000)).

(** A processor whose [stopCh] is closed. *)
Definition ex_psp_stopped : @pipeStatsProcessor countAPI :=
  newPipeProcessor ex_ps_by 2 true 100000000.

(** * Properties *)

(** ** Bitmaps and projected blocks *)

Lemma filterByBitmap_map {A B} (g : A → B) (bm : bitmap) (l : list A) :
  filterByBitmap bm (map g l) = map g (filterByBitmap bm l).
Proof.
  revert l. induction bm as [|b bm IH]; intros [|x l]; simpl; try reflexivity.
  destruct b; simpl; rewrite IH; reflexivity.
Qed.

Lemma list_as_map_seq {A} (d : A) (l : list A) :
  l = map (λ i, default d (l !! i)) (seq 0 (length l)).
Proof.
  induction l as [|x l IH]; simpl; [reflexivity|].
  f_equal. rewrite <- seq_shift, map_map. exact IH.
Qed.

(** The values of a projected column are the values of the column at the
    selected rows. *)
Lemma c_valueAt_projected (br : blockResult) (bm : bitmap) (c : blockResultColumn) (j i : nat) :
  (c_isConst c = false → length (c_valuesEncoded c) = rowsLen br) →
  filterByBitmap bm (seq 0 (rowsLen br)) !! j = Some i →
  c_valueAt (if c_isConst c then c
             else {| c_name := c_name c; c_isConst := false;
                     c_valueType := c_valueType c;
                     c_valuesEncoded := filterByBitmap bm (c_valuesEncoded c) |}) j
  = c_valueAt c i.
Proof.
  intros Hlen Hsel. unfold c_valueAt.
  destruct (c_isConst c) eqn:Hc; [rewrite Hc; reflexivity|]. simpl.
  rewrite (list_as_map_seq "" (c_valuesEncoded c)) at 1.
  rewrite filterByBitmap_map, Hlen by reflexivity.
  rewrite list_lookup_fmap, Hsel. reflexivity.
Qed.

(** The rows of the projection of a block through a bitmap are the rows of
    the block at the set bits, in order. *)
Lemma br_rows_initFromFilterAllColumns (br : blockResult) (bm : bitmap) :
  br_wf br →
  br_rows (initFromFilterAllColumns br bm) = filterByBitmap bm (br_rows br).
Proof.
  intros Hwf. unfold br_rows at 2. rewrite filterByBitmap_map.
  unfold br_rows, initFromFilterAllColumns; simpl.
  apply list_eq; intros j. rewrite !list_lookup_fmap.
  destruct (filterByBitmap bm (seq 0 (rowsLen br)) !! j) as [i|] eqn:Hsel; simpl.
  - rewrite lookup_seq_lt by (apply lookup_lt_Some in Hsel; exact Hsel). simpl.
    f_equal. unfold br_row; simpl. rewrite map_map.
    apply map_ext_in; intros c Hc. f_equal; [destruct (c_isConst c); reflexivity|].
    apply (c_valueAt_projected br bm c j i); [|exact Hsel].
    intros Hconst. unfold br_wf in Hwf. rewrite forallb_forall in Hwf.
    specialize (Hwf c Hc). rewrite Hconst in Hwf. simpl in Hwf.
    apply Nat.eqb_eq. exact Hwf.
  - rewrite lookup_seq_ge; [reflexivity|].
    apply lookup_ge_None in Hsel. simpl. lia.
Qed.

(** ** Length-prefixed keys *)

Lemma string_app_cons (x : ascii) (a b : string) : String x a +:+ b = String x (a +:+ b).
Proof. reflexivity. Qed.

Lemma string_app_nil_l (b : string) : "" +:+ b = b.
Proof. reflexivity. Qed.

Lemma string_app_assoc (a b c : string) : (a +:+ b) +:+ c = a +:+ (b +:+ c).
Proof.
  induction a as [|x a IH]; [reflexivity|].
  rewrite !string_app_cons, IH. reflexivity.
Qed.

Lemma string_app_nil_r (a : string) : a +:+ "" = a.
Proof.
  induction a as [|x a IH]; [reflexivity|].
  rewrite string_app_cons, IH. reflexivity.
Qed.

Lemma string_length_app (a b : string) :
  String.length (a +:+ b) = (String.length a + String.length b)%nat.
Proof.
  induction a as [|x a IH]; [reflexivity|].
  rewrite string_app_cons. simpl. rewrite IH. reflexivity.
Qed.

Lemma unmarshalVarUint64_marshal (n : N) (rest : string) :
  unmarshalVarUint64 (marshalVarUint64 n +:+ rest) = Some (n, rest).
Proof.
  funelim (marshalVarUint64 n); rewrite string_app_cons; simpl; rewrite ?string_app_nil_l.
  - rewrite N_ascii_embedding by lia.
    destruct (N.ltb_spec n 128); [reflexivity | lia].
  - pose proof (N.mod_upper_bound n 128 ltac:(lia)) as Hup.
    pose proof (N.div_mod n 128 ltac:(lia)) as Hdm.
    rewrite H. clear H Heqcall.
    generalize dependent (n `mod` 128)%N. generalize dependent (n `div` 128)%N.
    intros q r Hup Hdm.
    rewrite N_ascii_embedding by lia.
    destruct (N.ltb_spec (128 + r) 128) as [Hlt|_]; [lia|].
    do 2 f_equal. lia.
Qed.

Lemma marshalVarUint64_nonempty (n : N) : (0 < String.length (marshalVarUint64 n))%nat.
Proof. funelim (marshalVarUint64 n); simpl; lia. Qed.

Lemma splitBytes_app (b rest : string) :
  splitBytes (String.length b) (b +:+ rest) = Some (b, rest).
Proof.
  induction b as [|x b IH]; [reflexivity|].
  rewrite string_app_cons. simpl. rewrite IH. reflexivity.
Qed.

Lemma UnmarshalBytes_marshalled (b rest : string) :
  UnmarshalBytes (marshalledBytes b +:+ rest) = Some (b, rest).
Proof.
  unfold UnmarshalBytes, marshalledBytes.
  rewrite string_app_assoc, unmarshalVarUint64_marshal, Nat2N.id.
  apply splitBytes_app.
Qed.

Lemma marshalledBytes_nonempty (b : string) : (0 < String.length (marshalledBytes b))%nat.
Proof.
  unfold marshalledBytes. rewrite string_length_app.
  pose proof (marshalVarUint64_nonempty (N.of_nat (String.length b))). lia.
Qed.

Lemma foldl_MarshalBytes (dst : string) (tuple : list string) :
  foldl MarshalBytes dst tuple = dst +:+ concatStrings (map marshalledBytes tuple).
Proof.
  revert dst. induction tuple as [|v tuple IH]; intros dst; simpl.
  - rewrite string_app_nil_r. reflexivity.
  - rewrite IH. unfold MarshalBytes, marshalledBytes.
    rewrite !string_app_assoc. reflexivity.
Qed.

Lemma marshalKey_concat (tuple : list string) :
  marshalKey tuple = concatStrings (map marshalledBytes tuple).
Proof. unfold marshalKey. rewrite foldl_MarshalBytes. reflexivity. Qed.

Lemma concat_marshalled_length (tuple : list string) :
  (length tuple <= String.length (concatStrings (map marshalledBytes tuple)))%nat.
Proof.
  induction tuple as [|v tuple IH]; simpl; [lia|].
  rewrite string_length_app. pose proof (marshalledBytes_nonempty v). lia.
Qed.

Lemma unmarshalKey_step (fuel : nat) (keyBuf : string) :
  keyBuf ≠ "" →
  unmarshalKey (S fuel) keyBuf
  = match UnmarshalBytes keyBuf with
    | None => None
    | Some (v, tail) =>
        match unmarshalKey fuel tail with
        | Some vs => Some (v :: vs)
        | None => None
        end
    end.
Proof. destruct keyBuf; [contradiction | reflexivity]. Qed.

Lemma unmarshalKey_concat (tuple : list string) :
  ∀ fuel, (length tuple <= fuel)%nat →
    unmarshalKey fuel (concatStrings (map marshalledBytes tuple)) = Some tuple.
Proof.
  induction tuple as [|v tuple IH]; intros fuel Hfuel; simpl.
  - destruct fuel; reflexivity.
  - destruct fuel as [|fuel]; [simpl in Hfuel; lia|].
    rewrite unmarshalKey_step.
    + rewrite UnmarshalBytes_marshalled, IH by (simpl in Hfuel; lia). reflexivity.
    + intros Hk. apply (f_equal String.length) in Hk.
      rewrite string_length_app in Hk. pose proof (marshalledBytes_nonempty v).
      simpl in Hk. lia.
Qed.

(** A composite key decodes to the values it was built from. *)
Lemma decodeKey_marshalKey (tuple : list string) :
  decodeKey (length tuple) (marshalKey tuple) = Some tuple.
Proof.
  unfold decodeKey. rewrite marshalKey_concat.
  rewrite unmarshalKey_concat by apply concat_marshalled_length.
  rewrite Nat.eqb_refl. reflexivity.
Qed.

(** ** Result columns and the rows of a block *)

Lemma addValues_names (cols : list resultColumn) :
  ∀ values, length values = length cols →
    map rc_name (addValues cols values) = map rc_name cols.
Proof.
  induction cols as [|rc cols IH]; intros [|v values] Hlen; simpl in *; try reflexivity;
    try discriminate.
  unfold addValues in *. simpl. rewrite IH by lia. reflexivity.
Qed.

Lemma addValues_lengths (n : nat) (cols : list resultColumn) :
  ∀ values, length values = length cols →
    Forall (λ rc, length (rc_values rc) = n) cols →
    Forall (λ rc, length (rc_values rc) = S n) (addValues cols values).
Proof.
  induction cols as [|rc cols IH]; intros [|v values] Hlen Hall; simpl in *;
    try constructor; try discriminate.
  - simpl. rewrite length_app. apply Forall_cons in Hall as [Hrc Hrest]. simpl. lia.
  - apply IH; [lia|]. apply Forall_cons in Hall as [Hrc Hrest]. assumption.
Qed.

Lemma addValues_row_old (n i : nat) (cols : list resultColumn) :
  (i < n)%nat →
  ∀ values, length values = length cols →
    Forall (λ rc, length (rc_values rc) = n) cols →
    map (λ rc, default "" (rc_values rc !! i)) (addValues cols values)
    = map (λ rc, default "" (rc_values rc !! i)) cols.
Proof.
  intros Hi. induction cols as [|rc cols IH]; intros [|v values] Hlen Hall; simpl in *;
    try reflexivity; try discriminate.
  apply Forall_cons in Hall as [Hrc Hrest]. unfold addValues in *. simpl.
  rewrite lookup_app_l by lia. rewrite IH by (try lia; assumption). reflexivity.
Qed.

Lemma addValues_row_new (n : nat) (cols : list resultColumn) :
  ∀ values, length values = length cols →
    Forall (λ rc, length (rc_values rc) = n) cols →
    map (λ rc, default "" (rc_values rc !! n)) (addValues cols values) = values.
Proof.
  induction cols as [|rc cols IH]; intros [|v values] Hlen Hall; simpl in *;
    try reflexivity; try discriminate.
  apply Forall_cons in Hall as [Hrc Hrest]. unfold addValues in *. simpl.
  rewrite lookup_app_r by lia. rewrite Hrc, Nat.sub_diag. simpl.
  rewrite IH by (try lia; assumption). reflexivity.
Qed.

(** A value added to every column is a row added to the block. *)
Lemma rb_rows_addValues (n : nat) (cols : list resultColumn) (values : list string) :
  length values = length cols →
  Forall (λ rc, length (rc_values rc) = n) cols →
  rb_rows {| rb_rowsLen := S n; rb_rcs := addValues cols values |}
  = rb_rows {| rb_rowsLen := n; rb_rcs := cols |} ++ [values].
Proof.
  intros Hlen Hall. unfold rb_rows, rb_row. simpl rb_rowsLen. simpl rb_rcs.
  rewrite seq_S, map_app. simpl. f_equal.
  - apply map_ext_in. intros i Hi. apply in_seq in Hi.
    apply (addValues_row_old n); [lia | assumption | assumption].
  - f_equal. apply (addValues_row_new n); assumption.
Qed.

Lemma writtenRows_app (a b : list resultBlock) :
  writtenRows (a ++ b) = writtenRows a ++ writtenRows b.
Proof. unfold writtenRows. rewrite map_app, concat_app. reflexivity. Qed.

Lemma rb_rows_no_rows (cols : list resultColumn) :
  rb_rows {| rb_rowsLen := 0; rb_rcs := cols |} = [].
Proof. reflexivity. Qed.

(** ** Buckets of a list *)

Lemma concat_buckets_cons {A} (x : A) (i : nat) (F : nat → list A) (js : list nat) :
  NoDup js →
  concat (map (λ j, if decide (i = j) then x :: F j else F j) js)
  ≡ₚ (if decide (i ∈ js) then [x] else []) ++ concat (map F js).
Proof.
  induction 1 as [|j js Hj Hnd IH]; simpl.
  - destruct (decide (i ∈ [])) as [Hin|_]; [inversion Hin | reflexivity].
  - rewrite IH. clear IH.
    pose proof (elem_of_cons js i j) as Hiff.
    destruct (decide (i ∈ j :: js)) as [Hin|Hnin]; destruct (decide (i = j)) as [Heq|Hne];
      destruct (decide (i ∈ js)) as [Hin'|Hnin']; subst; simpl; try reflexivity;
      try (exfalso; tauto).
    symmetry. apply Permutation_middle.
Qed.

Lemma concat_buckets {A} (idx : A → nat) (n : nat) (l : list A) :
  Forall (λ x, (idx x < n)%nat) l →
  concat (map (λ j, filter (λ x, idx x = j) l) (seq 0 n)) ≡ₚ l.
Proof.
  induction 1 as [|x l Hx Hl IH]; simpl.
  - induction (seq 0 n) as [|j js IHjs]; simpl; [reflexivity | exact IHjs].
  - rewrite (map_ext _ (λ j, if decide (idx x = j)
                             then x :: filter (λ y, idx y = j) l
                             else filter (λ y, idx y = j) l)).
    2:{ intros j. rewrite filter_cons. destruct (decide (idx x = j)); reflexivity. }
    rewrite (concat_buckets_cons x (idx x) (λ j, filter (λ y, idx y = j) l))
      by apply NoDup_seq.
    rewrite decide_True by (apply elem_of_seq; lia). simpl.
    apply Permutation_skip. exact IH.
Qed.

Lemma concat_map_filter_nil {A B} (P : A → Prop) `{∀ x, Decision (P x)} (g : A → list B)
    (l : list A) :
  (∀ x, ¬ P x → g x = []) → concat (map g (filter P l)) = concat (map g l).
Proof.
  intros Hg. induction l as [|x l IH]; [reflexivity|].
  rewrite filter_cons. destruct (decide (P x)) as [Hp|Hp]; simpl.
  - rewrite IH. reflexivity.
  - rewrite IH, (Hg x Hp). reflexivity.
Qed.

Section EngineFacts.
Context `{API : StatsAPI}.

(** ** The routing of blocks and rows through the per-function filters *)

Lemma psg_updateStatsForAllRows_from_lookup fs bms br (ps : list statsProcessor) :
  ∀ i n j sfp, ps !! j = Some sfp →
    (psg_updateStatsForAllRows_from fs bms br i ps n).1 !! j
    = Some (sfp_updateStatsForAllRows sfp (blockFor fs bms br (i + j))).1.
Proof.
  induction ps as [|p ps IH]; intros i n j sfp Hj; [done|].
  simpl. fold (blockFor fs bms br i).
  destruct (sfp_updateStatsForAllRows p (blockFor fs bms br i)) as [p' d] eqn:Hp.
  destruct (psg_updateStatsForAllRows_from fs bms br (S i) ps (wrap64 (n + d)))
    as [rest n'] eqn:Hrest.
  destruct j as [|j]; simpl in *.
  - inversion Hj; subst. rewrite Nat.add_0_r, Hp. reflexivity.
  - specialize (IH (S i) (wrap64 (n + d)) j sfp Hj). rewrite Hrest in IH.
    simpl in IH. rewrite IH. replace (i + S j)%nat with (S (i + j)) by lia. reflexivity.
Qed.

Lemma psg_updateStatsForRow_from_lookup fs bms br rowIdx (ps : list statsProcessor) :
  ∀ i n j sfp, ps !! j = Some sfp →
    (psg_updateStatsForRow_from fs bms br rowIdx i ps n).1 !! j
    = Some (if rowSelected fs bms rowIdx (i + j)
            then (sfp_updateStatsForRow sfp br rowIdx).1 else sfp).
Proof.
  induction ps as [|p ps IH]; intros i n j sfp Hj; [done|].
  simpl.
  set (step := match iffAt fs i with
               | Some _ => _
               | None => _
               end).
  destruct step as [p' n1] eqn:Hstep.
  destruct (psg_updateStatsForRow_from fs bms br rowIdx (S i) ps n1) as [rest n'] eqn:Hrest.
  destruct j as [|j]; simpl in *.
  - inversion Hj; subst. rewrite Nat.add_0_r. f_equal.
    unfold rowSelected. subst step.
    destruct (iffAt fs i); [destruct (bm_isSetBit (bmAt bms i) rowIdx)|];
      destruct (sfp_updateStatsForRow sfp br rowIdx); inversion Hstep; reflexivity.
  - specialize (IH (S i) n1 j sfp Hj). rewrite Hrest in IH.
    simpl in IH. rewrite IH. replace (i + S j)%nat with (S (i + j)) by lia. reflexivity.
Qed.

Lemma applyPerFunctionFilters_from_lookup (br : blockResult) (fs : list pipeStatsFunc) :
  ∀ (bms : list bitmap) i fn flt,
    fs !! i = Some fn → iff fn = Some flt → (i < length bms)%nat →
    bmAt (applyPerFunctionFilters_from fs br bms) i
    = applyToBlockResult flt br (replicate (rowsLen br) true).
Proof.
  induction fs as [|g fs IH]; intros bms i fn flt Hfn Hflt Hlen; [done|].
  destruct bms as [|bm bms]; [simpl in Hlen; lia|].
  destruct i as [|i]; simpl in *.
  - inversion Hfn; subst. rewrite Hflt. unfold bmAt; simpl.
    unfold bm_setBits, bm_init. rewrite length_replicate. reflexivity.
  - unfold bmAt in *. simpl. apply (IH bms i fn flt); [done|done|lia].
Qed.

Lemma applyPerFunctionFilters_from_length (br : blockResult) (fs : list pipeStatsFunc) :
  ∀ bms : list bitmap, length (applyPerFunctionFilters_from fs br bms) = length bms.
Proof.
  induction fs as [|g fs IH]; intros [|bm bms]; simpl; try reflexivity.
  rewrite IH. reflexivity.
Qed.

(** C1. For every function of a group, [updateStatsForAllRows] gives the
    processor of a function without [iff] the block itself and the processor
    of a function with [iff] the projection of the block through the bitmap of
    that function, whose rows are the rows at the set bits; [updateStatsForRow]
    updates the processor of a function with [iff] only when the bit of the
    row is set in the bitmap of the function, and always for a function
    without [iff]; and the bitmap of a function with [iff] is what its filter
    leaves of the all-ones bitmap of the block. *)
Theorem iff_filter_selects_rows (sh : pipeStatsProcessorShard) (br : blockResult)
    (psg : pipeStatsGroup) (i : nat) (sfp : statsProcessor) :
  br_wf br →
  sfps psg !! i = Some sfp →
  let bms := shard_bms (shard_applyPerFunctionFilters br sh) in
  let projected := initFromFilterAllColumns br (bmAt bms i) in
  (psg_updateStatsForAllRows bms br psg).1.(sfps) !! i
    = Some (sfp_updateStatsForAllRows sfp
              (if iffAt (psg_funcs psg) i is Some _ then projected else br)).1
  ∧ br_rows projected = filterByBitmap (bmAt bms i) (br_rows br)
  ∧ (∀ rowIdx,
       (psg_updateStatsForRow bms br rowIdx psg).1.(sfps) !! i
       = Some (if iffAt (psg_funcs psg) i is Some _
               then if bm_isSetBit (bmAt bms i) rowIdx
                    then (sfp_updateStatsForRow sfp br rowIdx).1 else sfp
               else (sfp_updateStatsForRow sfp br rowIdx).1))
  ∧ (∀ fn flt, funcs (shard_ps sh) !! i = Some fn → iff fn = Some flt →
       (i < length (shard_bms sh))%nat →
       bmAt bms i = applyToBlockResult flt br (replicate (rowsLen br) true)).
Proof.
  intros Hwf Hi bms projected. repeat split.
  - unfold psg_updateStatsForAllRows.
    pose proof (psg_updateStatsForAllRows_from_lookup (psg_funcs psg) bms br (sfps psg)
                  0 0 i sfp Hi) as H.
    destruct (psg_updateStatsForAllRows_from (psg_funcs psg) bms br 0 (sfps psg) 0)
      as [ps n]. simpl in *. rewrite H. unfold blockFor.
    destruct (iffAt (psg_funcs psg) i); reflexivity.
  - apply br_rows_initFromFilterAllColumns. exact Hwf.
  - intros rowIdx. unfold psg_updateStatsForRow.
    pose proof (psg_updateStatsForRow_from_lookup (psg_funcs psg) bms br rowIdx (sfps psg)
                  0 0 i sfp Hi) as H.
    destruct (psg_updateStatsForRow_from (psg_funcs psg) bms br rowIdx 0 (sfps psg) 0)
      as [ps n]. simpl in *. rewrite H. unfold rowSelected.
    destruct (iffAt (psg_funcs psg) i); reflexivity.
  - intros fn flt Hfn Hflt Hlen. subst bms. simpl.
    apply (applyPerFunctionFilters_from_lookup br _ _ i fn flt); assumption.
Qed.

(** ** The budget protocol of [writeBlock] *)

Lemma chunk_value : stateSizeBudgetChunk = 1048576.
Proof. reflexivity. Qed.

Lemma wrap64_id (z : Z) : int64_range z → wrap64 z = z.
Proof. unfold int64_range, wrap64. intros H. rewrite Z.mod_small; lia. Qed.

Lemma wrap64_range (z : Z) : int64_range (wrap64 z).
Proof.
  unfold int64_range, wrap64.
  pose proof (Z.mod_pos_bound (z + 2 ^ 63) (2 ^ 64) ltac:(lia)). lia.
Qed.

(** In the branch [remaining < 0] the test [remaining+stateSizeBudgetChunk >= 0]
    of the source reads the value the global counter had before the
    subtraction. *)
Lemma cancel_test_reads_previous (global : Z) :
  int64_range global →
  wrap64 (global - stateSizeBudgetChunk) < 0 →
  wrap64 (global - stateSizeBudgetChunk) = global - stateSizeBudgetChunk
  ∧ wrap64 (wrap64 (global - stateSizeBudgetChunk) + stateSizeBudgetChunk) = global.
Proof.
  intros Hr Hneg. rewrite chunk_value in *. unfold int64_range in Hr.
  assert (Hlo : - 2 ^ 63 <= global - 1048576).
  { destruct (Z_le_gt_dec (- 2 ^ 63) (global - 1048576)) as [|Hgt]; [assumption|].
    exfalso. unfold wrap64 in Hneg.
    replace (global - 1048576 + 2 ^ 63) with (global - 1048576 + 2 ^ 64 + (-1) * 2 ^ 64 + 2 ^ 63)
      in Hneg by lia.
    replace (global - 1048576 + 2 ^ 64 + (-1) * 2 ^ 64 + 2 ^ 63)
      with (global - 1048576 + 2 ^ 64 + 2 ^ 63 + (-1) * 2 ^ 64) in Hneg by lia.
    rewrite Z.mod_add in Hneg by lia.
    rewrite Z.mod_small in Hneg; lia. }
  rewrite (wrap64_id (global - 1048576)) by (unfold int64_range; lia).
  split; [reflexivity|].
  replace (global - 1048576 + 1048576) with global by lia.
  apply wrap64_id. exact Hr.
Qed.

Lemma stealBudget_ready (global local : Z) :
  0 <= local → stealBudget global local = BudgetReady global local.
Proof.
  intros H. simp stealBudget. destruct (decide (local < 0)); [lia|]. reflexivity.
Qed.

Lemma stealBudget_exhausted (global local : Z) :
  local < 0 → wrap64 (global - stateSizeBudgetChunk) < 0 →
  stealBudget global local
  = BudgetExhausted (wrap64 (global - stateSizeBudgetChunk)) local
      (bool_decide (0 <= wrap64 (wrap64 (global - stateSizeBudgetChunk) + stateSizeBudgetChunk))).
Proof.
  intros Hl Hg. simp stealBudget. destruct (decide (local < 0)); [|lia]. simpl.
  destruct (decide (wrap64 (global - stateSizeBudgetChunk) < 0)); [|lia]. reflexivity.
Qed.

Lemma stealBudget_repeat (global local : Z) :
  local < 0 → 0 <= wrap64 (global - stateSizeBudgetChunk) →
  stealBudget global local
  = stealBudget (wrap64 (global - stateSizeBudgetChunk)) (wrap64 (local + stateSizeBudgetChunk)).
Proof.
  intros Hl Hg. rewrite (stealBudget_equation_1 global local).
  destruct (decide (local < 0)); [|lia]. simpl.
  destruct (decide (wrap64 (global - stateSizeBudgetChunk) < 0)); [lia|]. reflexivity.
Qed.

(** The loop ends with the local counter at zero or above, or with the
    global counter below zero and the local counter still below zero. *)
Lemma stealBudget_end (global local : Z) :
  match stealBudget global local with
  | BudgetReady _ l => 0 <= l
  | BudgetExhausted g l _ => g < 0 ∧ l < 0
  end.
Proof.
  funelim (stealBudget global local).
  - lia.
  - lia.
  - assumption.
Qed.

Lemma shard_with_budget_same (sh : pipeStatsProcessorShard) :
  shard_with_budget (shard_stateSizeBudget sh) sh = sh.
Proof. destruct sh; reflexivity. Qed.

Lemma shard_with_budget_twice (a b : Z) (sh : pipeStatsProcessorShard) :
  shard_with_budget a (shard_with_budget b sh) = shard_with_budget a sh.
Proof. reflexivity. Qed.

Lemma psp_writeBlock_unfold (w : nat) (br : blockResult) (psp : pipeStatsProcessor)
    (shard : pipeStatsProcessorShard) :
  rowsLen br ≠ 0%nat → shards psp !! w = Some shard →
  psp_writeBlock w br psp
  = match stealBudget (psp_stateSizeBudget psp) (shard_stateSizeBudget shard) with
    | BudgetExhausted global local cancelled =>
        psp_with_shard w (shard_with_budget local shard) global
          (if cancelled then S (cancelCalls psp) else cancelCalls psp) psp
    | BudgetReady global local =>
        psp_with_shard w (shard_writeBlock br (shard_with_budget local shard))
          global (cancelCalls psp) psp
    end.
Proof.
  intros Hrows Hw. unfold psp_writeBlock.
  destruct (Nat.eqb_spec (rowsLen br) 0); [contradiction|]. rewrite Hw. reflexivity.
Qed.

(** C2. A call of [writeBlock] on a block with rows, by cases on the local
    counter of the shard and on what the subtraction of one chunk leaves of
    the global counter.  With the local counter below zero and the global
    counter below zero after the subtraction, the call returns with the
    shards as they were, and [cancel()] is called exactly when the global
    counter was at zero or above before the subtraction.  With the local
    counter below zero and the global counter at zero or above after the
    subtraction, the call goes on as a call from the state where the chunk
    has moved from the global to the local counter.  With the local counter
    at zero or above, the shard processes the block and the global counter
    and [cancel()] are left alone.  Over the whole call, the group maps of
    the shards change only by the shard processing the block with a local
    counter at zero or above. *)
Theorem writeBlock_budget_protocol (w : nat) (br : blockResult) (psp : pipeStatsProcessor)
    (shard : pipeStatsProcessorShard) :
  rowsLen br ≠ 0%nat →
  shards psp !! w = Some shard →
  int64_range (psp_stateSizeBudget psp) →
  int64_range (shard_stateSizeBudget shard) →
  let global := psp_stateSizeBudget psp in
  let local := shard_stateSizeBudget shard in
  let remaining := wrap64 (global - stateSizeBudgetChunk) in
  (local < 0 → remaining < 0 →
     remaining = global - stateSizeBudgetChunk
     ∧ psp_writeBlock w br psp
       = {| psp_ps := psp_ps psp;
            stopCh_closed := stopCh_closed psp;
            cancelCalls := if bool_decide (0 <= global) then S (cancelCalls psp)
                           else cancelCalls psp;
            shards := shards psp;
            maxStateSize := maxStateSize psp;
            psp_stateSizeBudget := remaining |})
  ∧ (local < 0 → 0 <= remaining →
     psp_writeBlock w br psp
     = psp_writeBlock w br
         (psp_with_shard w (shard_with_budget (local + stateSizeBudgetChunk) shard)
            remaining (cancelCalls psp) psp))
  ∧ (0 <= local →
     psp_writeBlock w br psp
     = psp_with_shard w (shard_writeBlock br shard) global (cancelCalls psp) psp)
  ∧ match stealBudget global local with
    | BudgetExhausted _ _ _ =>
        shard_m <$> shards (psp_writeBlock w br psp) = shard_m <$> shards psp
    | BudgetReady _ local' =>
        0 <= local'
        ∧ shards (psp_writeBlock w br psp)
          = <[w := shard_writeBlock br (shard_with_budget local' shard)]> (shards psp)
    end.
Proof.
  intros Hrows Hw Hg Hl global local remaining.
  rewrite (psp_writeBlock_unfold w br psp shard Hrows Hw). fold global local.
  repeat split.
  - apply (cancel_test_reads_previous global Hg). assumption.
  - rewrite stealBudget_exhausted by assumption. fold remaining.
    destruct (cancel_test_reads_previous global Hg H0) as [_ Hprev]. fold remaining in Hprev.
    rewrite Hprev. unfold psp_with_shard. subst local.
    rewrite shard_with_budget_same, (list_insert_id _ _ _ Hw). reflexivity.
  - intros Hneg Hpos.
    assert (Hlocal : wrap64 (local + stateSizeBudgetChunk) = local + stateSizeBudgetChunk).
    { apply wrap64_id. unfold int64_range in *. rewrite chunk_value. subst local. lia. }
    rewrite (psp_writeBlock_unfold w br _
               (shard_with_budget (local + stateSizeBudgetChunk) shard) Hrows).
    2:{ simpl. apply list_lookup_insert_eq. apply lookup_lt_Some in Hw. exact Hw. }
    simpl. rewrite stealBudget_repeat by assumption. fold remaining. rewrite Hlocal.
    destruct (stealBudget remaining (local + stateSizeBudgetChunk));
      unfold psp_with_shard; simpl; rewrite list_insert_insert_eq; reflexivity.
  - intros Hpos. rewrite stealBudget_ready by assumption.
    subst local. rewrite shard_with_budget_same. reflexivity.
  - pose proof (stealBudget_end global local) as Hend.
    destruct (stealBudget global local) as [g l c | g l]; simpl.
    + rewrite list_fmap_insert. simpl. apply list_insert_id.
      rewrite list_lookup_fmap, Hw. reflexivity.
    + split; [exact Hend | reflexivity].
Qed.

(** C9. [writeBlock] on a block without rows changes nothing: the shards
    with their group maps and local counters, the global counter and the
    count of the calls of [cancel()] are as before. *)
Theorem writeBlock_zero_rows_noop (workerID : nat) (br : blockResult)
    (psp : pipeStatsProcessor) :
  rowsLen br = 0%nat → psp_writeBlock workerID br psp = psp.
Proof.
  intros Hrows. unfold psp_writeBlock. rewrite Hrows. reflexivity.
Qed.

(** ** The budget error of [flush] *)

(** C3. With the global counter at zero or below, [flush] returns the error
    whose text holds the string form of the pipe and [maxStateSize/(1<<20)],
    and no writer gives a block to the next pipe. *)
Theorem flush_budget_error (psp : pipeStatsProcessor) :
  psp_stateSizeBudget psp <= 0 →
  funcs (psp_ps psp) ≠ [] →
  ∃ pipeString,
    ps_String (psp_ps psp) = Some pipeString
    ∧ psp_flush psp
      = (FlushError ("cannot calculate [" +:+ pipeString +:+
                     "], since it requires more than " +:+
                     pretty (Z.quot (maxStateSize psp) (2 ^ 20)) +:+ "MB of memory"),
         []).
Proof.
  intros Hbudget Hfuncs.
  unfold psp_flush, psp_flushWith, budgetError, ps_String.
  destruct (Z.leb_spec (psp_stateSizeBudget psp) 0) as [_|Hgt]; [|lia].
  destruct (funcs (psp_ps psp)) as [|fn fs] eqn:Hfs; [contradiction|].
  eexists. split; reflexivity.
Qed.

(** ** The group map *)

Lemma psm_lookup_store (psm : pipeStatsGroupMap) (r r' : groupRef) (psg : pipeStatsGroup) :
  psm_lookup (psm_store psm r psg) r'
  = if decide (r = r') then Some psg else psm_lookup psm r'.
Proof.
  destruct (decide (r = r')) as [Heq|Hne].
  - subst r'. destruct r; simpl; apply lookup_insert_eq.
  - destruct r, r'; simpl; try reflexivity; apply lookup_insert_ne; congruence.
Qed.

Lemma psm_lookup_store_eq (psm : pipeStatsGroupMap) (r : groupRef) (psg : pipeStatsGroup) :
  psm_lookup (psm_store psm r psg) r = Some psg.
Proof. rewrite psm_lookup_store. case_decide; [reflexivity | contradiction]. Qed.

Lemma psm_lookup_store_ne (psm : pipeStatsGroupMap) (r r' : groupRef) (psg : pipeStatsGroup) :
  r ≠ r' → psm_lookup (psm_store psm r psg) r' = psm_lookup psm r'.
Proof. intros Hne. rewrite psm_lookup_store. case_decide; [contradiction | reflexivity]. Qed.

Lemma newStatsProcessors_from_fst (fs : list pipeStatsFunc) :
  ∀ budget, (newStatsProcessors_from fs budget).1
            = map (λ fn, (newStatsProcessor (f fn)).1) fs.
Proof.
  induction fs as [|fn fs IH]; intros budget; simpl; [reflexivity|].
  destruct (newStatsProcessor (f fn)) as [sfp bytes].
  specialize (IH (wrap64 (budget - bytes))).
  destruct (newStatsProcessors_from fs (wrap64 (budget - bytes))) as [rest b'].
  simpl in *. rewrite IH. reflexivity.
Qed.

(** A new group holds a new processor for every function of the pipe. *)
Lemma psm_newPipeStatsGroup_fst (ps : pipeStats) (budget : Z) :
  (psm_newPipeStatsGroup ps budget).1
  = {| psg_funcs := funcs ps;
       sfps := map (λ fn, (newStatsProcessor (f fn)).1) (funcs ps) |}.
Proof.
  unfold psm_newPipeStatsGroup.
  pose proof (newStatsProcessors_from_fst (funcs ps) budget) as H.
  destruct (newStatsProcessors_from (funcs ps) budget) as [ps' b']. simpl in *.
  rewrite H. reflexivity.
Qed.

Lemma psm_newPipeStatsGroup_wf (ps : pipeStats) (budget : Z) :
  group_wf ps (psm_newPipeStatsGroup ps budget).1.
Proof. rewrite psm_newPipeStatsGroup_fst. unfold group_wf. simpl. apply length_map. Qed.

Lemma psm_addGroup_m (r : groupRef) (keyBytes : Z) (sh : pipeStatsProcessorShard) :
  shard_m (psm_addGroup r keyBytes sh)
  = psm_store (shard_m sh) r
      (psm_newPipeStatsGroup (shard_ps sh) (shard_stateSizeBudget sh)).1.
Proof.
  unfold psm_addGroup.
  destruct (psm_newPipeStatsGroup (shard_ps sh) (shard_stateSizeBudget sh)); reflexivity.
Qed.

Lemma psm_addGroup_ps (r : groupRef) (keyBytes : Z) (sh : pipeStatsProcessorShard) :
  shard_ps (psm_addGroup r keyBytes sh) = shard_ps sh
  ∧ shard_bms (psm_addGroup r keyBytes sh) = shard_bms sh.
Proof.
  unfold psm_addGroup.
  destruct (psm_newPipeStatsGroup (shard_ps sh) (shard_stateSizeBudget sh)); split; reflexivity.
Qed.

Lemma psm_getPipeStatsGroupUint64_getAt (n : Z) (sh : pipeStatsProcessorShard) :
  psm_getPipeStatsGroupUint64 n sh = psm_getAt (RefU64 n) 8 sh.
Proof. reflexivity. Qed.

Lemma psm_getPipeStatsGroupNegativeInt64_getAt (n : Z) (sh : pipeStatsProcessorShard) :
  psm_getPipeStatsGroupNegativeInt64 n sh = psm_getAt (RefNegative64 (to_uint64 n)) 8 sh.
Proof. reflexivity. Qed.

Lemma psm_getPipeStatsGroupString_getAt (key : string) (sh : pipeStatsProcessorShard) :
  psm_getPipeStatsGroupString key sh
  = psm_getAt (RefString key) (Z.of_nat (String.length key) + 16) sh.
Proof. reflexivity. Qed.

Lemma tryParseInt64_unsigned (key : string) :
  tryParseUint64 key = None → startsWithMinus key = false → tryParseInt64 key = None.
Proof.
  intros Hu Hm. destruct key as [|a rest]; [reflexivity|].
  unfold tryParseInt64. simpl in Hm. rewrite Hm, Hu. reflexivity.
Qed.

(** [getPipeStatsGroupGeneric] looks the group up at the place [keySubMap]
    names. *)
Lemma psm_getPipeStatsGroupGeneric_getAt (key : string) (sh : pipeStatsProcessorShard) :
  ∃ keyBytes, psm_getPipeStatsGroupGeneric key sh = psm_getAt (keySubMap key) keyBytes sh.
Proof.
  unfold psm_getPipeStatsGroupGeneric, keySubMap.
  destruct (tryParseUint64 key) as [n|] eqn:Hu; [exists 8; reflexivity|].
  destruct (startsWithMinus key) eqn:Hm.
  - destruct (tryParseInt64 key); eexists; reflexivity.
  - rewrite (tryParseInt64_unsigned key Hu Hm). eexists; reflexivity.
Qed.

Lemma psm_getPipeStatsGroupInt64_getAt (n : Z) (sh : pipeStatsProcessorShard) :
  psm_getPipeStatsGroupInt64 n sh
  = psm_getAt (if 0 <=? n then RefU64 (to_uint64 n) else RefNegative64 (to_uint64 n)) 8 sh.
Proof. unfold psm_getPipeStatsGroupInt64. destruct (0 <=? n); reflexivity. Qed.

(** What a lookup does to the map: the group is at the place afterwards, and
    every other place of every sub-map is as before. *)
Lemma psm_getAt_spec (r : groupRef) (keyBytes : Z) (sh : pipeStatsProcessorShard) :
  (psm_getAt r keyBytes sh).2 = r
  ∧ is_Some (psm_lookup (shard_m (psm_getAt r keyBytes sh).1) r)
  ∧ (∀ r', r' ≠ r →
       psm_lookup (shard_m (psm_getAt r keyBytes sh).1) r' = psm_lookup (shard_m sh) r')
  ∧ (∀ psg, psm_lookup (shard_m sh) r = Some psg →
       psm_lookup (shard_m (psm_getAt r keyBytes sh).1) r = Some psg)
  ∧ shard_ps (psm_getAt r keyBytes sh).1 = shard_ps sh
  ∧ shard_bms (psm_getAt r keyBytes sh).1 = shard_bms sh.
Proof.
  unfold psm_getAt. destruct (psm_lookup (shard_m sh) r) as [psg|] eqn:Hr; simpl.
  - rewrite Hr. repeat split; eauto.
  - rewrite psm_addGroup_m, psm_lookup_store_eq.
    destruct (psm_addGroup_ps r keyBytes sh) as [Hps Hbms].
    repeat split; eauto.
    + intros r' Hne. apply psm_lookup_store_ne. congruence.
    + intros psg Hpsg. discriminate.
Qed.

(** ** What the write path keeps true of the shards *)

Lemma psm_wf_store (ps : pipeStats) (psm : pipeStatsGroupMap) (r : groupRef)
    (psg : pipeStatsGroup) :
  psm_wf ps psm → group_wf ps psg → ref_ok ps r → psm_wf ps (psm_store psm r psg).
Proof.
  intros Hwf Hg Hr r' psg' Hlook. rewrite psm_lookup_store in Hlook.
  destruct (decide (r = r')) as [->|Hne]; [|exact (Hwf r' psg' Hlook)].
  inversion Hlook; subst. split; assumption.
Qed.

Lemma psm_getAt_wf (ps : pipeStats) (r : groupRef) (keyBytes : Z)
    (sh : pipeStatsProcessorShard) :
  shard_wf ps sh → ref_ok ps r → shard_wf ps (psm_getAt r keyBytes sh).1.
Proof.
  intros [Hps Hwf] Hr. unfold psm_getAt.
  destruct (psm_lookup (shard_m sh) r) eqn:Hlook; simpl; [split; assumption|].
  destruct (psm_addGroup_ps r keyBytes sh) as [Hps' _].
  split; [congruence|]. rewrite psm_addGroup_m. apply psm_wf_store; try assumption.
  rewrite Hps. apply psm_newPipeStatsGroup_wf.
Qed.

Lemma psg_updateStatsForAllRows_from_length fs bms br (ps : list statsProcessor) :
  ∀ i n, length (psg_updateStatsForAllRows_from fs bms br i ps n).1 = length ps.
Proof.
  induction ps as [|p ps IH]; intros i n; simpl; [reflexivity|].
  destruct (sfp_updateStatsForAllRows p _) as [p' d].
  specialize (IH (S i) (wrap64 (n + d))).
  destruct (psg_updateStatsForAllRows_from fs bms br (S i) ps (wrap64 (n + d))).
  simpl in *. rewrite IH. reflexivity.
Qed.

Lemma psg_updateStatsForRow_from_length fs bms br rowIdx (ps : list statsProcessor) :
  ∀ i n, length (psg_updateStatsForRow_from fs bms br rowIdx i ps n).1 = length ps.
Proof.
  induction ps as [|p ps IH]; intros i n; simpl; [reflexivity|].
  destruct (match iffAt fs i with Some _ => _ | None => _ end) as [p' n1].
  specialize (IH (S i) n1).
  destruct (psg_updateStatsForRow_from fs bms br rowIdx (S i) ps n1).
  simpl in *. rewrite IH. reflexivity.
Qed.

Lemma psg_updateStatsForAllRows_wf (ps : pipeStats) bms br (psg : pipeStatsGroup) :
  group_wf ps psg → group_wf ps (psg_updateStatsForAllRows bms br psg).1.
Proof.
  unfold group_wf, psg_updateStatsForAllRows. intros H.
  pose proof (psg_updateStatsForAllRows_from_length (psg_funcs psg) bms br (sfps psg) 0 0) as Hl.
  destruct (psg_updateStatsForAllRows_from (psg_funcs psg) bms br 0 (sfps psg) 0).
  simpl in *. congruence.
Qed.

Lemma psg_updateStatsForRow_wf (ps : pipeStats) bms br i (psg : pipeStatsGroup) :
  group_wf ps psg → group_wf ps (psg_updateStatsForRow bms br i psg).1.
Proof.
  unfold group_wf, psg_updateStatsForRow. intros H.
  pose proof (psg_updateStatsForRow_from_length (psg_funcs psg) bms br i (sfps psg) 0 0) as Hl.
  destruct (psg_updateStatsForRow_from (psg_funcs psg) bms br i 0 (sfps psg) 0).
  simpl in *. congruence.
Qed.

Lemma shard_updateStatsForAllRows_wf (ps : pipeStats) (r : groupRef) (br : blockResult)
    (sh : pipeStatsProcessorShard) :
  shard_wf ps sh → shard_wf ps (shard_updateStatsForAllRows r br sh).
Proof.
  intros [Hps Hwf]. unfold shard_updateStatsForAllRows.
  destruct (psm_lookup (shard_m sh) r) as [psg|] eqn:Hlook; [|split; assumption].
  pose proof (psg_updateStatsForAllRows_wf ps (shard_bms sh) br psg) as Hg.
  destruct (psg_updateStatsForAllRows (shard_bms sh) br psg) as [psg' n]. simpl in *.
  destruct (Hwf r psg Hlook) as [Hgw Hr].
  split; [exact Hps|]. simpl. apply psm_wf_store; auto.
Qed.

Lemma shard_updateStatsForRow_wf (ps : pipeStats) (r : groupRef) (br : blockResult)
    (i : nat) (sh : pipeStatsProcessorShard) :
  shard_wf ps sh → shard_wf ps (shard_updateStatsForRow r br i sh).
Proof.
  intros [Hps Hwf]. unfold shard_updateStatsForRow.
  destruct (psm_lookup (shard_m sh) r) as [psg|] eqn:Hlook; [|split; assumption].
  pose proof (psg_updateStatsForRow_wf ps (shard_bms sh) br i psg) as Hg.
  destruct (psg_updateStatsForRow (shard_bms sh) br i psg) as [psg' n]. simpl in *.
  destruct (Hwf r psg Hlook) as [Hgw Hr].
  split; [exact Hps|]. simpl. apply psm_wf_store; auto.
Qed.

Lemma shard_updateRuns_wf {K : Type} `{EqDecision K} (ps : pipeStats)
    (getGroup : K → pipeStatsProcessorShard → pipeStatsProcessorShard * groupRef)
    (br : blockResult) (values : list K) :
  (∀ v sh, shard_wf ps sh → shard_wf ps (getGroup v sh).1) →
  ∀ i prev sh, shard_wf ps sh → shard_wf ps (shard_updateRuns getGroup br values i prev sh).
Proof.
  intros Hget. induction values as [|v values IH]; intros i prev sh Hwf; simpl; [exact Hwf|].
  destruct prev as [[pv psg]|].
  - destruct (decide (pv = v)).
    + apply IH. apply shard_updateStatsForRow_wf. exact Hwf.
    + specialize (Hget v sh Hwf). destruct (getGroup v sh) as [sh1 r1].
      apply IH. apply shard_updateStatsForRow_wf. exact Hget.
  - specialize (Hget v sh Hwf). destruct (getGroup v sh) as [sh1 r1].
    apply IH. apply shard_updateStatsForRow_wf. exact Hget.
Qed.

Lemma ref_ok_keySubMap (ps : pipeStats) (key : string) :
  length (byFields ps) = 1%nat → ref_ok ps (keySubMap key).
Proof.
  intros Hone. unfold ref_ok, keySubMap. rewrite decide_True by exact Hone.
  destruct (tryParseUint64 key) eqn:Hu; [exact I|].
  destruct (tryParseInt64 key) eqn:Hi; [|split; assumption].
  destruct (startsWithMinus key) eqn:Hm; [exact I|].
  rewrite (tryParseInt64_unsigned key Hu Hm) in Hi. discriminate.
Qed.

Lemma ref_ok_integer (ps : pipeStats) (r : groupRef) :
  length (byFields ps) = 1%nat → (∀ key, r ≠ RefString key) → ref_ok ps r.
Proof.
  intros Hone Hr. unfold ref_ok. rewrite decide_True by exact Hone.
  destruct r; try exact I. destruct (Hr key eq_refl).
Qed.

Lemma ref_ok_marshalKey (ps : pipeStats) (tuple : list string) :
  length (byFields ps) ≠ 1%nat → length tuple = length (byFields ps) →
  ref_ok ps (RefString (marshalKey tuple)).
Proof.
  intros Hne Hlen. unfold ref_ok. rewrite decide_False by exact Hne.
  rewrite <- Hlen, decodeKey_marshalKey. eexists; reflexivity.
Qed.

Lemma psm_getPipeStatsGroupGeneric_wf (ps : pipeStats) (key : string)
    (sh : pipeStatsProcessorShard) :
  length (byFields ps) = 1%nat → shard_wf ps sh →
  shard_wf ps (psm_getPipeStatsGroupGeneric key sh).1.
Proof.
  intros Hone Hwf. destruct (psm_getPipeStatsGroupGeneric_getAt key sh) as [kb ->].
  apply psm_getAt_wf; [exact Hwf | apply ref_ok_keySubMap; exact Hone].
Qed.

Lemma shard_updateStatsSingleColumn_wf (ps : pipeStats) (br : blockResult)
    (bf : byStatsField) (sh : pipeStatsProcessorShard) :
  length (byFields ps) = 1%nat → shard_wf ps sh →
  shard_wf ps (shard_updateStatsSingleColumn br bf sh).
Proof.
  intros Hone Hwf. unfold shard_updateStatsSingleColumn.
  assert (Hgen : ∀ vs, shard_wf ps (shard_updateRuns psm_getPipeStatsGroupGeneric br vs 0 None sh)).
  { intros vs. apply shard_updateRuns_wf; [|exact Hwf].
    intros v sh0. apply psm_getPipeStatsGroupGeneric_wf. exact Hone. }
  assert (Htyped : ∀ (unmarshal : string → Z) vs,
            shard_wf ps (shard_updateRuns (λ v, psm_getPipeStatsGroupUint64 (unmarshal v))
                           br vs 0 None sh)).
  { intros unmarshal vs. apply shard_updateRuns_wf; [|exact Hwf].
    intros v sh0 Hsh0. rewrite psm_getPipeStatsGroupUint64_getAt.
    apply psm_getAt_wf; [exact Hsh0 | apply ref_ok_integer; [exact Hone | discriminate]]. }
  destruct (c_isConst (getColumnByName br (bf_name bf))).
  - pose proof (psm_getPipeStatsGroupGeneric_wf ps
                  (getBucketedValue br
                     (default "" (c_valuesEncoded (getColumnByName br (bf_name bf)) !! 0%nat)) bf)
                  sh Hone Hwf) as Hg.
    destruct (psm_getPipeStatsGroupGeneric _ sh) as [sh1 psg].
    apply shard_updateStatsForAllRows_wf. exact Hg.
  - destruct (hasBucketConfig bf); [apply Hgen|].
    destruct (c_valueType (getColumnByName br (bf_name bf)));
      try apply Hgen; try apply Htyped.
    apply shard_updateRuns_wf; [|exact Hwf].
    intros v sh0 Hsh0. rewrite psm_getPipeStatsGroupInt64_getAt.
    apply psm_getAt_wf; [exact Hsh0|].
    destruct (0 <=? unmarshalInt64 v); (apply ref_ok_integer; [exact Hone | discriminate]).
Qed.

Lemma shard_writeBlock_wf (ps : pipeStats) (br : blockResult) (sh : pipeStatsProcessorShard) :
  shard_wf ps sh → shard_wf ps (shard_writeBlock br sh).
Proof.
  intros [Hps Hwf]. unfold shard_writeBlock.
  assert (Hf : shard_wf ps (shard_applyPerFunctionFilters br sh)) by (split; assumption).
  revert Hf. generalize (shard_applyPerFunctionFilters br sh). intros sh1 Hsh1.
  rewrite Hps.
  destruct (byFields ps) as [|bf [|bf2 byFs]] eqn:HbyFs.
  - rewrite psm_getPipeStatsGroupString_getAt.
    pose proof (psm_getAt_wf ps (RefString "") (Z.of_nat (String.length "") + 16) sh1 Hsh1) as Hg.
    destruct (psm_getAt (RefString "") _ sh1) as [sh2 psg].
    apply shard_updateStatsForAllRows_wf. apply Hg.
    unfold ref_ok. rewrite HbyFs. simpl. eexists; reflexivity.
  - apply shard_updateStatsSingleColumn_wf; [rewrite HbyFs; reflexivity | exact Hsh1].
  - set (columnValues := map _ (bf :: bf2 :: byFs)).
    assert (Hlen : ∀ i, length (rowTuple columnValues i) = length (byFields ps)).
    { intros i. unfold rowTuple, columnValues. rewrite !length_map, HbyFs. reflexivity. }
    assert (Hne : length (byFields ps) ≠ 1%nat) by (rewrite HbyFs; simpl; lia).
    assert (Hget : ∀ tuple sh0, length tuple = length (byFields ps) → shard_wf ps sh0 →
                     shard_wf ps (psm_getPipeStatsGroupString (marshalKey tuple) sh0).1).
    { intros tuple sh0 Ht Hsh0. rewrite psm_getPipeStatsGroupString_getAt.
      apply psm_getAt_wf; [exact Hsh0 | apply ref_ok_marshalKey; assumption]. }
    destruct (forallb areConstValues columnValues).
    + specialize (Hget (rowTuple columnValues 0) sh1 (Hlen 0%nat) Hsh1).
      destruct (psm_getPipeStatsGroupString _ sh1) as [sh2 psg].
      apply shard_updateStatsForAllRows_wf. exact Hget.
    + generalize (seq 0 (rowsLen br)). intros rows.
      assert (Hall : Forall (λ t, length t = length (byFields ps)) (map (rowTuple columnValues) rows)).
      { apply Forall_forall. intros t Ht. apply list_elem_of_In, in_map_iff in Ht.
        destruct Ht as (i & <- & _). apply Hlen. }
      revert Hall. generalize (map (rowTuple columnValues) rows). intros tuples Hall.
      generalize (@None (list string * groupRef)). generalize 0%nat. revert sh1 Hsh1.
      induction Hall as [|t tuples Ht Hall IH]; intros sh1 Hsh1 i prev; simpl; [exact Hsh1|].
      destruct prev as [[pv psg]|].
      * destruct (decide (pv = t)).
        -- apply IH. apply shard_updateStatsForRow_wf. exact Hsh1.
        -- specialize (Hget t sh1 Ht Hsh1).
           destruct (psm_getPipeStatsGroupString (marshalKey t) sh1) as [sh2 r2].
           apply IH. apply shard_updateStatsForRow_wf. exact Hget.
      * specialize (Hget t sh1 Ht Hsh1).
        destruct (psm_getPipeStatsGroupString (marshalKey t) sh1) as [sh2 r2].
        apply IH. apply shard_updateStatsForRow_wf. exact Hget.
Qed.

Lemma psm_init_wf (ps : pipeStats) : psm_wf ps psm_init.
Proof. intros r psg H. destruct r; simpl in H; rewrite lookup_empty in H; discriminate. Qed.

Lemma newPipeProcessor_wf (ps : pipeStats) (workersCount : nat) (stopped : bool) (maxSize : Z) :
  psp_wf (newPipeProcessor ps workersCount stopped maxSize).
Proof.
  unfold psp_wf, newPipeProcessor. simpl. apply Forall_replicate.
  split; [reflexivity | apply psm_init_wf].
Qed.

Lemma psp_writeBlock_ps (workerID : nat) (br : blockResult) (psp : pipeStatsProcessor) :
  psp_ps (psp_writeBlock workerID br psp) = psp_ps psp.
Proof.
  unfold psp_writeBlock. destruct (Nat.eqb (rowsLen br) 0); [reflexivity|].
  destruct (shards psp !! workerID); [|reflexivity].
  destruct (stealBudget _ _); reflexivity.
Qed.

Lemma psp_writeBlock_wf (workerID : nat) (br : blockResult) (psp : pipeStatsProcessor) :
  psp_wf psp → psp_wf (psp_writeBlock workerID br psp).
Proof.
  intros Hwf. unfold psp_wf. rewrite psp_writeBlock_ps.
  unfold psp_writeBlock. destruct (Nat.eqb (rowsLen br) 0); [exact Hwf|].
  destruct (shards psp !! workerID) as [shard|] eqn:Hw; [|exact Hwf].
  assert (Hshard : shard_wf (psp_ps psp) shard).
  { unfold psp_wf in Hwf. rewrite Forall_lookup in Hwf. exact (Hwf workerID shard Hw). }
  destruct (stealBudget _ _) as [g l c | g l]; simpl; apply Forall_insert; try exact Hwf.
  - destruct Hshard. split; assumption.
  - apply shard_writeBlock_wf. destruct Hshard. split; assumption.
Qed.

(** Every state of a run keeps the shards well-formed. *)
Lemma reachable_wf (ps : pipeStats) (psp : pipeStatsProcessor) :
  reachable ps psp → psp_ps psp = ps ∧ psp_wf psp.
Proof.
  induction 1 as [n maxSize | psp w br Hreach [Hps Hwf] | psp Hreach [Hps Hwf]].
  - split; [reflexivity | apply newPipeProcessor_wf].
  - split; [rewrite psp_writeBlock_ps; exact Hps | apply psp_writeBlock_wf; exact Hwf].
  - split; [exact Hps | exact Hwf].
Qed.

(** C6. For the grouping by a single by-field: the lookup of a derived key
    value returns the group at the place the rule of the three sub-maps
    names, the group is stored there, and every other place of every sub-map
    is as it was, so the value is stored in that sub-map only.  A value that
    parses as an [int64] is not stored in the string map, a value that
    parses as a non-negative integer is not stored in the negative map, and
    a value stored in the negative map does not parse as a non-negative
    integer.  An [int64] taken from a typed column is stored in the [u64] map
    when it is at zero or above and in the negative map otherwise.  In every
    state of a run of a pipe with one by-field, no key of the string map of a
    shard parses as an integer. *)
Theorem single_field_key_sub_map (key : string) (sh : pipeStatsProcessorShard) :
  let sh' := (psm_getPipeStatsGroupGeneric key sh).1 in
  let r := (psm_getPipeStatsGroupGeneric key sh).2 in
  r = keySubMap key
  ∧ is_Some (psm_lookup (shard_m sh') r)
  ∧ (∀ r', r' ≠ r → psm_lookup (shard_m sh') r' = psm_lookup (shard_m sh) r')
  ∧ (∀ n, tryParseUint64 key = Some n → r = RefU64 n)
  ∧ (∀ n, tryParseUint64 key = None → startsWithMinus key = true →
          tryParseInt64 key = Some n → r = RefNegative64 (to_uint64 n))
  ∧ (is_Some (tryParseInt64 key) → ∀ k, r ≠ RefString k)
  ∧ (is_Some (tryParseUint64 key) → ∀ n, r ≠ RefNegative64 n)
  ∧ (∀ n, r = RefNegative64 n → tryParseUint64 key = None)
  ∧ (∀ n sh0, (psm_getPipeStatsGroupInt64 n sh0).2
              = if 0 <=? n then RefU64 (to_uint64 n) else RefNegative64 (to_uint64 n))
  ∧ (∀ ps psp shard k,
       reachable ps psp → length (byFields ps) = 1%nat → shard ∈ shards psp →
       is_Some (strings (shard_m shard) !! k) →
       tryParseUint64 k = None ∧ tryParseInt64 k = None).
Proof.
  intros sh' r. subst sh' r.
  destruct (psm_getPipeStatsGroupGeneric_getAt key sh) as [keyBytes ->].
  destruct (psm_getAt_spec (keySubMap key) keyBytes sh) as (Hr & Hsome & Hother & _).
  rewrite Hr. split; [reflexivity|]. split; [exact Hsome|]. split; [exact Hother|].
  unfold keySubMap.
  split; [|split; [|split; [|split; [|split; [|split]]]]].
  - intros n ->. reflexivity.
  - intros n -> -> ->. reflexivity.
  - intros [n Hn] k. destruct (tryParseUint64 key) eqn:Hu; [discriminate|].
    rewrite Hn. destruct (startsWithMinus key) eqn:Hm; [discriminate|].
    rewrite (tryParseInt64_unsigned key Hu Hm) in Hn. discriminate.
  - intros [u ->] n. discriminate.
  - intros n. destruct (tryParseUint64 key); [discriminate | reflexivity].
  - intros n sh0. rewrite psm_getPipeStatsGroupInt64_getAt.
    apply psm_getAt_spec.
  - intros ps psp shard k Hreach Hone Hshard [psg Hk].
    destruct (reachable_wf ps psp Hreach) as [Hps Hwf].
    unfold psp_wf in Hwf. rewrite Forall_forall in Hwf.
    destruct (Hwf shard Hshard) as [_ Hpsm]. rewrite Hps in Hpsm.
    destruct (Hpsm (RefString k) psg Hk) as [_ Hok].
    unfold ref_ok in Hok. rewrite decide_True in Hok by exact Hone. tauto.
Qed.


(** ** The stats writer *)

Lemma pipeNames_length (ps : pipeStats) :
  length (pipeNames ps) = (length (byFields ps) + length (funcs ps))%nat.
Proof. unfold pipeNames. rewrite length_app, !length_map. reflexivity. Qed.

Lemma psw_ok_rcs_length (ps : pipeStats) (psw : pipeStatsWriter) :
  psw_ok ps psw → length (rcs psw) = length (pipeNames ps).
Proof. intros [Hn _]. rewrite <- Hn, length_map. reflexivity. Qed.

Lemma psw_flush_rows (psw : pipeStatsWriter) : psw_rows (psw_flush psw) = psw_rows psw.
Proof.
  unfold psw_rows, psw_flush. simpl.
  rewrite writtenRows_app, rb_rows_no_rows, app_nil_r.
  unfold writtenRows at 2. simpl. rewrite app_nil_r. reflexivity.
Qed.

Lemma psw_flush_ok (ps : pipeStats) (psw : pipeStatsWriter) :
  psw_ok ps psw → (0 < rowsCount psw)%nat → psw_ok ps (psw_flush psw).
Proof.
  intros (Hn & Hl & Hw) Hrows. unfold psw_ok, psw_flush. simpl. repeat split.
  - rewrite map_map. simpl. exact Hn.
  - apply Forall_forall. intros rc Hrc. apply list_elem_of_In, in_map_iff in Hrc.
    destruct Hrc as (rc0 & <- & _). reflexivity.
  - apply Forall_app. split; [exact Hw|]. constructor; [|constructor]. simpl. split; assumption.
Qed.

(** A group written by [writePipeStatsGroup] is a row added: the values of
    the by-fields the writer holds, then the final values of the group. *)
Lemma psw_writePipeStatsGroup_row (ps : pipeStats) (psg : pipeStatsGroup)
    (psw : pipeStatsWriter) :
  psw_ok ps psw →
  (length (psw_values psw) + length (sfps psg))%nat = length (pipeNames ps) →
  ∃ psw', psw_writePipeStatsGroup false psg psw = Some psw'
          ∧ psw_ok ps psw'
          ∧ psw_rows psw' = psw_rows psw ++ [psw_values psw ++ finalValues psg].
Proof.
  intros Hok Hlen. pose proof (psw_ok_rcs_length ps psw Hok) as Hrcs.
  destruct Hok as (Hn & Hl & Hw).
  unfold psw_writePipeStatsGroup. fold (finalValues psg).
  assert (Hvals : length (psw_values psw ++ finalValues psg) = length (rcs psw)).
  { rewrite length_app. unfold finalValues. rewrite length_map. lia. }
  rewrite Hvals, Nat.eqb_refl. simpl negb. cbv iota.
  set (psw1 := {| psw_workerID := psw_workerID psw;
                  rcs := addValues (rcs psw) (psw_values psw ++ finalValues psg);
                  resultLen := _; rowsCount := S (rowsCount psw);
                  psw_values := _; psw_written := psw_written psw |}).
  assert (Hok1 : psw_ok ps psw1).
  { unfold psw_ok, psw1. simpl. repeat split.
    - rewrite addValues_names by exact Hvals. exact Hn.
    - apply addValues_lengths; assumption.
    - exact Hw. }
  assert (Hrows1 : psw_rows psw1 = psw_rows psw ++ [psw_values psw ++ finalValues psg]).
  { unfold psw_rows, psw1. simpl.
    rewrite (rb_rows_addValues (rowsCount psw)) by assumption.
    rewrite app_assoc. reflexivity. }
  destruct (64000 <=? resultLen psw1).
  - exists (psw_flush psw1). split; [reflexivity|]. split.
    + apply psw_flush_ok; [exact Hok1 | simpl; lia].
    + rewrite psw_flush_rows. exact Hrows1.
  - exists psw1. auto.
Qed.

Lemma psw_with_values_ok (ps : pipeStats) (values : list string) (psw : pipeStatsWriter) :
  psw_ok ps psw → psw_ok ps (psw_with_values values psw)
                  ∧ psw_rows (psw_with_values values psw) = psw_rows psw.
Proof. intros H. split; [exact H | reflexivity]. Qed.

(** One loop of [writeShardData] over groups at places of [ref_ok]: every
    group is a row added. *)
Lemma psw_writeEntries_rows {K : Type} (ps : pipeStats) (mk : K → groupRef)
    (kvf : K → option (list string)) (l : list (K * pipeStatsGroup)) :
  Forall (λ e, kvf e.1 = Some (keyValues ps (mk e.1))
               ∧ length (keyValues ps (mk e.1)) = length (byFields ps)
               ∧ group_wf ps e.2) l →
  ∀ psw, psw_ok ps psw →
    ∃ psw', foldl (λ acc '(k, psg), psw_writeEntry false (kvf k) psg acc) (Some psw) l
            = Some psw'
            ∧ psw_ok ps psw'
            ∧ psw_rows psw'
              = psw_rows psw ++ map (groupRow ps) (map (λ '(k, psg), (mk k, psg)) l).
Proof.
  induction 1 as [|[k psg] l (Hkv & Hklen & Hg) Hall IH]; intros psw Hok.
  - exists psw. simpl. rewrite app_nil_r. auto.
  - simpl in *. rewrite Hkv.
    destruct (psw_with_values_ok ps (keyValues ps (mk k)) psw Hok) as [Hok0 Hrows0].
    destruct (psw_writePipeStatsGroup_row ps psg _ Hok0) as (psw1 & Hw & Hok1 & Hrows1).
    { simpl. rewrite pipeNames_length, Hklen. unfold group_wf in Hg. lia. }
    rewrite Hw. destruct (IH psw1 Hok1) as (psw' & Hfold & Hok' & Hrows').
    exists psw'. split; [exact Hfold|]. split; [exact Hok'|].
    rewrite Hrows', Hrows1, Hrows0. simpl. rewrite <- app_assoc. reflexivity.
Qed.

Lemma psm_wf_no_integers (ps : pipeStats) (psm : pipeStatsGroupMap) :
  psm_wf ps psm → length (byFields ps) ≠ 1%nat → u64 psm = ∅ ∧ negative64 psm = ∅.
Proof.
  intros Hwf Hne. split; apply map_eq; intros n; rewrite lookup_empty.
  - destruct (u64 psm !! n) as [psg|] eqn:Hn; [|reflexivity].
    destruct (Hwf (RefU64 n) psg Hn) as [_ Hr]. unfold ref_ok in Hr.
    rewrite decide_False in Hr by exact Hne. contradiction.
  - destruct (negative64 psm !! n) as [psg|] eqn:Hn; [|reflexivity].
    destruct (Hwf (RefNegative64 n) psg Hn) as [_ Hr]. unfold ref_ok in Hr.
    rewrite decide_False in Hr by exact Hne. contradiction.
Qed.

Lemma decodeKey_length (n : nat) (key : string) (values : list string) :
  decodeKey n key = Some values → length values = n.
Proof.
  unfold decodeKey. destruct (unmarshalKey _ key) as [vs|]; [|discriminate].
  destruct (Nat.eqb_spec (length vs) n); [|discriminate]. congruence.
Qed.

(** [writeShardData] adds the rows of the groups of the map. *)
Lemma psw_writeShardData_rows (ps : pipeStats) (psm : pipeStatsGroupMap)
    (psw : pipeStatsWriter) :
  psm_wf ps psm → psw_ok ps psw →
  ∃ psw', psw_writeShardData false (byFields ps) psm psw = Some psw'
          ∧ psw_ok ps psw'
          ∧ psw_rows psw' = psw_rows psw ++ psm_rows ps psm.
Proof.
  intros Hwf Hok. unfold psm_rows, psm_entries. rewrite !map_app.
  destruct (decide (length (byFields ps) = 1%nat)) as [Hone|Hne].
  - assert (HbyFs : ∃ bf, byFields ps = [bf]).
    { destruct (byFields ps) as [|bf [|? ?]]; try discriminate. eauto. }
    destruct HbyFs as [bf HbyFs]. unfold psw_writeShardData. rewrite HbyFs.
    destruct (psw_writeEntries_rows ps RefU64 (λ n, Some [marshalUint64String n])
                (map_to_list (u64 psm))) with (psw := psw) as (w1 & Hf1 & Hok1 & Hr1);
      [|exact Hok|].
    { apply Forall_forall. intros [n psg] Hin. apply elem_of_map_to_list in Hin.
      simpl. split; [reflexivity|]. split; [symmetry; exact Hone|].
      exact (proj1 (Hwf (RefU64 n) psg Hin)). }
    rewrite Hf1.
    destruct (psw_writeEntries_rows ps RefNegative64
                (λ n, Some [marshalInt64String (wrap64 n)])
                (map_to_list (negative64 psm))) with (psw := w1) as (w2 & Hf2 & Hok2 & Hr2);
      [|exact Hok1|].
    { apply Forall_forall. intros [n psg] Hin. apply elem_of_map_to_list in Hin.
      simpl. split; [reflexivity|]. split; [symmetry; exact Hone|].
      exact (proj1 (Hwf (RefNegative64 n) psg Hin)). }
    rewrite Hf2.
    destruct (psw_writeEntries_rows ps RefString (λ key, Some [key])
                (map_to_list (strings psm))) with (psw := w2) as (w3 & Hf3 & Hok3 & Hr3);
      [|exact Hok2|].
    { apply Forall_forall. intros [key psg] Hin. apply elem_of_map_to_list in Hin.
      simpl. rewrite decide_True by exact Hone.
      split; [reflexivity|]. split; [symmetry; exact Hone|].
      exact (proj1 (Hwf (RefString key) psg Hin)). }
    exists w3. split; [exact Hf3|]. split; [exact Hok3|].
    rewrite Hr3, Hr2, Hr1, <- !app_assoc. reflexivity.
  - destruct (psm_wf_no_integers ps psm Hwf Hne) as [Hu Hn].
    rewrite Hu, Hn, map_to_list_empty. simpl.
    assert (Hbranch : psw_writeShardData false (byFields ps) psm psw
                      = foldl (λ acc '(key, psg),
                                 psw_writeEntry false (decodeKey (length (byFields ps)) key)
                                   psg acc)
                              (Some psw) (map_to_list (strings psm))).
    { unfold psw_writeShardData. destruct (byFields ps) as [|bf [|? ?]]; try reflexivity.
      simpl in Hne. lia. }
    rewrite Hbranch.
    apply (psw_writeEntries_rows ps RefString (decodeKey (length (byFields ps))));
      [|exact Hok].
    apply Forall_forall. intros [key psg] Hin. apply elem_of_map_to_list in Hin.
    destruct (Hwf (RefString key) psg Hin) as [Hg Hr]. unfold ref_ok in Hr.
    rewrite decide_False in Hr by exact Hne. destruct Hr as [values Hvalues].
    simpl. rewrite decide_False by exact Hne. rewrite Hvalues. simpl.
    split; [reflexivity|]. split; [exact (decodeKey_length _ _ _ Hvalues) | exact Hg].
Qed.

Lemma newPipeStatsWriter_ok (psp : pipeStatsProcessor) (workerID : nat) :
  psw_ok (psp_ps psp) (newPipeStatsWriter psp workerID)
  ∧ psw_rows (newPipeStatsWriter psp workerID) = [].
Proof.
  split; [|reflexivity]. unfold psw_ok, newPipeStatsWriter, pipeNames. simpl. repeat split.
  - rewrite map_app, !map_map. reflexivity.
  - apply Forall_app. split; apply Forall_forall; intros rc Hrc;
      apply list_elem_of_In, in_map_iff in Hrc; destruct Hrc as (? & <- & _); reflexivity.
  - constructor.
Qed.

(** What a writer of [flush] gives to the next pipe for a map: blocks with
    the columns of the pipe, whose rows are the rows of the groups of the map;
    every block but the last has at least one row. *)
Lemma runWriter_blocks (psp : pipeStatsProcessor) (workerID : nat)
    (psm : pipeStatsGroupMap) :
  stopCh_closed psp = false → psm_wf (psp_ps psp) psm →
  ∃ init last,
    runWriter psp workerID psm = Some (init ++ [last])
    ∧ Forall (λ rb, map rc_name (rb_rcs rb) = pipeNames (psp_ps psp)) (init ++ [last])
    ∧ writtenRows (init ++ [last]) = psm_rows (psp_ps psp) psm
    ∧ Forall (λ rb, (0 < rb_rowsLen rb)%nat) init.
Proof.
  intros Hstop Hwf. unfold runWriter. rewrite Hstop.
  destruct (newPipeStatsWriter_ok psp workerID) as [Hok0 Hrows0].
  destruct (psw_writeShardData_rows (psp_ps psp) psm _ Hwf Hok0) as (psw & Hw & Hok & Hrows).
  rewrite Hw. exists (psw_written psw), {| rb_rowsLen := rowsCount psw; rb_rcs := rcs psw |}.
  split; [reflexivity|]. destruct Hok as (Hn & Hl & Hwr). repeat split.
  - apply Forall_app. split.
    + eapply Forall_impl; [exact Hwr|]. intros rb [H _]. exact H.
    + constructor; [exact Hn | constructor].
  - rewrite writtenRows_app. rewrite Hrows0 in Hrows. simpl in Hrows.
    rewrite <- Hrows. unfold psw_rows. unfold writtenRows at 2. simpl.
    rewrite app_nil_r. reflexivity.
  - eapply Forall_impl; [exact Hwr|]. intros rb [_ H]. exact H.
Qed.

(** ** The scatter and the merge *)

Lemma scatter_fold_lookup {K : Type} `{Countable K} (mk : K → groupRef)
    (sel : groupRef → option K) (idx : K → nat) (perCPU0 : list pipeStatsGroupMap)
    (src : gmap K pipeStatsGroup) :
  (∀ k r, sel r = Some k ↔ r = mk k) →
  let perCPU :=
    map_fold (λ k psg acc, alter (λ d, psm_store d (mk k) psg) (idx k) acc) perCPU0 src in
  length perCPU = length perCPU0
  ∧ ∀ j r, (j < length perCPU0)%nat →
      lookupAt perCPU j r
      = match sel r ≫= λ k, (λ psg, (k, psg)) <$> src !! k with
        | Some (k, psg) => if decide (idx k = j) then Some psg else lookupAt perCPU0 j r
        | None => lookupAt perCPU0 j r
        end.
Proof.
  intros Hsel. cbv zeta.
  apply (map_fold_weak_ind
           (λ acc m, length acc = length perCPU0
                     ∧ ∀ j r, (j < length perCPU0)%nat →
                         lookupAt acc j r
                         = match sel r ≫= λ k, (λ psg, (k, psg)) <$> m !! k with
                           | Some (k, psg) =>
                               if decide (idx k = j) then Some psg else lookupAt perCPU0 j r
                           | None => lookupAt perCPU0 j r
                           end)).
  - split; [reflexivity|]. intros j r Hj.
    destruct (sel r); simpl; [rewrite lookup_empty|]; reflexivity.
  - intros i x m acc Hi [Hlen IH]. split; [rewrite length_alter; exact Hlen|].
    intros j r Hj. specialize (IH j r Hj). unfold lookupAt in *.
    destruct (decide (idx i = j)) as [Hij|Hij].
    + subst j. rewrite list_lookup_alter_eq.
      destruct (acc !! idx i) as [d|] eqn:Hd.
      2:{ apply lookup_ge_None in Hd. lia. }
      simpl in *. rewrite psm_lookup_store.
      destruct (decide (mk i = r)) as [Hr|Hr].
      * subst r. rewrite (proj2 (Hsel i (mk i)) eq_refl). simpl.
        rewrite lookup_insert_eq. simpl. rewrite decide_True by reflexivity. reflexivity.
      * rewrite IH. destruct (sel r) as [k|] eqn:Hk; simpl; [|reflexivity].
        assert (k ≠ i).
        { intros ->. apply Hr. symmetry. apply Hsel. exact Hk. }
        rewrite lookup_insert_ne by congruence. reflexivity.
    + rewrite list_lookup_alter_ne by exact Hij. rewrite IH.
      destruct (sel r) as [k|] eqn:Hk; simpl; [|reflexivity].
      destruct (decide (i = k)) as [->|Hne].
      * rewrite lookup_insert_eq, Hi. simpl. rewrite decide_False by exact Hij. reflexivity.
      * rewrite lookup_insert_ne by exact Hne. reflexivity.
Qed.

Lemma lookupAt_replicate_init (n j : nat) (r : groupRef) :
  lookupAt (replicate n psm_init) j r = None.
Proof.
  unfold lookupAt. destruct (replicate n psm_init !! j) as [d|] eqn:Hd; [|reflexivity].
  apply lookup_replicate in Hd as [-> _]. simpl.
  destruct r; simpl; apply lookup_empty.
Qed.

(** After the scatter of a map, the map of CPU [j] holds the groups of the
    map whose key hashes to [j], at their places. *)
Lemma scatterShard_lookup (psm : pipeStatsGroupMap) :
  length (scatterShard psm) = cpusCount
  ∧ ∀ j r, (j < cpusCount)%nat →
      lookupAt (scatterShard psm) j r
      = if decide (cpuIdx r = j) then psm_lookup psm r else None.
Proof.
  unfold scatterShard.
  set (p0 := replicate cpusCount psm_init).
  destruct (scatter_fold_lookup RefU64 selU64 cpuIdxU64 p0 (u64 psm)) as [Hl1 H1].
  { intros k r. destruct r; simpl; split; congruence. }
  set (p1 := map_fold _ p0 (u64 psm)) in *.
  destruct (scatter_fold_lookup RefNegative64 selNegative64 cpuIdxU64 p1 (negative64 psm))
    as [Hl2 H2].
  { intros k r. destruct r; simpl; split; congruence. }
  set (p2 := map_fold _ p1 (negative64 psm)) in *.
  destruct (scatter_fold_lookup RefString selString cpuIdxString p2 (strings psm))
    as [Hl3 H3].
  { intros k r. destruct r; simpl; split; congruence. }
  set (p3 := map_fold _ p2 (strings psm)) in *.
  assert (Hp0 : length p0 = cpusCount) by apply length_replicate.
  split; [congruence|]. intros j r Hj.
  rewrite H3 by congruence. rewrite H2 by congruence. rewrite H1 by congruence.
  unfold p0. rewrite lookupAt_replicate_init.
  destruct r as [n|n|key]; simpl.
  - destruct (u64 psm !! n); simpl; [|destruct (decide _); reflexivity]. reflexivity.
  - destruct (negative64 psm !! n); simpl; [|destruct (decide _); reflexivity]. reflexivity.
  - destruct (strings psm !! key); simpl; [|destruct (decide _); reflexivity]. reflexivity.
Qed.

Lemma scatterShard_wf (ps : pipeStats) (psm : pipeStatsGroupMap) :
  psm_wf ps psm → Forall (psm_wf ps) (scatterShard psm).
Proof.
  intros Hwf. destruct (scatterShard_lookup psm) as [Hlen Hlook].
  apply Forall_lookup. intros j d Hd r psg Hr.
  assert (Hj : (j < cpusCount)%nat) by (rewrite <- Hlen; eapply lookup_lt_Some; exact Hd).
  specialize (Hlook j r Hj). unfold lookupAt in Hlook. rewrite Hd in Hlook. simpl in Hlook.
  rewrite Hr in Hlook. destruct (decide (cpuIdx r = j)); [|discriminate].
  apply (Hwf r psg). symmetry. exact Hlook.
Qed.

Lemma mergeGroups_lookup {K : Type} `{Countable K} (dst src : gmap K pipeStatsGroup) (k : K) :
  mergeGroups dst src !! k = mergedGroup (dst !! k) (src !! k).
Proof.
  unfold mergeGroups. revert k.
  apply (map_fold_weak_ind (λ acc m, ∀ k, acc !! k = mergedGroup (dst !! k) (m !! k))).
  - intros k. rewrite lookup_empty. destruct (dst !! k); reflexivity.
  - intros i x m acc Hi IH k.
    destruct (decide (i = k)) as [->|Hne].
    + specialize (IH k). rewrite Hi in IH. rewrite lookup_insert_eq.
      destruct (acc !! k) as [d|] eqn:Hacc; rewrite lookup_insert_eq;
        destruct (dst !! k); simpl in *; congruence.
    + rewrite (lookup_insert_ne m) by exact Hne. rewrite <- IH.
      destruct (acc !! i); rewrite lookup_insert_ne by exact Hne; reflexivity.
Qed.

Lemma psm_mergeState_lookup (psm src : pipeStatsGroupMap) (r : groupRef) :
  psm_lookup (psm_mergeState false psm src) r
  = mergedGroup (psm_lookup psm r) (psm_lookup src r).
Proof. destruct r; simpl; apply mergeGroups_lookup. Qed.

Lemma mergeProcessors_length (dst : list statsProcessor) :
  ∀ src, length (mergeProcessors dst src) = length dst.
Proof.
  induction dst as [|d dst IH]; intros [|s src]; simpl; try reflexivity.
  rewrite IH. reflexivity.
Qed.

Lemma psm_mergeState_wf (ps : pipeStats) (stopped : bool) (psm src : pipeStatsGroupMap) :
  psm_wf ps psm → psm_wf ps src → psm_wf ps (psm_mergeState stopped psm src).
Proof.
  intros Hd Hs. destruct stopped; [exact Hd|].
  intros r psg Hr. rewrite psm_mergeState_lookup in Hr.
  destruct (psm_lookup psm r) as [d|] eqn:Hdr; destruct (psm_lookup src r) as [s0|] eqn:Hsr;
    simpl in Hr; inversion Hr; subst.
  - destruct (Hd r d Hdr) as [Hg Hok]. split; [|exact Hok].
    unfold group_wf, psg_mergeState in *. simpl. rewrite mergeProcessors_length. exact Hg.
  - exact (Hd r psg Hdr).
  - exact (Hs r psg Hsr).
Qed.

Lemma zip_with_mergeState_wf (ps : pipeStats) (stopped : bool)
    (acc : list pipeStatsGroupMap) :
  ∀ perCPU, Forall (psm_wf ps) acc → Forall (psm_wf ps) perCPU →
    Forall (psm_wf ps) (zip_with (psm_mergeState stopped) acc perCPU).
Proof.
  induction acc as [|a acc IH]; intros [|p perCPU] Ha Hp; simpl; try constructor.
  - apply Forall_cons in Ha as [Ha _]. apply Forall_cons in Hp as [Hp _].
    apply psm_mergeState_wf; assumption.
  - apply Forall_cons in Ha as [_ Ha]. apply Forall_cons in Hp as [_ Hp]. apply IH; assumption.
Qed.

Lemma nonEmptyMaps_wf (ps : pipeStats) (psms : list pipeStatsGroupMap) :
  Forall (psm_wf ps) psms → Forall (psm_wf ps) (nonEmptyMaps psms).
Proof.
  intros H. apply Forall_forall. intros psm Hin. unfold nonEmptyMaps in Hin.
  apply list_elem_of_filter in Hin as [_ Hin]. rewrite Forall_forall in H. exact (H psm Hin).
Qed.

(** The maps [mergeShardsParallel] returns are well-formed. *)
Lemma psp_mergeShardsParallel_wf (psp : pipeStatsProcessor) (psms : list pipeStatsGroupMap) :
  psp_wf psp →
  (psp_mergeShardsParallel psp = MergeMaps psms ∨ mergeShardsGeneral psp = MergeMaps psms) →
  Forall (psm_wf (psp_ps psp)) psms.
Proof.
  intros Hwf Hmerge.
  assert (Hgen : ∀ psms, mergeShardsGeneral psp = MergeMaps psms →
                         Forall (psm_wf (psp_ps psp)) psms).
  { clear Hmerge psms. intros psms. unfold mergeShardsGeneral, budgetErrorResult.
    destruct (stopCh_closed psp) eqn:Hstop; [intros [= <-]; constructor|].
    destruct (psp_stateSizeBudget psp <? 0); [destruct (budgetError psp); discriminate|].
    assert (Hsc : Forall (Forall (psm_wf (psp_ps psp)))
                    (map (λ sh, scatterShard (shard_m sh)) (shards psp))).
    { apply Forall_forall. intros l Hl. apply list_elem_of_In, in_map_iff in Hl.
      destruct Hl as (sh & <- & Hsh). apply scatterShard_wf.
      unfold psp_wf in Hwf. rewrite Forall_forall in Hwf.
      apply (Hwf sh). apply list_elem_of_In. exact Hsh. }
    destruct (map (λ sh, scatterShard (shard_m sh)) (shards psp)) as [|first others];
      [discriminate|].
    intros [= <-]. apply nonEmptyMaps_wf.
    apply Forall_cons in Hsc as [Hfirst Hothers].
    revert first Hfirst. induction Hothers as [|p others Hp Hothers IH]; intros first Hfirst;
      simpl; [exact Hfirst|].
    apply IH. apply zip_with_mergeState_wf; assumption. }
  destruct Hmerge as [Hmerge|Hmerge]; [|exact (Hgen psms Hmerge)].
  unfold psp_mergeShardsParallel in Hmerge.
  destruct (shards psp) as [|shard [|shard2 rest]] eqn:Hshards;
    try (apply Hgen; exact Hmerge).
  assert (Hshard : psm_wf (psp_ps psp) (shard_m shard)).
  { unfold psp_wf in Hwf. rewrite Hshards in Hwf. apply Forall_cons in Hwf as [[_ H] _].
    exact H. }
  destruct (0 <? psm_entriesCount (shard_m shard))%nat; inversion Hmerge; subst.
  - apply Forall_cons. split; [exact Hshard | apply Forall_nil_2].
  - apply Forall_nil_2.
Qed.

(** ** Flush *)

Lemma runWriters_output (psp : pipeStatsProcessor) (maps : list pipeStatsGroupMap) :
  stopCh_closed psp = false → Forall (psm_wf (psp_ps psp)) maps →
  ∀ g : nat → nat,
    ∃ written,
      mapM (λ '(i, psm), runWriter psp i psm) (imap (λ i psm, (g i, psm)) maps) = Some written
      ∧ Forall2 (writerOutput (psp_ps psp)) written maps.
Proof.
  intros Hstop. induction 1 as [|psm maps Hpsm Hmaps IH]; intros g.
  - exists []. split; [reflexivity | constructor].
  - destruct (runWriter_blocks psp (g 0%nat) psm Hstop Hpsm) as (init & last & Hrun & Hn & Hr & Hi).
    destruct (IH (g ∘ S)) as (written & Hm & Hall).
    exists ((init ++ [last]) :: written). split.
    + rewrite imap_cons. cbn [mapM]. rewrite Hrun. simpl.
      change (imap ((λ i psm0, (g i, psm0)) ∘ S) maps)
        with (imap (λ i psm0, ((g ∘ S) i, psm0)) maps).
      rewrite Hm. reflexivity.
    + constructor; [|exact Hall]. exists init, last. auto.
Qed.

Lemma emptyMatchMaps_spec (psp : pipeStatsProcessor) (shard : pipeStatsProcessorShard)
    (rest : list pipeStatsProcessorShard) :
  shards psp = shard :: rest → shard_ps shard = psp_ps psp →
  emptyMatchMaps psp = Some [emptyMatchMap (psp_ps psp)].
Proof.
  intros Hshards Hps. unfold emptyMatchMaps. rewrite Hshards.
  rewrite psm_getPipeStatsGroupString_getAt. unfold psm_getAt. simpl.
  rewrite lookup_empty. simpl. rewrite psm_addGroup_m, psm_newPipeStatsGroup_fst. simpl.
  rewrite Hps. reflexivity.
Qed.

Lemma emptyMatchMap_wf (ps : pipeStats) :
  length (byFields ps) = 0%nat → psm_wf ps (emptyMatchMap ps).
Proof.
  intros Hzero. unfold emptyMatchMap. apply psm_wf_store.
  - apply psm_init_wf.
  - unfold group_wf. simpl. apply length_map.
  - unfold ref_ok. rewrite Hzero. simpl. eexists; reflexivity.
Qed.

(** The one row of the map of zero matching rows: the final value of a new
    processor of every function. *)
Lemma emptyMatchMap_rows (ps : pipeStats) :
  length (byFields ps) = 0%nat →
  psm_rows ps (emptyMatchMap ps)
  = [map (λ fn, sfp_finalizeStats (newStatsProcessor (f fn)).1 false) (funcs ps)].
Proof.
  intros Hzero. unfold psm_rows, psm_entries, emptyMatchMap. simpl.
  rewrite map_to_list_empty, insert_empty, map_to_list_singleton. simpl.
  unfold groupRow, keyValues, finalValues. simpl. rewrite Hzero. simpl.
  rewrite map_map. reflexivity.
Qed.

(** A flush that passes the budget check and is not stopped runs a writer
    for every map of the merge, or for the map of zero matching rows. *)
Lemma psp_flushWith_success (mergeShards : pipeStatsProcessor → mergeResult)
    (psp : pipeStatsProcessor) (psms : list pipeStatsGroupMap) :
  psp_wf psp → shards psp ≠ [] →
  0 < psp_stateSizeBudget psp → stopCh_closed psp = false →
  mergeShards psp = MergeMaps psms → Forall (psm_wf (psp_ps psp)) psms →
  let maps := if Nat.eqb (length (byFields (psp_ps psp))) 0 && Nat.eqb (length psms) 0
              then [emptyMatchMap (psp_ps psp)] else psms in
  Forall (psm_wf (psp_ps psp)) maps
  ∧ ∃ written, psp_flushWith mergeShards psp = (FlushNil, written)
               ∧ Forall2 (writerOutput (psp_ps psp)) written maps.
Proof.
  intros Hwf Hshards Hbudget Hstop Hmerge Hpsms maps.
  assert (Hmaps : Forall (psm_wf (psp_ps psp)) maps).
  { subst maps. destruct (Nat.eqb_spec (length (byFields (psp_ps psp))) 0) as [Hz|Hz];
      simpl; [|exact Hpsms].
    destruct (Nat.eqb (length psms) 0); [|exact Hpsms].
    apply Forall_cons. split; [apply emptyMatchMap_wf; exact Hz | apply Forall_nil_2]. }
  split; [exact Hmaps|].
  destruct (runWriters_output psp maps Hstop Hmaps id) as (written & Hrun & Hout).
  exists written. split; [|exact Hout].
  unfold psp_flushWith. destruct (Z.leb_spec (psp_stateSizeBudget psp) 0); [lia|].
  rewrite Hmerge, Hstop.
  assert (Hsel : (if Nat.eqb (length (byFields (psp_ps psp))) 0 && Nat.eqb (length psms) 0
                  then emptyMatchMaps psp else Some psms) = Some maps).
  { subst maps. destruct (Nat.eqb (length (byFields (psp_ps psp))) 0 && Nat.eqb (length psms) 0);
      [|reflexivity].
    destruct (shards psp) as [|shard rest] eqn:Hsh; [contradiction|].
    apply (emptyMatchMaps_spec psp shard rest Hsh).
    unfold psp_wf in Hwf. rewrite Hsh in Hwf. apply Forall_cons in Hwf as [[Hps0 _] _].
    exact Hps0. }
  rewrite Hsel.
  change (imap pair maps) with (imap (λ i psm, (id i, psm)) maps).
  rewrite Hrun. reflexivity.
Qed.

(** Whatever way a flush takes, what its writers give to the next pipe is
    the output of a writer for a well-formed map. *)
Lemma psp_flushWith_output (mergeShards : pipeStatsProcessor → mergeResult)
    (psp : pipeStatsProcessor) :
  psp_wf psp →
  (∀ psms, mergeShards psp = MergeMaps psms → Forall (psm_wf (psp_ps psp)) psms) →
  ∃ maps, Forall (psm_wf (psp_ps psp)) maps
          ∧ Forall2 (writerOutput (psp_ps psp)) (psp_flushWith mergeShards psp).2 maps.
Proof.
  intros Hwf Hmergewf.
  assert (Hnone : ∀ res : flushResult,
            ∃ maps, Forall (psm_wf (psp_ps psp)) maps
                    ∧ Forall2 (writerOutput (psp_ps psp))
                              (res, @nil (list resultBlock)).2 maps).
  { intros res. exists []. split; constructor. }
  destruct (Z_le_gt_dec (psp_stateSizeBudget psp) 0) as [Hb|Hb].
  { unfold psp_flushWith. destruct (Z.leb_spec (psp_stateSizeBudget psp) 0); [|lia].
    destruct (budgetError psp); apply Hnone. }
  destruct (mergeShards psp) as [psms|msg|] eqn:Hmerge.
  - destruct (stopCh_closed psp) eqn:Hstop.
    { unfold psp_flushWith. destruct (Z.leb_spec (psp_stateSizeBudget psp) 0); [lia|].
      rewrite Hmerge, Hstop. apply Hnone. }
    destruct (shards psp) as [|shard rest] eqn:Hsh.
    + unfold psp_flushWith. destruct (Z.leb_spec (psp_stateSizeBudget psp) 0); [lia|].
      rewrite Hmerge, Hstop. unfold emptyMatchMaps. rewrite Hsh.
      destruct (Nat.eqb (length (byFields (psp_ps psp))) 0 && Nat.eqb (length psms) 0);
        [apply Hnone|].
      destruct (runWriters_output psp psms Hstop (Hmergewf psms eq_refl) id)
        as (written & Hrun & Hout).
      change (imap pair psms) with (imap (λ i psm, (id i, psm)) psms).
      rewrite Hrun. exists psms. split; [exact (Hmergewf psms eq_refl) | exact Hout].
    + destruct (psp_flushWith_success mergeShards psp psms Hwf) as (Hmaps & written & Hf & Hout);
        try assumption.
      * rewrite Hsh. discriminate.
      * lia.
      * apply Hmergewf. reflexivity.
      * rewrite Hf. eexists. split; [exact Hmaps | exact Hout].
  - unfold psp_flushWith. destruct (Z.leb_spec (psp_stateSizeBudget psp) 0); [lia|].
    rewrite Hmerge. apply Hnone.
  - unfold psp_flushWith. destruct (Z.leb_spec (psp_stateSizeBudget psp) 0); [lia|].
    rewrite Hmerge. apply Hnone.
Qed.

(** The maps a merge returns after the budget check of [flush], for a
    flush that is not stopped and has a shard. *)
Lemma psp_mergeShardsParallel_total (psp : pipeStatsProcessor) :
  shards psp ≠ [] → 0 < psp_stateSizeBudget psp → stopCh_closed psp = false →
  ∃ psms, psp_mergeShardsParallel psp = MergeMaps psms.
Proof.
  intros Hshards Hbudget Hstop. unfold psp_mergeShardsParallel.
  assert (Hgen : ∃ psms, mergeShardsGeneral psp = MergeMaps psms).
  { unfold mergeShardsGeneral. rewrite Hstop.
    destruct (Z.ltb_spec (psp_stateSizeBudget psp) 0); [lia|].
    destruct (shards psp); [contradiction|]. simpl. eexists; reflexivity. }
  destruct (shards psp) as [|shard [|shard2 rest]]; try exact Hgen.
  destruct (0 <? psm_entriesCount (shard_m shard))%nat; eexists; reflexivity.
Qed.

Lemma Forall2_singleton_r {A B} (P : A → B → Prop) (l : list A) (y : B) :
  Forall2 P l [y] → ∃ x, l = [x] ∧ P x y.
Proof.
  intros H. inversion H as [|x ? l' ? Hx Hrest]; subst.
  inversion Hrest; subst. exists x. auto.
Qed.

(** C4. A flush that passes the budget check and is not stopped, when the
    merge leaves no group: for a pipe without by-fields exactly one writer
    runs and the rows it gives to the next pipe are exactly one row, the
    final value of a new processor of every function, in columns named by
    the functions; for a pipe with by-fields no writer runs and nothing is
    given to the next pipe. *)
Theorem flush_empty_match (ps : pipeStats) (psp : pipeStatsProcessor) :
  reachable ps psp →
  shards psp ≠ [] →
  0 < psp_stateSizeBudget psp →
  stopCh_closed psp = false →
  psp_mergeShardsParallel psp = MergeMaps [] →
  (byFields ps = [] →
     ∃ blocks,
       psp_flush psp = (FlushNil, [blocks])
       ∧ writtenRows blocks
         = [map (λ fn, sfp_finalizeStats (newStatsProcessor (f fn)).1 false) (funcs ps)]
       ∧ Forall (λ rb, map rc_name (rb_rcs rb) = map resultName (funcs ps)) blocks)
  ∧ (byFields ps ≠ [] → psp_flush psp = (FlushNil, [])).
Proof.
  intros Hreach Hshards Hbudget Hstop Hmerge.
  destruct (reachable_wf ps psp Hreach) as [Hps Hwf].
  destruct (psp_flushWith_success psp_mergeShardsParallel psp [] Hwf Hshards Hbudget Hstop
              Hmerge (Forall_nil_2 _)) as (_ & written & Hflush & Hout).
  rewrite Hps in *. fold (psp_flush psp) in Hflush. split; intros HbyFs.
  - rewrite HbyFs in Hout. simpl in Hout.
    apply Forall2_singleton_r in Hout as (blocks & -> & init & last & Hb & Hn & Hr & _).
    exists blocks. split; [exact Hflush|]. split.
    + rewrite Hr. apply emptyMatchMap_rows. rewrite HbyFs. reflexivity.
    + unfold pipeNames in Hn. rewrite HbyFs in Hn. exact Hn.
  - assert (Hz : Nat.eqb (length (byFields ps)) 0 = false).
    { destruct (byFields ps); [contradiction | reflexivity]. }
    rewrite Hz in Hout. simpl in Hout. inversion Hout; subst. exact Hflush.
Qed.

Lemma elem_of_psm_entries (psm : pipeStatsGroupMap) (r : groupRef) (psg : pipeStatsGroup) :
  (r, psg) ∈ psm_entries psm ↔ psm_lookup psm r = Some psg.
Proof.
  unfold psm_entries. rewrite !elem_of_app, !list_elem_of_fmap. split.
  - intros [([n g] & Heq & Hin) | [([n g] & Heq & Hin) | ([k g] & Heq & Hin)]];
      inversion Heq; subst; apply elem_of_map_to_list in Hin; exact Hin.
  - destruct r as [n|n|k]; simpl; intros H.
    + left. exists (n, psg). split; [reflexivity | apply elem_of_map_to_list; exact H].
    + right. left. exists (n, psg). split; [reflexivity | apply elem_of_map_to_list; exact H].
    + right. right. exists (k, psg). split; [reflexivity | apply elem_of_map_to_list; exact H].
Qed.

(** The row of a group of a well-formed map has one value per by-field and
    then one value per function. *)
Lemma psm_entries_row_lengths (ps : pipeStats) (psm : pipeStatsGroupMap) :
  psm_wf ps psm →
  Forall (λ e, length (keyValues ps e.1) = length (byFields ps)
               ∧ length (finalValues e.2) = length (funcs ps)) (psm_entries psm).
Proof.
  intros Hwf. apply Forall_forall. intros [r psg] Hin.
  apply elem_of_psm_entries in Hin. destruct (Hwf r psg Hin) as [Hg Hr]. simpl. split.
  - unfold ref_ok in Hr. unfold keyValues.
    destruct (decide (length (byFields ps) = 1%nat)) as [Hone|Hne].
    + destruct r; simpl; symmetry; exact Hone.
    + destruct r; try contradiction. destruct Hr as [values Hv]. rewrite Hv. simpl.
      exact (decodeKey_length _ _ _ Hv).
  - unfold finalValues. rewrite length_map. exact Hg.
Qed.

(** C5. Every block a flush gives to the next pipe has one column per
    by-field, named by the by-field, in the order of the declaration, and
    then one column per function, named by its [resultName], in the order of
    the declaration.  The rows of the blocks of a writer are the rows of the
    groups of its map: the values of the by-fields of the key, one per
    by-field, and then the final values of the processors, one per
    function. *)
Theorem flush_output_column_order (ps : pipeStats) (psp : pipeStatsProcessor) :
  reachable ps psp →
  ∃ maps,
    Forall2
      (λ blocks psm,
         Forall (λ rb, map rc_name (rb_rcs rb)
                       = map bf_name (byFields ps) ++ map resultName (funcs ps)) blocks
         ∧ writtenRows blocks
           = map (λ e, keyValues ps e.1 ++ finalValues e.2) (psm_entries psm)
         ∧ Forall (λ e, length (keyValues ps e.1) = length (byFields ps)
                        ∧ length (finalValues e.2) = length (funcs ps)) (psm_entries psm))
      (psp_flush psp).2 maps.
Proof.
  intros Hreach. destruct (reachable_wf ps psp Hreach) as [Hps Hwf].
  destruct (psp_flushWith_output psp_mergeShardsParallel psp Hwf) as (maps & Hmaps & Hout).
  { intros psms Hm. apply psp_mergeShardsParallel_wf; [exact Hwf | left; exact Hm]. }
  rewrite Hps in *. exists maps. fold (psp_flush psp) in Hout.
  revert Hmaps. induction Hout as [|blocks psm written maps Hb Hrest IH]; intros Hmaps;
    constructor.
  - apply Forall_cons in Hmaps as [Hpsm _].
    destruct Hb as (init & last & _ & Hn & Hr & _).
    split; [exact Hn|]. split; [exact Hr|]. apply psm_entries_row_lengths. exact Hpsm.
  - apply IH. apply Forall_cons in Hmaps as [_ Hmaps]. exact Hmaps.
Qed.


(** ** One shard: the shortcut of the merge *)

Lemma NoDup_psm_entries (psm : pipeStatsGroupMap) : NoDup (psm_entries psm).
Proof.
  unfold psm_entries.
  assert (Hinj : ∀ {K} (mk : K → groupRef), (∀ a b, mk a = mk b → a = b) →
            ∀ l : list (K * pipeStatsGroup),
              NoDup l → NoDup (map (λ '(k, psg), (mk k, psg)) l)).
  { intros K mk Hmk l Hl. apply NoDup_fmap_2_strong; [|exact Hl].
    intros [k g] [k' g'] _ _ Heq. inversion Heq as [[Hk Hg]].
    rewrite (Hmk _ _ Hk). reflexivity. }
  assert (H1 : NoDup (map (λ '(n, psg), (RefU64 n, psg)) (map_to_list (u64 psm)))).
  { apply (Hinj Z RefU64); [congruence | apply NoDup_map_to_list]. }
  assert (H2 : NoDup (map (λ '(n, psg), (RefNegative64 n, psg))
                          (map_to_list (negative64 psm)))).
  { apply (Hinj Z RefNegative64); [congruence | apply NoDup_map_to_list]. }
  assert (H3 : NoDup (map (λ '(key, psg), (RefString key, psg))
                          (map_to_list (strings psm)))).
  { apply (Hinj string RefString); [congruence | apply NoDup_map_to_list]. }
  apply NoDup_app. split; [exact H1|]. split.
  - intros [r g] Hin Hin2. apply list_elem_of_fmap in Hin as ([n g1] & Heq & _).
    inversion Heq; subst. apply elem_of_app in Hin2 as [Hin2|Hin2];
      apply list_elem_of_fmap in Hin2 as ([k g2] & Heq2 & _); inversion Heq2.
  - apply NoDup_app. split; [exact H2|]. split; [|exact H3].
    intros [r g] Hin Hin2. apply list_elem_of_fmap in Hin as ([n g1] & Heq & _).
    inversion Heq; subst.
    apply list_elem_of_fmap in Hin2 as ([k g2] & Heq2 & _); inversion Heq2.
Qed.

Lemma psm_entries_length (psm : pipeStatsGroupMap) :
  length (psm_entries psm) = psm_entriesCount psm.
Proof.
  unfold psm_entries, psm_entriesCount.
  rewrite !length_app, !length_map, !length_map_to_list. lia.
Qed.

Lemma cpuIdx_bound (r : groupRef) : (0 < cpusCount)%nat → (cpuIdx r < cpusCount)%nat.
Proof.
  intros Hc. assert (Hb : ∀ z, (Z.to_nat (z `mod` Z.of_nat cpusCount) < cpusCount)%nat).
  { intros z. assert (Hp : 0 < Z.of_nat cpusCount) by lia.
    pose proof (Z.mod_pos_bound z (Z.of_nat cpusCount) Hp) as Hm.
    revert Hm. generalize (z `mod` Z.of_nat cpusCount). intros m Hm. lia. }
  destruct r; simpl; apply Hb.
Qed.

(** The groups of the maps of the scatter of a map, taken together, are the
    groups of the map. *)
Lemma scatterShard_entries (psm : pipeStatsGroupMap) :
  (0 < cpusCount)%nat →
  concat (map psm_entries (scatterShard psm)) ≡ₚ psm_entries psm.
Proof.
  intros Hc. destruct (scatterShard_lookup psm) as [Hlen Hlook].
  rewrite <- (concat_buckets (λ e, cpuIdx e.1) cpusCount (psm_entries psm)).
  2:{ apply Forall_forall. intros e _. apply cpuIdx_bound. exact Hc. }
  rewrite <- Hlen.
  assert (Hgen : ∀ (l : list pipeStatsGroupMap) k,
            (∀ j d, l !! j = Some d →
                    psm_entries d ≡ₚ filter (λ e, cpuIdx e.1 = (k + j)%nat) (psm_entries psm)) →
            concat (map psm_entries l)
            ≡ₚ concat (map (λ j, filter (λ e, cpuIdx e.1 = j) (psm_entries psm))
                           (seq k (length l)))).
  { induction l as [|d l IH]; intros k Hl; simpl; [reflexivity|].
    rewrite (Hl 0%nat d eq_refl), Nat.add_0_r. apply Permutation_app_head.
    apply IH. intros j d' Hd'. rewrite (Hl (S j) d' Hd').
    replace (k + S j)%nat with (S k + j)%nat by lia. reflexivity. }
  apply Hgen. intros j d Hd. simpl.
  assert (Hj : (j < cpusCount)%nat) by (rewrite <- Hlen; eapply lookup_lt_Some; exact Hd).
  apply NoDup_Permutation; [apply NoDup_psm_entries | apply NoDup_filter, NoDup_psm_entries|].
  intros [r g]. rewrite list_elem_of_filter, !elem_of_psm_entries. simpl.
  specialize (Hlook j r Hj). unfold lookupAt in Hlook. rewrite Hd in Hlook. simpl in Hlook.
  rewrite Hlook. destruct (decide (cpuIdx r = j)); split; try tauto; try discriminate.
Qed.

Lemma psm_entries_nil (psm : pipeStatsGroupMap) :
  ¬ (0 < psm_entriesCount psm)%nat → psm_entries psm = [].
Proof.
  intros H. apply length_zero_iff_nil. rewrite psm_entries_length. lia.
Qed.

Lemma nonEmptyMaps_entries (psms : list pipeStatsGroupMap) :
  concat (map psm_entries (nonEmptyMaps psms)) = concat (map psm_entries psms).
Proof. apply concat_map_filter_nil. intros psm. apply psm_entries_nil. Qed.

(** The rows of the writers of a flush are the rows of the groups of their
    maps. *)
Lemma allRows_writerOutput (ps : pipeStats) (written : list (list resultBlock))
    (maps : list pipeStatsGroupMap) :
  Forall2 (writerOutput ps) written maps →
  allRows written = map (groupRow ps) (concat (map psm_entries maps)).
Proof.
  unfold allRows. induction 1 as [|blocks psm written maps Hb Hrest IH]; [reflexivity|].
  simpl. rewrite IH, map_app. f_equal.
  destruct Hb as (init & last & _ & _ & Hr & _). exact Hr.
Qed.

(** C10. With one shard, [mergeShardsParallel] returns the map of the shard
    as it is, or no map when the map is empty; and the flush through this
    shortcut ends as the flush through the scatter and the merge ends, with
    the same rows given to the next pipe up to their order. *)
Theorem one_shard_shortcut (ps : pipeStats) (psp : pipeStatsProcessor)
    (shard : pipeStatsProcessorShard) :
  reachable ps psp →
  shards psp = [shard] →
  (0 < cpusCount)%nat →
  psp_mergeShardsParallel psp
  = MergeMaps (if (0 <? psm_entriesCount (shard_m shard))%nat then [shard_m shard] else [])
  ∧ (psp_flush psp).1 = (psp_flushGeneral psp).1
  ∧ allRows (psp_flush psp).2 ≡ₚ allRows (psp_flushGeneral psp).2.
Proof.
  intros Hreach Hshards Hc. destruct (reachable_wf ps psp Hreach) as [Hps Hwf].
  assert (Hfast : psp_mergeShardsParallel psp
                  = MergeMaps (if (0 <? psm_entriesCount (shard_m shard))%nat
                               then [shard_m shard] else [])).
  { unfold psp_mergeShardsParallel. rewrite Hshards.
    destruct (0 <? psm_entriesCount (shard_m shard))%nat; reflexivity. }
  split; [exact Hfast|].
  unfold psp_flush, psp_flushGeneral.
  destruct (Z_le_gt_dec (psp_stateSizeBudget psp) 0) as [Hb|Hb].
  { unfold psp_flushWith. destruct (Z.leb_spec (psp_stateSizeBudget psp) 0); [|lia].
    destruct (budgetError psp); split; reflexivity. }
  destruct (stopCh_closed psp) eqn:Hstop.
  { unfold psp_flushWith, mergeShardsGeneral.
    destruct (Z.leb_spec (psp_stateSizeBudget psp) 0); [lia|].
    rewrite Hfast, Hstop. split; reflexivity. }
  assert (Hgeneral : mergeShardsGeneral psp
                     = MergeMaps (nonEmptyMaps (scatterShard (shard_m shard)))).
  { unfold mergeShardsGeneral. rewrite Hstop, Hshards.
    destruct (Z.ltb_spec (psp_stateSizeBudget psp) 0); [lia|]. reflexivity. }
  assert (Hne : shards psp ≠ []) by (rewrite Hshards; discriminate).
  destruct (psp_flushWith_success psp_mergeShardsParallel psp _ Hwf Hne ltac:(lia) Hstop Hfast)
    as (_ & wf & Hff & Hof).
  { apply psp_mergeShardsParallel_wf; [exact Hwf | left; exact Hfast]. }
  destruct (psp_flushWith_success mergeShardsGeneral psp _ Hwf Hne ltac:(lia) Hstop Hgeneral)
    as (_ & wg & Hfg & Hog).
  { apply psp_mergeShardsParallel_wf; [exact Hwf | right; exact Hgeneral]. }
  rewrite Hff, Hfg. split; [reflexivity|]. simpl.
  rewrite (allRows_writerOutput _ _ _ Hof), (allRows_writerOutput _ _ _ Hog).
  apply fmap_Permutation.
  pose proof (scatterShard_entries (shard_m shard) Hc) as Hperm.
  rewrite <- nonEmptyMaps_entries in Hperm.
  destruct (Nat.ltb_spec 0 (psm_entriesCount (shard_m shard))) as [Hpos|Hzero].
  - assert (Hg : nonEmptyMaps (scatterShard (shard_m shard)) ≠ []).
    { intros Hnil. rewrite Hnil in Hperm. simpl in Hperm.
      apply Permutation_nil_l in Hperm. apply (f_equal length) in Hperm.
      rewrite psm_entries_length in Hperm. simpl in Hperm. lia. }
    assert (Hlen : Nat.eqb (length (nonEmptyMaps (scatterShard (shard_m shard)))) 0 = false).
    { destruct (nonEmptyMaps (scatterShard (shard_m shard))); [contradiction | reflexivity]. }
    simpl. rewrite Hlen, !andb_false_r. simpl. rewrite app_nil_r. symmetry. exact Hperm.
  - assert (Hg : nonEmptyMaps (scatterShard (shard_m shard)) = []).
    { rewrite psm_entries_nil in Hperm by lia.
      apply Permutation_nil_r in Hperm.
      destruct (nonEmptyMaps (scatterShard (shard_m shard))) as [|d l] eqn:Hd; [reflexivity|].
      assert (Hin : d ∈ nonEmptyMaps (scatterShard (shard_m shard)))
        by (rewrite Hd; apply list_elem_of_here).
      unfold nonEmptyMaps in Hin. apply list_elem_of_filter in Hin as [Hpos _].
      simpl in Hperm. apply app_eq_nil in Hperm as [Hnil _].
      apply (f_equal length) in Hnil. rewrite psm_entries_length in Hnil. simpl in Hnil. lia. }
    rewrite Hg. reflexivity.
Qed.

End EngineFacts.

(** ** The result names of the parser *)

Section ParserFacts.
Context `{PAPI : ParserAPI}.





End ParserFacts.

(** ** The properties at the inputs above *)

(** Evaluates both sides of an equation; the goal as a whole is left alone,
    the types of the instance hold functions that are not to be unfolded. *)
Ltac evaluate_sides :=
  match goal with
  | |- ?l = ?r =>
      let x := eval vm_compute in l in
      let y := eval vm_compute in r in
      change (x = y); reflexivity
  end.

Lemma iff_filter_selects_rows_witness :
  br_wf ex_block
  ∧ sfps ex_group !! 1%nat = Some 0
  ∧ (psg_updateStatsForAllRows
       (shard_bms (shard_applyPerFunctionFilters ex_block ex_shard_debt)) ex_block
       ex_group).1.(sfps) !! 1%nat = Some 2.
Proof.
  assert (Hwf : br_wf ex_block) by reflexivity.
  assert (Hi : sfps ex_group !! 1%nat = Some 0) by reflexivity.
  split; [exact Hwf|]. split; [exact Hi|].
  exact (proj1 (iff_filter_selects_rows (API := countAPI) ex_shard_debt ex_block ex_group
                  1 0 Hwf Hi)).
Defined.

Lemma writeBlock_budget_protocol_witness :
  rowsLen ex_block ≠ 0%nat
  ∧ shards ex_psp_debt !! 0%nat = Some ex_shard_debt
  ∧ int64_range (psp_stateSizeBudget ex_psp_debt)
  ∧ int64_range (shard_stateSizeBudget ex_shard_debt)
  ∧ psp_writeBlock 0 ex_block ex_psp_debt
    = {| psp_ps := ex_ps_by; stopCh_closed := false; cancelCalls := 1;
         shards := [ex_shard_debt]; maxStateSize := 100000000;
         psp_stateSizeBudget := -1048476 |}.
Proof.
  assert (H1 : rowsLen ex_block ≠ 0%nat) by discriminate.
  assert (H2 : shards ex_psp_debt !! 0%nat = Some ex_shard_debt) by reflexivity.
  assert (H3 : int64_range (psp_stateSizeBudget ex_psp_debt))
    by (unfold int64_range; simpl; lia).
  assert (H4 : int64_range (shard_stateSizeBudget ex_shard_debt))
    by (unfold int64_range; simpl; lia).
  repeat (split; [assumption|]).
  destruct (writeBlock_budget_protocol (API := countAPI) 0 ex_block ex_psp_debt ex_shard_debt
              H1 H2 H3 H4) as [Hexhausted _].
  apply Hexhausted; reflexivity.
Defined.

Lemma writeBlock_zero_rows_noop_witness :
  rowsLen ex_emptyBlock = 0%nat ∧ psp_writeBlock 0 ex_emptyBlock ex_psp_by = ex_psp_by.
Proof.
  split; [reflexivity|].
  apply (writeBlock_zero_rows_noop (API := countAPI) 0 ex_emptyBlock ex_psp_by). reflexivity.
Defined.

Lemma flush_budget_error_witness :
  psp_stateSizeBudget ex_psp_noBudget <= 0
  ∧ funcs (psp_ps ex_psp_noBudget) ≠ []
  ∧ ∃ pipeString,
      ps_String (psp_ps ex_psp_noBudget) = Some pipeString
      ∧ psp_flush ex_psp_noBudget
        = (FlushError ("cannot calculate [" +:+ pipeString +:+
                       "], since it requires more than " +:+
                       pretty (Z.quot (maxStateSize ex_psp_noBudget) (2 ^ 20)) +:+
                       "MB of memory"),
           []).
Proof.
  assert (H1 : psp_stateSizeBudget ex_psp_noBudget <= 0) by (simpl; lia).
  assert (H2 : funcs (psp_ps ex_psp_noBudget) ≠ []) by discriminate.
  split; [exact H1|]. split; [exact H2|].
  exact (flush_budget_error (API := countAPI) ex_psp_noBudget H1 H2).
Defined.

Lemma flush_empty_match_witness :
  reachable ex_ps_count ex_psp_fresh
  ∧ shards ex_psp_fresh ≠ []
  ∧ 0 < psp_stateSizeBudget ex_psp_fresh
  ∧ stopCh_closed ex_psp_fresh = false
  ∧ psp_mergeShardsParallel ex_psp_fresh = MergeMaps []
  ∧ ∃ blocks,
      psp_flush ex_psp_fresh = (FlushNil, [blocks])
      ∧ writtenRows blocks
        = [map (λ fn, sfp_finalizeStats (newStatsProcessor (f fn)).1 false)
               (funcs ex_ps_count)]
      ∧ Forall (λ rb, map rc_name (rb_rcs rb) = map resultName (funcs ex_ps_count)) blocks.
Proof.
  assert (H1 : reachable ex_ps_count ex_psp_fresh) by apply reach_new.
  assert (H2 : shards ex_psp_fresh ≠ []) by discriminate.
  assert (H3 : 0 < psp_stateSizeBudget ex_psp_fresh) by reflexivity.
  assert (H4 : stopCh_closed ex_psp_fresh = false) by reflexivity.
  assert (H5 : psp_mergeShardsParallel ex_psp_fresh = MergeMaps []) by evaluate_sides.
  repeat (split; [assumption|]).
  exact (proj1 (flush_empty_match (API := countAPI) ex_ps_count ex_psp_fresh H1 H2 H3 H4 H5)
           eq_refl).
Defined.

Lemma ex_psp_by_reachable : reachable ex_ps_by ex_psp_by.
Proof. apply reach_writeBlock, reach_new. Qed.

Lemma flush_output_column_order_witness :
  reachable ex_ps_by ex_psp_by
  ∧ ∃ maps,
      Forall2
        (λ blocks (psm : @pipeStatsGroupMap countAPI),
           Forall (λ rb, map rc_name (rb_rcs rb)
                         = map bf_name (byFields ex_ps_by) ++ map resultName (funcs ex_ps_by))
                  blocks
           ∧ writtenRows blocks
             = map (λ e, keyValues ex_ps_by e.1 ++ finalValues e.2) (psm_entries psm)
           ∧ Forall (λ e, length (keyValues ex_ps_by e.1) = length (byFields ex_ps_by)
                          ∧ length (finalValues e.2) = length (funcs ex_ps_by))
                    (psm_entries psm))
        (psp_flush ex_psp_by).2 maps.
Proof.
  split; [exact ex_psp_by_reachable|].
  exact (flush_output_column_order (API := countAPI) ex_ps_by ex_psp_by ex_psp_by_reachable).
Defined.



Lemma one_shard_shortcut_witness :
  reachable ex_ps_by ex_psp_by
  ∧ shards ex_psp_by = [ex_shard_by]
  ∧ (0 < @cpusCount countAPI)%nat
  ∧ psp_mergeShardsParallel ex_psp_by
    = MergeMaps (if (0 <? psm_entriesCount (shard_m ex_shard_by))%nat
                 then [shard_m ex_shard_by] else [])
  ∧ (psp_flush ex_psp_by).1 = (psp_flushGeneral ex_psp_by).1
  ∧ allRows (psp_flush ex_psp_by).2 ≡ₚ allRows (psp_flushGeneral ex_psp_by).2.
Proof.
  assert (H2 : shards ex_psp_by = [ex_shard_by]) by evaluate_sides.
  assert (H3 : (0 < @cpusCount countAPI)%nat) by (simpl; lia).
  split; [exact ex_psp_by_reachable|]. split; [exact H2|]. split; [exact H3|].
  exact (one_shard_shortcut (API := countAPI) ex_ps_by ex_psp_by ex_shard_by
           ex_psp_by_reachable H2 H3).
Defined.


(** The fourth scenario of the specification: without input,
    [stats count() as n] gives the one row [n=0] and
    [stats by (x) count() as n] gives no row. *)
Example flush_count_without_input :
  psp_flush ex_psp_fresh
  = (FlushNil, [[{| rb_rowsLen := 1; rb_rcs := [{| rc_name := "n"; rc_values := ["0"] |}] |}]])
  ∧ psp_flush (API := countAPI) (newPipeProcessor ex_ps_x 2 false 100000000)
    = (FlushNil, []).
Proof. split; vm_compute; reflexivity. Qed.

(** The parser on the two collisions of result names. *)
Example parse_identical_result_names :
  parsePipeStats (PAPI := tokParserAPI) 10
    ["stats"; "count"; "("; ")"; ","; "count"; "("; ")"] true
  = ParseErr "cannot use identical result name: count(*)".
Proof. evaluate_sides. Qed.

Example parse_result_name_of_by_field :
  parsePipeStats (PAPI := tokParserAPI) 10
    ["stats"; "by"; "("; "x"; ")"; "count"; "("; ")"; "as"; "x"] true
  = ParseErr "the result name is used as 'by' field: x".
Proof. evaluate_sides. Qed.

(** The first scenario of the specification with [count]: two groups, the
    rows [metric=a c=2 c200=1] and [metric=b c=1 c200=1]. *)
Example flush_by_metric :
  psp_flush ex_psp_by
  = (FlushNil,
     [[{| rb_rowsLen := 2;
          rb_rcs := [{| rc_name := "metric"; rc_values := ["a"; "b"] |};
                     {| rc_name := "c"; rc_values := ["2"; "1"] |};
                     {| rc_name := "c200"; rc_values := ["1"; "1"] |}] |}]]).
Proof. vm_compute. reflexivity. Qed.

(** The keys ["7"], ["-7"], ["-0"] and ["x7"] of a single by-field. *)
Example keySubMap_examples :
  keySubMap "7" = RefU64 7
  ∧ keySubMap "-7" = RefNegative64 (2 ^ 64 - 7)
  ∧ keySubMap "-0" = RefNegative64 0
  ∧ keySubMap "x7" = RefString "x7".
Proof. repeat split; vm_compute; reflexivity. Qed.

(** * Further properties *)

(** ** [addByTimeField] *)

Section PipeOpsFacts.
Context `{API : StatsAPI}.

Lemma addByTimeField_loop_spec (step : Z) (fs : list byStatsField) :
  ∀ dstFields hasByTime,
    addByTimeField_loop step fs dstFields hasByTime
    = (dstFields ++ map (λ bf, if bool_decide (bf_name bf = "_time")
                               then byTimeField step else bf) fs,
       hasByTime || existsb (λ bf, bool_decide (bf_name bf = "_time")) fs).
Proof.
  induction fs as [|bf fs IH]; intros dstFields hasByTime; simpl.
  - rewrite app_nil_r, orb_false_r. reflexivity.
  - destruct (bool_decide (bf_name bf = "_time")); rewrite IH, <- app_assoc; simpl.
    + rewrite orb_true_r. reflexivity.
    + reflexivity.
Qed.

Lemma existsb_time_name (fs : list byStatsField) :
  existsb (λ bf, bool_decide (bf_name bf = "_time")) fs = true
  ↔ "_time" ∈ map bf_name fs.
Proof.
  rewrite existsb_exists, list_elem_of_fmap. split.
  - intros (bf & Hin & Hn). apply bool_decide_eq_true in Hn.
    exists bf. split; [symmetry; exact Hn | apply list_elem_of_In; exact Hin].
  - intros (bf & Hn & Hin). exists bf.
    split; [apply list_elem_of_In; exact Hin | apply bool_decide_eq_true; symmetry; exact Hn].
Qed.

(** The by-fields after [addByTimeField] with a step above zero. *)
Lemma addByTimeField_byFields (step : Z) (ps : pipeStats) :
  0 < step →
  byFields (addByTimeField step ps)
  = map (λ bf, if bool_decide (bf_name bf = "_time") then byTimeField step else bf)
        (byFields ps)
    ++ (if existsb (λ bf, bool_decide (bf_name bf = "_time")) (byFields ps)
        then [] else [byTimeField step])
  ∧ funcs (addByTimeField step ps) = funcs ps.
Proof.
  intros Hstep. unfold addByTimeField.
  destruct (Z.leb_spec step 0) as [|_]; [lia|].
  rewrite addByTimeField_loop_spec. simpl.
  destruct (existsb _ (byFields ps)); simpl; [rewrite app_nil_r|]; split; reflexivity.
Qed.

Lemma addByTimeField_names (step : Z) (ps : pipeStats) :
  0 < step →
  map bf_name (byFields (addByTimeField step ps))
  = map bf_name (byFields ps)
    ++ (if decide ("_time" ∈ map bf_name (byFields ps)) then [] else ["_time"]).
Proof.
  intros Hstep. destruct (addByTimeField_byFields step ps Hstep) as [-> _].
  rewrite map_app, map_map. f_equal.
  - apply map_ext. intros bf. case_bool_decide as Hn; [|reflexivity].
    simpl. symmetry. exact Hn.
  - pose proof (existsb_time_name (byFields ps)) as Hex.
    destruct (existsb _ (byFields ps)); destruct (decide _) as [Hin|Hin]; try reflexivity.
    + exfalso. apply Hin, Hex. reflexivity.
    + apply Hex in Hin. discriminate.
Qed.

(** X1. [addByTimeField] with a step at zero or below leaves the pipe as it
    is.  With a step above zero it leaves the functions as they are, every
    by-field named [_time] becomes the by-field [_time:step] without offset
    (a bucket size or an offset the query gave for [_time] is dropped),
    every other by-field stays where it is, and [_time:step] is appended
    when the pipe had no by-field named [_time]. *)
Theorem addByTimeField_by_fields (step : Z) (ps : pipeStats) :
  (step <= 0 → addByTimeField step ps = ps)
  ∧ (0 < step →
     funcs (addByTimeField step ps) = funcs ps
     ∧ map bf_name (byFields (addByTimeField step ps))
       = map bf_name (byFields ps)
         ++ (if decide ("_time" ∈ map bf_name (byFields ps)) then [] else ["_time"])
     ∧ "_time" ∈ map bf_name (byFields (addByTimeField step ps))
     ∧ (∀ bf, bf ∈ byFields (addByTimeField step ps) → bf_name bf = "_time" →
          bf = {| bf_name := "_time"; bucketSizeStr := pretty step; bucketOffsetStr := "" |})
     ∧ (∀ i bf, byFields ps !! i = Some bf → bf_name bf ≠ "_time" →
          byFields (addByTimeField step ps) !! i = Some bf)).
Proof.
  split.
  - intros Hstep. unfold addByTimeField.
    destruct (Z.leb_spec step 0); [reflexivity | lia].
  - intros Hstep. destruct (addByTimeField_byFields step ps Hstep) as [HbyFs Hfuncs].
    split; [exact Hfuncs|]. split; [apply addByTimeField_names; exact Hstep|].
    split; [|split].
    + rewrite addByTimeField_names by exact Hstep.
      destruct (decide ("_time" ∈ map bf_name (byFields ps))) as [Hin|Hin].
      * rewrite app_nil_r. exact Hin.
      * apply elem_of_app. right. apply list_elem_of_singleton. reflexivity.
    + intros bf Hin Hname. rewrite HbyFs in Hin. apply elem_of_app in Hin as [Hin|Hin].
      * apply list_elem_of_fmap in Hin as (bf0 & -> & _).
        case_bool_decide as Hn; [reflexivity|]. contradiction.
      * destruct (existsb _ (byFields ps)); [inversion Hin|].
        apply list_elem_of_singleton in Hin. exact Hin.
    + intros i bf Hi Hname. rewrite HbyFs.
      rewrite lookup_app_l by (rewrite length_map; eapply lookup_lt_Some; exact Hi).
      rewrite list_lookup_fmap, Hi. simpl.
      rewrite bool_decide_eq_false_2 by exact Hname. reflexivity.
Qed.

(** X2. [addByTimeField] applied twice with the same step gives what it
    gives applied once. *)
Theorem addByTimeField_idempotent (step : Z) (ps : pipeStats) :
  addByTimeField step (addByTimeField step ps) = addByTimeField step ps.
Proof.
  destruct (Z_le_gt_dec step 0) as [Hle|Hgt].
  - unfold addByTimeField. destruct (Z.leb_spec step 0); [reflexivity | lia].
  - assert (Hstep : 0 < step) by lia.
    destruct (addByTimeField_byFields step (addByTimeField step ps) Hstep) as [H2 Hf2].
    destruct (addByTimeField_byFields step ps Hstep) as [H1 Hf1].
    assert (Hfix : ∀ l : list byStatsField,
              Forall (λ bf, bf_name bf = "_time" → bf = byTimeField step) l →
              map (λ bf, if bool_decide (bf_name bf = "_time") then byTimeField step else bf) l
              = l).
    { induction 1 as [|bf l Hbf Hl IH]; simpl; [reflexivity|].
      rewrite IH. case_bool_decide as Hn; [rewrite (Hbf Hn)|]; reflexivity. }
    assert (Hall : Forall (λ bf, bf_name bf = "_time" → bf = byTimeField step)
                     (byFields (addByTimeField step ps))).
    { rewrite H1. apply Forall_app. split.
      - apply Forall_forall. intros bf Hin Hname.
        apply list_elem_of_fmap in Hin as (bf0 & -> & _).
        case_bool_decide as Hn; [reflexivity | contradiction].
      - destruct (existsb _ (byFields ps)); [constructor|].
        constructor; [reflexivity | constructor]. }
    assert (Hhas : existsb (λ bf, bool_decide (bf_name bf = "_time"))
                     (byFields (addByTimeField step ps)) = true).
    { apply existsb_time_name. rewrite addByTimeField_names by exact Hstep.
      destruct (decide ("_time" ∈ map bf_name (byFields ps))) as [Hin|Hin].
      - rewrite app_nil_r. exact Hin.
      - apply elem_of_app. right. apply list_elem_of_singleton. reflexivity. }
    rewrite Hhas, app_nil_r, (Hfix _ Hall) in H2.
    destruct (addByTimeField step (addByTimeField step ps)) as [b2 f2].
    destruct (addByTimeField step ps) as [b1 f1]. simpl in *. congruence.
Qed.

(** X3. For a step above zero, no result name of the pipe after
    [addByTimeField] is the name of one of its by-fields exactly when this
    held of the pipe before and no function has the result name [_time]. *)
Theorem addByTimeField_result_names (step : Z) (ps : pipeStats) :
  0 < step →
  (∀ fn bf, fn ∈ funcs (addByTimeField step ps) → bf ∈ byFields (addByTimeField step ps) →
            resultName fn ≠ bf_name bf)
  ↔ (∀ fn bf, fn ∈ funcs ps → bf ∈ byFields ps → resultName fn ≠ bf_name bf)
    ∧ "_time" ∉ map resultName (funcs ps).
Proof.
  intros Hstep. destruct (addByTimeField_byFields step ps Hstep) as [_ Hfuncs].
  pose proof (addByTimeField_names step ps Hstep) as Hnames.
  rewrite Hfuncs.
  assert (Hmem : ∀ name, (∃ bf, bf ∈ byFields (addByTimeField step ps) ∧ bf_name bf = name)
                         ↔ name ∈ map bf_name (byFields ps) ∨ name = "_time").
  { intros name.
    assert (Hex : (∃ bf, bf ∈ byFields (addByTimeField step ps) ∧ bf_name bf = name)
                  ↔ name ∈ map bf_name (byFields (addByTimeField step ps))).
    { rewrite list_elem_of_fmap. split; intros (bf & H1 & H2); exists bf; auto. }
    rewrite Hex, Hnames, elem_of_app.
    destruct (decide ("_time" ∈ map bf_name (byFields ps))) as [Hin|Hin].
    - split; [intros [H|H]; [left; exact H | inversion H]|].
      intros [H| ->]; left; assumption.
    - rewrite list_elem_of_singleton. tauto. }
  split.
  - intros Hno. split.
    + intros fn bf Hfn Hbf Heq.
      destruct (proj2 (Hmem (bf_name bf))) as (bf' & Hbf' & Hn').
      { left. apply list_elem_of_fmap. exists bf. auto. }
      apply (Hno fn bf' Hfn Hbf'). congruence.
    + intros Hin. apply list_elem_of_fmap in Hin as (fn & Hn & Hfn).
      destruct (proj2 (Hmem "_time")) as (bf' & Hbf' & Hn'); [right; reflexivity|].
      apply (Hno fn bf' Hfn Hbf'). congruence.
  - intros [Hno Htime] fn bf Hfn Hbf Heq.
    destruct (proj1 (Hmem (bf_name bf))) as [Hin| Hin]; [exists bf; auto| |].
    + apply list_elem_of_fmap in Hin as (bf0 & Hn0 & Hbf0).
      apply (Hno fn bf0 Hfn Hbf0). congruence.
    + apply Htime. apply list_elem_of_fmap. exists fn. split; [congruence | exact Hfn].
Qed.

End PipeOpsFacts.

(** ** Lookups in the group map *)

Section GroupMapFacts.
Context `{API : StatsAPI}.

Lemma psm_entriesCount_store (psm : pipeStatsGroupMap) (r : groupRef) (psg : pipeStatsGroup) :
  psm_entriesCount (psm_store psm r psg)
  = (psm_entriesCount psm + if psm_lookup psm r is Some _ then 0 else 1)%nat.
Proof.
  unfold psm_entriesCount.
  destruct r as [n|n|key]; simpl.
  - destruct (u64 psm !! n) as [g|] eqn:Hn.
    + rewrite map_size_insert_Some by (exists g; exact Hn). lia.
    + rewrite map_size_insert_None by exact Hn. lia.
  - destruct (negative64 psm !! n) as [g|] eqn:Hn.
    + rewrite map_size_insert_Some by (exists g; exact Hn). lia.
    + rewrite map_size_insert_None by exact Hn. lia.
  - destruct (strings psm !! key) as [g|] eqn:Hn.
    + rewrite map_size_insert_Some by (exists g; exact Hn). lia.
    + rewrite map_size_insert_None by exact Hn. lia.
Qed.

(** A lookup at a place that holds a group changes nothing; a second lookup
    at the same place is such a lookup. *)
Lemma psm_getAt_hit (r : groupRef) (keyBytes : Z) (sh : pipeStatsProcessorShard) :
  is_Some (psm_lookup (shard_m sh) r) → psm_getAt r keyBytes sh = (sh, r).
Proof. intros [psg Hr]. unfold psm_getAt. rewrite Hr. reflexivity. Qed.

Lemma psm_getAt_twice (r : groupRef) (keyBytes keyBytes' : Z) (sh : pipeStatsProcessorShard) :
  psm_getAt r keyBytes' (psm_getAt r keyBytes sh).1 = psm_getAt r keyBytes sh.
Proof.
  destruct (psm_getAt_spec r keyBytes sh) as (Hr & Hsome & _).
  rewrite (psm_getAt_hit r keyBytes' _ Hsome).
  destruct (psm_getAt r keyBytes sh) as [sh1 r1]. simpl in *. congruence.
Qed.

Lemma psm_getAt_entriesCount (r : groupRef) (keyBytes : Z) (sh : pipeStatsProcessorShard) :
  psm_entriesCount (shard_m (psm_getAt r keyBytes sh).1)
  = (psm_entriesCount (shard_m sh) + if psm_lookup (shard_m sh) r is Some _ then 0 else 1)%nat.
Proof.
  unfold psm_getAt. destruct (psm_lookup (shard_m sh) r) as [psg|] eqn:Hr; simpl.
  - lia.
  - rewrite psm_addGroup_m, psm_entriesCount_store, Hr. reflexivity.
Qed.

(** X4. A lookup of a group by the value of a by-field
    ([getPipeStatsGroupGeneric]) or by an [int64] of a typed column
    ([getPipeStatsGroupInt64]) that finds the group leaves the shard, its
    budget included, as it is; a lookup that does not find it adds exactly
    one group to the map; and the same lookup once more returns the same
    group and changes nothing. *)
Theorem getPipeStatsGroup_found_or_added (key : string) (n : Z)
    (sh : pipeStatsProcessorShard) :
  let hit := psm_getPipeStatsGroupGeneric key sh in
  let hitInt := psm_getPipeStatsGroupInt64 n sh in
  (is_Some (psm_lookup (shard_m sh) hit.2) → hit.1 = sh)
  ∧ psm_entriesCount (shard_m hit.1)
    = (psm_entriesCount (shard_m sh)
       + if psm_lookup (shard_m sh) hit.2 is Some _ then 0 else 1)%nat
  ∧ psm_getPipeStatsGroupGeneric key hit.1 = hit
  ∧ (is_Some (psm_lookup (shard_m sh) hitInt.2) → hitInt.1 = sh)
  ∧ psm_entriesCount (shard_m hitInt.1)
    = (psm_entriesCount (shard_m sh)
       + if psm_lookup (shard_m sh) hitInt.2 is Some _ then 0 else 1)%nat
  ∧ psm_getPipeStatsGroupInt64 n hitInt.1 = hitInt.
Proof.
  intros hit hitInt. subst hit hitInt.
  assert (Hat : ∀ r kb,
            (is_Some (psm_lookup (shard_m sh) (psm_getAt r kb sh).2) → (psm_getAt r kb sh).1 = sh)
            ∧ psm_entriesCount (shard_m (psm_getAt r kb sh).1)
              = (psm_entriesCount (shard_m sh)
                 + if psm_lookup (shard_m sh) (psm_getAt r kb sh).2 is Some _ then 0 else 1)%nat).
  { intros r kb. destruct (psm_getAt_spec r kb sh) as (Hr & _). rewrite Hr. split.
    - intros Hsome. rewrite (psm_getAt_hit r kb sh Hsome). reflexivity.
    - apply psm_getAt_entriesCount. }
  split; [|split; [|split; [|split; [|split]]]].
  - destruct (psm_getPipeStatsGroupGeneric_getAt key sh) as [kb ->]. apply Hat.
  - destruct (psm_getPipeStatsGroupGeneric_getAt key sh) as [kb ->]. apply Hat.
  - destruct (psm_getPipeStatsGroupGeneric_getAt key sh) as [kb Hkb]. rewrite Hkb.
    destruct (psm_getPipeStatsGroupGeneric_getAt key (psm_getAt (keySubMap key) kb sh).1)
      as [kb' ->].
    apply psm_getAt_twice.
  - rewrite psm_getPipeStatsGroupInt64_getAt. apply Hat.
  - rewrite psm_getPipeStatsGroupInt64_getAt. apply Hat.
  - rewrite !psm_getPipeStatsGroupInt64_getAt. apply psm_getAt_twice.
Qed.

Lemma wrap64_sub_wrap64 (a b : Z) : wrap64 (wrap64 a - b) = wrap64 (a - b).
Proof.
  unfold wrap64.
  replace ((a + 2 ^ 63) `mod` 2 ^ 64 - 2 ^ 63 - b + 2 ^ 63)
    with ((a + 2 ^ 63) `mod` 2 ^ 64 - b) by lia.
  rewrite Zminus_mod_idemp_l. f_equal. f_equal. lia.
Qed.

Lemma newStatsProcessors_from_snd (fs : list pipeStatsFunc) :
  ∀ budget c,
    wrap64 ((newStatsProcessors_from fs budget).2 - c)
    = wrap64 (budget - (foldr (λ fn n, (newStatsProcessor (f fn)).2 + n) 0 fs + c)).
Proof.
  induction fs as [|fn fs IH]; intros budget c; simpl.
  - f_equal; lia.
  - destruct (newStatsProcessor (f fn)) as [sfp bytes] eqn:Hn.
    specialize (IH (wrap64 (budget - bytes)) c).
    destruct (newStatsProcessors_from fs (wrap64 (budget - bytes))) as [rest b'].
    simpl in *. rewrite IH, wrap64_sub_wrap64. f_equal. lia.
Qed.

(** X5. A lookup that does not find the group takes from the budget of the
    shard, in 64-bit arithmetic, the bytes the new processors took from the
    allocator, 8 bytes for the pointer to the group, 16 bytes for every
    function, and for the key 8 bytes in the integer maps and the length of
    the key plus 16 bytes in the string map. *)
Theorem new_group_budget (n : Z) (key : string) (sh : pipeStatsProcessorShard) :
  (u64 (shard_m sh) !! n = None →
     shard_stateSizeBudget (psm_getPipeStatsGroupUint64 n sh).1
     = wrap64 (shard_stateSizeBudget sh - (newGroupBytes (shard_ps sh) + 8)))
  ∧ (negative64 (shard_m sh) !! to_uint64 n = None →
     shard_stateSizeBudget (psm_getPipeStatsGroupNegativeInt64 n sh).1
     = wrap64 (shard_stateSizeBudget sh - (newGroupBytes (shard_ps sh) + 8)))
  ∧ (strings (shard_m sh) !! key = None →
     shard_stateSizeBudget (psm_getPipeStatsGroupString key sh).1
     = wrap64 (shard_stateSizeBudget sh
               - (newGroupBytes (shard_ps sh) + (Z.of_nat (String.length key) + 16)))).
Proof.
  assert (Hadd : ∀ r kb,
            shard_stateSizeBudget (psm_addGroup r kb sh)
            = wrap64 (shard_stateSizeBudget sh - (newGroupBytes (shard_ps sh) + kb))).
  { intros r kb. unfold psm_addGroup, psm_newPipeStatsGroup, newGroupBytes.
    pose proof (newStatsProcessors_from_snd (funcs (shard_ps sh)) (shard_stateSizeBudget sh)
                  (8 + 16 * Z.of_nat (length (funcs (shard_ps sh))) + kb)) as Hsnd.
    pose proof (newStatsProcessors_from_fst (funcs (shard_ps sh)) (shard_stateSizeBudget sh))
      as Hfst.
    destruct (newStatsProcessors_from (funcs (shard_ps sh)) (shard_stateSizeBudget sh))
      as [ps' b']. simpl in *. subst ps'.
    rewrite length_map, wrap64_sub_wrap64.
    replace (b' - (8 + 16 * Z.of_nat (length (funcs (shard_ps sh)))) - kb)
      with (b' - (8 + 16 * Z.of_nat (length (funcs (shard_ps sh))) + kb)) by lia.
    rewrite Hsnd. f_equal. lia. }
  split; [|split].
  - intros Hn. unfold psm_getPipeStatsGroupUint64. rewrite Hn. simpl. apply Hadd.
  - intros Hn. unfold psm_getPipeStatsGroupNegativeInt64. rewrite Hn. simpl. apply Hadd.
  - intros Hn. unfold psm_getPipeStatsGroupString. rewrite Hn. simpl. apply Hadd.
Qed.

End GroupMapFacts.

(** ** The row loops of the write path *)

Section RowLoopFacts.
Context `{API : StatsAPI}.

Lemma getsAt_generic : getsAt psm_getPipeStatsGroupGeneric keySubMap.
Proof. intros v sh. apply psm_getPipeStatsGroupGeneric_getAt. Qed.

Lemma getsAt_uint64 (unmarshal : string → Z) :
  getsAt (λ v, psm_getPipeStatsGroupUint64 (unmarshal v)) (λ v, RefU64 (unmarshal v)).
Proof. intros v sh. exists 8. reflexivity. Qed.

Lemma getsAt_int64 (unmarshal : string → Z) :
  getsAt (λ v, psm_getPipeStatsGroupInt64 (unmarshal v))
         (λ v, if 0 <=? unmarshal v then RefU64 (to_uint64 (unmarshal v))
               else RefNegative64 (to_uint64 (unmarshal v))).
Proof. intros v sh. exists 8. apply psm_getPipeStatsGroupInt64_getAt. Qed.

Lemma getsAt_tuple :
  getsAt (λ tuple, psm_getPipeStatsGroupString (marshalKey tuple))
         (λ tuple, RefString (marshalKey tuple)).
Proof. intros v sh. eexists. apply psm_getPipeStatsGroupString_getAt. Qed.

Lemma psm_getAt_keys (r : groupRef) (keyBytes : Z) (sh : pipeStatsProcessorShard)
    (r' : groupRef) :
  is_Some (psm_lookup (shard_m (psm_getAt r keyBytes sh).1) r')
  ↔ is_Some (psm_lookup (shard_m sh) r') ∨ r' = r.
Proof.
  destruct (psm_getAt_spec r keyBytes sh) as (_ & Hsome & Hother & _).
  destruct (decide (r' = r)) as [->|Hne].
  - split; [right; reflexivity | intros _; exact Hsome].
  - rewrite (Hother r' Hne). split; [left; assumption | intros [H|H]; [exact H | contradiction]].
Qed.

(** An update through the pointer to a group adds no group and removes
    none. *)
Lemma shard_updateStatsForRow_keys (r : groupRef) (br : blockResult) (i : nat)
    (sh : pipeStatsProcessorShard) (r' : groupRef) :
  is_Some (psm_lookup (shard_m (shard_updateStatsForRow r br i sh)) r')
  ↔ is_Some (psm_lookup (shard_m sh) r').
Proof.
  unfold shard_updateStatsForRow.
  destruct (psm_lookup (shard_m sh) r) as [psg|] eqn:Hr; [|reflexivity].
  destruct (psg_updateStatsForRow (shard_bms sh) br i psg) as [psg' n]. simpl.
  rewrite psm_lookup_store. destruct (decide (r = r')) as [<-|Hne]; [|reflexivity].
  rewrite Hr. split; intros _; eexists; reflexivity.
Qed.

Lemma shard_updateStatsForAllRows_keys (r : groupRef) (br : blockResult)
    (sh : pipeStatsProcessorShard) (r' : groupRef) :
  is_Some (psm_lookup (shard_m (shard_updateStatsForAllRows r br sh)) r')
  ↔ is_Some (psm_lookup (shard_m sh) r').
Proof.
  unfold shard_updateStatsForAllRows.
  destruct (psm_lookup (shard_m sh) r) as [psg|] eqn:Hr; [|reflexivity].
  destruct (psg_updateStatsForAllRows (shard_bms sh) br psg) as [psg' n]. simpl.
  rewrite psm_lookup_store. destruct (decide (r = r')) as [<-|Hne]; [|reflexivity].
  rewrite Hr. split; intros _; eexists; reflexivity.
Qed.

(** The places of the groups after a row loop: those of before and those of
    the values of the rows. *)
Lemma shard_updateRuns_keys {K : Type} `{EqDecision K}
    (getGroup : K → pipeStatsProcessorShard → pipeStatsProcessorShard * groupRef)
    (mk : K → groupRef) (br : blockResult) (values : list K) :
  getsAt getGroup mk →
  ∀ i prev sh r',
    (∀ pv r, prev = Some (pv, r) → r = mk pv ∧ is_Some (psm_lookup (shard_m sh) r)) →
    is_Some (psm_lookup (shard_m (shard_updateRuns getGroup br values i prev sh)) r')
    ↔ is_Some (psm_lookup (shard_m sh) r') ∨ ∃ v, v ∈ values ∧ r' = mk v.
Proof.
  intros Hget. induction values as [|v values IH]; intros i prev sh r' Hprev; simpl.
  - split; [left; assumption|]. intros [H|(v & Hin & _)]; [exact H | inversion Hin].
  - assert (Hstep : ∀ sh1 r1,
              r1 = mk v → is_Some (psm_lookup (shard_m sh1) r1) →
              (is_Some (psm_lookup (shard_m sh1) r') ↔
               is_Some (psm_lookup (shard_m sh) r') ∨ r' = mk v) →
              is_Some (psm_lookup
                         (shard_m (shard_updateRuns getGroup br values (S i) (Some (v, r1))
                                     (shard_updateStatsForRow r1 br i sh1))) r')
              ↔ is_Some (psm_lookup (shard_m sh) r') ∨ ∃ v0, v0 ∈ v :: values ∧ r' = mk v0).
    { intros sh1 r1 Hr1 Hsome Hkeys. rewrite IH.
      - rewrite shard_updateStatsForRow_keys, Hkeys. split.
        + intros [[H|H]|(v0 & Hin & H)]; [left; exact H | right; exists v | right; exists v0];
            (split; [|assumption]); [left | right; exact Hin].
        + intros [H|(v0 & Hin & H)]; [left; left; exact H|].
          apply elem_of_cons in Hin as [->|Hin]; [left; right; exact H|].
          right. exists v0. auto.
      - intros pv r [= <- <-]. split; [exact Hr1|].
        apply shard_updateStatsForRow_keys. exact Hsome. }
    assert (Hmiss : let '(sh1, r1) := getGroup v sh in
              r1 = mk v ∧ is_Some (psm_lookup (shard_m sh1) r1)
              ∧ (is_Some (psm_lookup (shard_m sh1) r') ↔
                 is_Some (psm_lookup (shard_m sh) r') ∨ r' = mk v)).
    { destruct (Hget v sh) as [kb ->].
      destruct (psm_getAt_spec (mk v) kb sh) as (Hr & Hsome & _).
      pose proof (psm_getAt_keys (mk v) kb sh r') as Hkeys.
      destruct (psm_getAt (mk v) kb sh) as [sh1 r1]. simpl in *. subst r1. auto. }
    destruct prev as [[pv r]|].
    + destruct (decide (pv = v)) as [->|Hne].
      * destruct (Hprev v r eq_refl) as [Hr Hsome]. apply Hstep; [exact Hr | exact Hsome|].
        split; [left; assumption|]. intros [H| ->]; [exact H | rewrite <- Hr; exact Hsome].
      * destruct (getGroup v sh) as [sh1 r1]. destruct Hmiss as (H1 & H2 & H3).
        apply Hstep; assumption.
    + destruct (getGroup v sh) as [sh1 r1]. destruct Hmiss as (H1 & H2 & H3).
      apply Hstep; assumption.
Qed.

(** The row loop that looks the group up only when the value differs from
    the value of the row before ends as the loop that looks it up for every
    row. *)
Lemma shard_updateRuns_everyRow {K : Type} `{EqDecision K}
    (getGroup : K → pipeStatsProcessorShard → pipeStatsProcessorShard * groupRef)
    (mk : K → groupRef) (br : blockResult) (values : list K) :
  getsAt getGroup mk →
  ∀ i prev sh,
    (∀ pv r, prev = Some (pv, r) → r = mk pv ∧ is_Some (psm_lookup (shard_m sh) r)) →
    shard_updateRuns getGroup br values i prev sh
    = shard_updateEveryRow getGroup br values i sh.
Proof.
  intros Hget. induction values as [|v values IH]; intros i prev sh Hprev; simpl;
    [reflexivity|].
  assert (Hmiss : let '(sh1, r1) := getGroup v sh in
            r1 = mk v ∧ is_Some (psm_lookup (shard_m sh1) r1)).
  { destruct (Hget v sh) as [kb ->].
    destruct (psm_getAt_spec (mk v) kb sh) as (Hr & Hsome & _).
    destruct (psm_getAt (mk v) kb sh) as [sh1 r1]. simpl in *. subst r1. auto. }
  assert (Hnext : ∀ sh1 r1, r1 = mk v → is_Some (psm_lookup (shard_m sh1) r1) →
            shard_updateRuns getGroup br values (S i) (Some (v, r1))
              (shard_updateStatsForRow r1 br i sh1)
            = shard_updateEveryRow getGroup br values (S i)
                (shard_updateStatsForRow r1 br i sh1)).
  { intros sh1 r1 Hr1 Hsome. apply IH. intros pv r [= <- <-]. split; [exact Hr1|].
    apply shard_updateStatsForRow_keys. exact Hsome. }
  destruct prev as [[pv r]|].
  - destruct (decide (pv = v)) as [->|Hne].
    + destruct (Hprev v r eq_refl) as [Hr Hsome].
      destruct (Hget v sh) as [kb Hkb]. rewrite Hkb.
      rewrite psm_getAt_hit by (rewrite <- Hr; exact Hsome).
      rewrite <- Hr. apply Hnext; [exact Hr | exact Hsome].
    + destruct (getGroup v sh) as [sh1 r1]. destruct Hmiss. apply Hnext; assumption.
  - destruct (getGroup v sh) as [sh1 r1]. destruct Hmiss. apply Hnext; assumption.
Qed.

(** X6. In every row loop of the write path (the generic loop and the loops
    over typed columns of [updateStatsSingleColumn], the loop over composite
    keys of [writeBlock]), looking the group up only when the value of the
    by-fields differs from the value of the row before gives the shard that
    a lookup for every row gives. *)
Theorem row_loop_skips_lookups (br : blockResult) (values : list string)
    (tuples : list (list string)) (unmarshal : string → Z) (i : nat)
    (sh : pipeStatsProcessorShard) :
  shard_updateRuns psm_getPipeStatsGroupGeneric br values i None sh
  = shard_updateEveryRow psm_getPipeStatsGroupGeneric br values i sh
  ∧ shard_updateRuns (λ v, psm_getPipeStatsGroupUint64 (unmarshal v)) br values i None sh
    = shard_updateEveryRow (λ v, psm_getPipeStatsGroupUint64 (unmarshal v)) br values i sh
  ∧ shard_updateRuns (λ v, psm_getPipeStatsGroupInt64 (unmarshalInt64 v)) br values i None sh
    = shard_updateEveryRow (λ v, psm_getPipeStatsGroupInt64 (unmarshalInt64 v)) br values i sh
  ∧ shard_updateRuns (λ tuple, psm_getPipeStatsGroupString (marshalKey tuple)) br tuples i
      None sh
    = shard_updateEveryRow (λ tuple, psm_getPipeStatsGroupString (marshalKey tuple)) br
        tuples i sh.
Proof.
  split; [|split; [|split]].
  - apply (shard_updateRuns_everyRow _ _ br values getsAt_generic). intros pv r [=].
  - apply (shard_updateRuns_everyRow _ _ br values (getsAt_uint64 unmarshal)). intros pv r [=].
  - apply (shard_updateRuns_everyRow _ _ br values (getsAt_int64 unmarshalInt64)).
    intros pv r [=].
  - apply (shard_updateRuns_everyRow _ _ br tuples getsAt_tuple). intros pv r [=].
Qed.

End RowLoopFacts.

(** ** The groups of a shard after [writeBlock] *)

Section WriteBlockFacts.
Context `{API : StatsAPI}.

Lemma areConstValues_lookup (values : list string) (i : nat) (w : string) :
  areConstValues values = true → values !! i = Some w → values !! 0%nat = Some w.
Proof.
  destruct values as [|v rest]; [discriminate|]. simpl. intros Hall Hi.
  destruct i as [|i]; [exact Hi|]. simpl in Hi.
  rewrite forallb_forall in Hall.
  specialize (Hall w (proj1 (list_elem_of_In _ _) (list_elem_of_lookup_2 _ _ _ Hi))).
  apply bool_decide_eq_true in Hall. congruence.
Qed.

Lemma rowTuple_const (columnValues : list (list string)) (n i : nat) :
  forallb areConstValues columnValues = true →
  Forall (λ values, length values = n) columnValues → (i < n)%nat →
  rowTuple columnValues i = rowTuple columnValues 0.
Proof.
  intros Hconst Hlen Hi. unfold rowTuple. apply map_ext_in. intros values Hin.
  rewrite forallb_forall in Hconst. specialize (Hconst values Hin).
  rewrite Forall_forall in Hlen.
  specialize (Hlen values (proj2 (list_elem_of_In _ _) Hin)).
  destruct (lookup_lt_is_Some_2 values i) as [w Hw]; [lia|].
  rewrite Hw, (areConstValues_lookup values i w Hconst Hw). reflexivity.
Qed.

Lemma shard_applyPerFunctionFilters_m (br : blockResult) (sh : pipeStatsProcessorShard) :
  shard_m (shard_applyPerFunctionFilters br sh) = shard_m sh
  ∧ shard_ps (shard_applyPerFunctionFilters br sh) = shard_ps sh.
Proof. split; reflexivity. Qed.

(** A lookup and the update of all the rows through the group found. *)
Lemma getAt_updateAll_keys (r : groupRef) (keyBytes : Z) (br : blockResult)
    (sh : pipeStatsProcessorShard) (r' : groupRef) :
  is_Some (psm_lookup
             (shard_m (shard_updateStatsForAllRows (psm_getAt r keyBytes sh).2 br
                         (psm_getAt r keyBytes sh).1)) r')
  ↔ is_Some (psm_lookup (shard_m sh) r') ∨ r' = r.
Proof. rewrite shard_updateStatsForAllRows_keys. apply psm_getAt_keys. Qed.

(** X7. [shard.writeBlock] for a pipe without by-fields or with two and
    more by-fields, on a block with rows whose by-columns hold one value per
    row: afterwards the string map of the shard holds a group at the
    composite key of the by-values of every row of the block and at every
    key it held before, and at no other key; the fast path for constant
    columns and the loop over the rows agree on this. *)
Theorem writeBlock_groups_of_rows (br : blockResult) (sh : pipeStatsProcessorShard)
    (r : groupRef) :
  length (byFields (shard_ps sh)) ≠ 1%nat →
  (0 < rowsLen br)%nat →
  Forall (λ values, length values = rowsLen br) (byColumnValues (shard_ps sh) br) →
  is_Some (psm_lookup (shard_m (shard_writeBlock br sh)) r)
  ↔ is_Some (psm_lookup (shard_m sh) r)
    ∨ ∃ i, (i < rowsLen br)%nat
           ∧ r = RefString (marshalKey (rowTuple (byColumnValues (shard_ps sh) br) i)).
Proof.
  intros Hne Hrows Hlen. unfold shard_writeBlock, byColumnValues in *.
  destruct (shard_applyPerFunctionFilters_m br sh) as [Hm Hps].
  revert Hm Hps. generalize (shard_applyPerFunctionFilters br sh). intros sh1 Hm Hps.
  rewrite <- Hm.
  destruct (byFields (shard_ps sh)) as [|bf [|bf2 byFs]] eqn:HbyFs.
  - rewrite psm_getPipeStatsGroupString_getAt.
    pose proof (getAt_updateAll_keys (RefString "") (Z.of_nat (String.length "") + 16) br sh1 r)
      as Hkeys.
    destruct (psm_getAt (RefString "") _ sh1) as [sh2 psg]. simpl in Hkeys. rewrite Hkeys.
    split; (intros [H|H]; [left; exact H | right]).
    + exists 0%nat. split; [exact Hrows | exact H].
    + destruct H as (i & _ & H). exact H.
  - simpl in Hne. lia.
  - set (columnValues := map _ (bf :: bf2 :: byFs)) in *.
    destruct (forallb areConstValues columnValues) eqn:Hconst.
    + rewrite psm_getPipeStatsGroupString_getAt.
      pose proof (getAt_updateAll_keys (RefString (marshalKey (rowTuple columnValues 0)))
                    (Z.of_nat (String.length (marshalKey (rowTuple columnValues 0))) + 16)
                    br sh1 r) as Hkeys.
      destruct (psm_getAt (RefString (marshalKey (rowTuple columnValues 0))) _ sh1)
        as [sh2 psg]. simpl in Hkeys. rewrite Hkeys.
      split; (intros [H|H]; [left; exact H | right]).
      * exists 0%nat. split; [exact Hrows | exact H].
      * destruct H as (i & Hi & ->).
        rewrite (rowTuple_const columnValues (rowsLen br) i Hconst Hlen Hi). reflexivity.
    + rewrite (shard_updateRuns_keys _ _ br _ getsAt_tuple) by (intros pv r0 [=]).
      split; (intros [H|H]; [left; exact H | right]).
      * destruct H as (t & Hin & ->). apply list_elem_of_fmap in Hin as (i & -> & Hi).
        apply elem_of_seq in Hi. exists i. split; [lia | reflexivity].
      * destruct H as (i & Hi & ->). exists (rowTuple columnValues i).
        split; [|reflexivity]. apply list_elem_of_fmap. exists i.
        split; [reflexivity | apply elem_of_seq; lia].
Qed.

(** [shard.writeBlock] removes no group. *)
Lemma shard_writeBlock_keeps (br : blockResult) (sh : pipeStatsProcessorShard) (r : groupRef) :
  is_Some (psm_lookup (shard_m sh) r) →
  is_Some (psm_lookup (shard_m (shard_writeBlock br sh)) r).
Proof.
  intros Hr. unfold shard_writeBlock.
  destruct (shard_applyPerFunctionFilters_m br sh) as [Hm _].
  revert Hm. generalize (shard_applyPerFunctionFilters br sh). intros sh1 Hm.
  rewrite <- Hm in Hr. clear Hm.
  assert (Hall : ∀ r0 kb,
            is_Some (psm_lookup
                       (shard_m (shard_updateStatsForAllRows (psm_getAt r0 kb sh1).2 br
                                   (psm_getAt r0 kb sh1).1)) r)).
  { intros r0 kb. apply getAt_updateAll_keys. left. exact Hr. }
  assert (Hruns : ∀ {K : Type} `{EqDecision K} getGroup (mk : K → groupRef) values,
            getsAt getGroup mk →
            is_Some (psm_lookup (shard_m (shard_updateRuns getGroup br values 0 None sh1)) r)).
  { intros K HK getGroup mk values Hget.
    apply (shard_updateRuns_keys getGroup mk br values Hget); [intros pv r0 [=]|].
    left. exact Hr. }
  destruct (byFields (shard_ps sh)) as [|bf [|bf2 byFs]].
  - rewrite psm_getPipeStatsGroupString_getAt.
    specialize (Hall (RefString "") (Z.of_nat (String.length "") + 16)).
    destruct (psm_getAt (RefString "") _ sh1). exact Hall.
  - unfold shard_updateStatsSingleColumn.
    destruct (c_isConst (getColumnByName br (bf_name bf))).
    + destruct (psm_getPipeStatsGroupGeneric_getAt
                  (getBucketedValue br
                     (default "" (c_valuesEncoded (getColumnByName br (bf_name bf)) !! 0%nat)) bf)
                  sh1) as [kb Hkb].
      rewrite Hkb. specialize (Hall (keySubMap
        (getBucketedValue br
           (default "" (c_valuesEncoded (getColumnByName br (bf_name bf)) !! 0%nat)) bf)) kb).
      destruct (psm_getAt _ kb sh1). exact Hall.
    + destruct (hasBucketConfig bf); [apply (Hruns _ _ _ _ _ getsAt_generic)|].
      destruct (c_valueType (getColumnByName br (bf_name bf)));
        try apply (Hruns _ _ _ _ _ getsAt_generic);
        try apply (Hruns _ _ _ _ _ (getsAt_uint64 _));
        apply (Hruns _ _ _ _ _ (getsAt_int64 _)).
  - destruct (forallb areConstValues _).
    + rewrite psm_getPipeStatsGroupString_getAt.
      match goal with
      | |- context [psm_getAt ?r0 ?kb sh1] => specialize (Hall r0 kb); destruct (psm_getAt r0 kb sh1)
      end.
      exact Hall.
    + apply (Hruns _ _ _ _ _ getsAt_tuple).
Qed.

(** X8. A call of [writeBlock] leaves the shards of the other workers, the
    number of shards, the pipe, [maxStateSize] and the state of [stopCh] as
    they are. *)
Theorem writeBlock_touches_one_shard (workerID other : nat) (br : blockResult)
    (psp : pipeStatsProcessor) :
  other ≠ workerID →
  shards (psp_writeBlock workerID br psp) !! other = shards psp !! other
  ∧ length (shards (psp_writeBlock workerID br psp)) = length (shards psp)
  ∧ psp_ps (psp_writeBlock workerID br psp) = psp_ps psp
  ∧ maxStateSize (psp_writeBlock workerID br psp) = maxStateSize psp
  ∧ stopCh_closed (psp_writeBlock workerID br psp) = stopCh_closed psp.
Proof.
  intros Hne. unfold psp_writeBlock.
  destruct (Nat.eqb (rowsLen br) 0); [repeat split|].
  destruct (shards psp !! workerID) as [shard|]; [|repeat split].
  destruct (stealBudget _ _); simpl;
    (split; [apply list_lookup_insert_ne; congruence|]);
    (split; [apply length_insert|]); repeat split.
Qed.

(** X9. A call of [writeBlock] removes no group from any shard: a key that
    holds a group before the call holds a group after it. *)
Theorem writeBlock_keeps_groups (workerID w : nat) (br : blockResult)
    (psp : pipeStatsProcessor) (sh : pipeStatsProcessorShard) (r : groupRef) :
  shards psp !! w = Some sh →
  is_Some (psm_lookup (shard_m sh) r) →
  ∃ sh', shards (psp_writeBlock workerID br psp) !! w = Some sh'
         ∧ is_Some (psm_lookup (shard_m sh') r).
Proof.
  intros Hw Hr. unfold psp_writeBlock.
  destruct (Nat.eqb (rowsLen br) 0); [exists sh; auto|].
  destruct (shards psp !! workerID) as [shard|] eqn:Hshard; [|exists sh; auto].
  destruct (decide (w = workerID)) as [->|Hne].
  - assert (shard = sh) by congruence. subst shard.
    assert (Hlt : (workerID < length (shards psp))%nat) by (eapply lookup_lt_Some; exact Hw).
    destruct (stealBudget _ _) as [g l c | g l]; simpl;
      rewrite list_lookup_insert_eq by exact Hlt; eexists; (split; [reflexivity|]).
    + exact Hr.
    + apply shard_writeBlock_keeps. exact Hr.
  - destruct (stealBudget _ _) as [g l c | g l]; simpl;
      rewrite list_lookup_insert_ne by congruence; exists sh; auto.
Qed.

End WriteBlockFacts.

(** ** The budget over a call of [writeBlock] and the result of [flush] *)

Section BudgetFacts.
Context `{API : StatsAPI}.

(** What the loop at the head of [writeBlock] does to the two counters, when
    no subtraction wraps around: whole chunks move from the global counter to
    the local one, as few as bring the local counter to zero or above; when
    the global counter runs out, the chunk taken last is lost to both. *)
Lemma stealBudget_chunks (global local : Z) :
  - 2 ^ 63 + stateSizeBudgetChunk <= global < 2 ^ 63 →
  int64_range local →
  match stealBudget global local with
  | BudgetReady g l =>
      ∃ k, 0 <= k ∧ g = global - k * stateSizeBudgetChunk
           ∧ l = local + k * stateSizeBudgetChunk
           ∧ 0 <= l ∧ (local < 0 → l < stateSizeBudgetChunk ∧ 0 <= g)
           ∧ (0 <= local → k = 0)
  | BudgetExhausted g l c =>
      ∃ k, 0 <= k ∧ g = global - (k + 1) * stateSizeBudgetChunk
           ∧ l = local + k * stateSizeBudgetChunk
           ∧ l < 0 ∧ g < 0
           ∧ c = bool_decide (0 <= g + stateSizeBudgetChunk)
  end.
Proof.
  funelim (stealBudget global local); intros Hg Hl; clear Heqcall;
    repeat match goal with H : decide _ = _ |- _ => clear H end;
    rewrite chunk_value in *; unfold int64_range in *.
  - exists 0. repeat split; lia.
  - assert (Hw : wrap64 (global - 1048576) = global - 1048576)
      by (apply wrap64_id; unfold int64_range; lia).
    rewrite Hw in *.
    replace (global - 1048576 + 1048576) with global by lia.
    rewrite (wrap64_id global) by (unfold int64_range; lia).
    exists 0. repeat split; lia.
  - assert (Hw : wrap64 (global - 1048576) = global - 1048576)
      by (apply wrap64_id; unfold int64_range; lia).
    assert (Hw2 : wrap64 (local + 1048576) = local + 1048576)
      by (apply wrap64_id; unfold int64_range; lia).
    rewrite Hw, Hw2 in *.
    specialize (H ltac:(lia) ltac:(lia)).
    destruct (stealBudget (global - 1048576) (local + 1048576)) as [g0 l0 c0 | g0 l0].
    + destruct H as (k & Hk & Hg0 & Hl0 & Hneg & Hgneg & Hc).
      exists (k + 1). repeat split; try lia. exact Hc.
    + destruct H as (k & Hk & Hg0 & Hl0 & Hpos & Hsmall & Hzero).
      exists (k + 1). repeat split; lia.
Qed.

(** X10. The loop at the head of [writeBlock], for counters away from the
    ends of [int64]: it moves whole chunks of [1<<20] bytes from the global
    counter to the local counter of the shard, as few as bring the local
    counter to zero or above, so that the sum of the two counters stays as
    it was and the local counter ends below one chunk; when the global
    counter falls below zero first, the local counter stays below zero, the
    chunk taken last is lost, and [cancel()] is called exactly when the
    global counter was at zero or above before. *)
Theorem writeBlock_moves_whole_chunks (global local : Z) :
  - 2 ^ 63 + stateSizeBudgetChunk <= global < 2 ^ 63 →
  int64_range local →
  match stealBudget global local with
  | BudgetReady g l =>
      g + l = global + local
      ∧ 0 <= l
      ∧ (∃ k, 0 <= k ∧ l = local + k * stateSizeBudgetChunk)
      ∧ (local < 0 → l < stateSizeBudgetChunk ∧ 0 <= g)
      ∧ (0 <= local → g = global ∧ l = local)
  | BudgetExhausted g l c =>
      g + l = global + local - stateSizeBudgetChunk
      ∧ l < 0 ∧ g < 0
      ∧ (∃ k, 0 <= k ∧ l = local + k * stateSizeBudgetChunk)
      ∧ c = bool_decide (0 <= g + stateSizeBudgetChunk)
  end.
Proof.
  intros Hg Hl. pose proof (stealBudget_chunks global local Hg Hl) as H.
  destruct (stealBudget global local) as [g l c | g l].
  - destruct H as (k & Hk & Hg0 & Hl0 & Hneg & Hgneg & Hc).
    split; [lia|]. split; [exact Hneg|]. split; [exact Hgneg|].
    split; [exists k; auto | exact Hc].
  - destruct H as (k & Hk & Hg0 & Hl0 & Hpos & Hsmall & Hzero).
    split; [lia|]. split; [exact Hpos|]. split; [exists k; auto|].
    split; [exact Hsmall|]. intros H0. rewrite (Hzero H0) in *. lia.
Qed.

Lemma psp_flush_no_budget (psp : pipeStatsProcessor) :
  psp_stateSizeBudget psp <= 0 → funcs (psp_ps psp) ≠ [] →
  ∃ msg, budgetError psp = Some msg ∧ psp_flush psp = (FlushError msg, []).
Proof.
  intros Hb Hf. unfold psp_flush, psp_flushWith.
  destruct (Z.leb_spec (psp_stateSizeBudget psp) 0); [|lia].
  unfold budgetError, ps_String.
  destruct (funcs (psp_ps psp)); [contradiction|]. eexists. split; reflexivity.
Qed.

(** X11. A block with rows is never dropped without a trace: a call of
    [writeBlock] either hands the block to the shard of the worker, with the
    local counter of the shard at zero or above, or leaves the global
    counter below zero, and then the flush right after it returns the error
    of the budget and gives nothing to the next pipe. *)
Theorem writeBlock_processes_or_flush_fails (workerID : nat) (br : blockResult)
    (psp : pipeStatsProcessor) (shard : pipeStatsProcessorShard) :
  rowsLen br ≠ 0%nat →
  shards psp !! workerID = Some shard →
  funcs (psp_ps psp) ≠ [] →
  (∃ local, 0 <= local
            ∧ shards (psp_writeBlock workerID br psp)
              = <[workerID := shard_writeBlock br (shard_with_budget local shard)]>
                  (shards psp))
  ∨ (shard_m <$> shards (psp_writeBlock workerID br psp) = shard_m <$> shards psp
     ∧ ∃ msg, budgetError (psp_writeBlock workerID br psp) = Some msg
              ∧ psp_flush (psp_writeBlock workerID br psp) = (FlushError msg, [])).
Proof.
  intros Hrows Hw Hf.
  pose proof (psp_writeBlock_ps workerID br psp) as Hps.
  rewrite (psp_writeBlock_unfold workerID br psp shard Hrows Hw) in *.
  pose proof (stealBudget_end (psp_stateSizeBudget psp) (shard_stateSizeBudget shard)) as Hend.
  destruct (stealBudget _ _) as [g l c | g l].
  - right. split.
    + simpl. rewrite list_fmap_insert. simpl. apply list_insert_id.
      rewrite list_lookup_fmap, Hw. reflexivity.
    + apply psp_flush_no_budget; [simpl; lia | rewrite Hps; exact Hf].
  - left. exists l. split; [exact Hend | reflexivity].
Qed.

Lemma psp_mergeShardsParallel_stopped (psp : pipeStatsProcessor) :
  stopCh_closed psp = true → ∃ psms, psp_mergeShardsParallel psp = MergeMaps psms.
Proof.
  intros Hstop. unfold psp_mergeShardsParallel, mergeShardsGeneral. rewrite Hstop.
  destruct (shards psp) as [|shard [|shard2 rest]]; try (eexists; reflexivity).
  destruct (0 <? psm_entriesCount (shard_m shard))%nat; eexists; reflexivity.
Qed.

(** X12. A flush after [stopCh] is closed, with the global counter above
    zero, returns nil and gives nothing to the next pipe, whatever the
    shards hold. *)
Theorem flush_after_stop (psp : pipeStatsProcessor) :
  stopCh_closed psp = true →
  0 < psp_stateSizeBudget psp →
  psp_flush psp = (FlushNil, []).
Proof.
  intros Hstop Hb. unfold psp_flush, psp_flushWith.
  destruct (Z.leb_spec (psp_stateSizeBudget psp) 0); [lia|].
  destruct (psp_mergeShardsParallel_stopped psp Hstop) as [psms ->].
  rewrite Hstop. reflexivity.
Qed.

(** X13. What [flush] returns in a state of a run of a pipe with at least
    one function and a processor with at least one shard, on a machine with
    at least one CPU: the error of the
    budget, with nothing given to the next pipe, when the global counter is
    at zero or below, and nil otherwise.  None of the panics of [flush], of
    [mergeShardsParallel] and of the stats writer is reached. *)
Theorem flush_result (ps : pipeStats) (psp : pipeStatsProcessor) :
  reachable ps psp →
  funcs ps ≠ [] →
  shards psp ≠ [] →
  (0 < cpusCount)%nat →
  (psp_stateSizeBudget psp <= 0 →
     ∃ msg, budgetError psp = Some msg ∧ psp_flush psp = (FlushError msg, []))
  ∧ (0 < psp_stateSizeBudget psp → (psp_flush psp).1 = FlushNil)
  ∧ (psp_flush psp).1 ≠ FlushPanic.
Proof.
  intros Hreach Hf Hshards _. destruct (reachable_wf ps psp Hreach) as [Hps Hwf].
  assert (Hlow : psp_stateSizeBudget psp <= 0 →
            ∃ msg, budgetError psp = Some msg ∧ psp_flush psp = (FlushError msg, [])).
  { intros Hb. apply psp_flush_no_budget; [exact Hb | rewrite Hps; exact Hf]. }
  assert (Hhigh : 0 < psp_stateSizeBudget psp → (psp_flush psp).1 = FlushNil).
  { intros Hb. destruct (stopCh_closed psp) eqn:Hstop.
    - unfold psp_flush, psp_flushWith.
      destruct (Z.leb_spec (psp_stateSizeBudget psp) 0); [lia|].
      destruct (psp_mergeShardsParallel_stopped psp Hstop) as [psms ->].
      rewrite Hstop. reflexivity.
    - destruct (psp_mergeShardsParallel_total psp Hshards Hb Hstop) as [psms Hm].
      destruct (psp_flushWith_success psp_mergeShardsParallel psp psms Hwf Hshards Hb Hstop Hm)
        as (_ & written & Hflush & _).
      { apply psp_mergeShardsParallel_wf; [exact Hwf | left; exact Hm]. }
      unfold psp_flush. rewrite Hflush. reflexivity. }
  split; [exact Hlow|]. split; [exact Hhigh|].
  destruct (Z_le_gt_dec (psp_stateSizeBudget psp) 0) as [Hb|Hb].
  - destruct (Hlow Hb) as (msg & _ & ->). discriminate.
  - rewrite Hhigh by lia. discriminate.
Qed.

End BudgetFacts.

(** ** The merge of the shards *)

Section MergeFacts.
Context `{API : StatsAPI}.

Lemma psm_lookup_entriesCount (psm : pipeStatsGroupMap) (r : groupRef) (psg : pipeStatsGroup) :
  psm_lookup psm r = Some psg → (0 < psm_entriesCount psm)%nat.
Proof.
  intros Hr. apply elem_of_psm_entries in Hr. rewrite <- psm_entries_length.
  destruct (psm_entries psm); [inversion Hr | simpl; lia].
Qed.

Lemma mergedAcross_cons (psm : pipeStatsGroupMap) (psms : list pipeStatsGroupMap)
    (r : groupRef) :
  mergedAcross (psm :: psms) r
  = foldl (λ acc m, mergedGroup acc (psm_lookup m r)) (psm_lookup psm r) psms.
Proof. reflexivity. Qed.

Lemma foldl_mergedGroup_is_Some (psms : list pipeStatsGroupMap) (r : groupRef) :
  ∀ start,
    is_Some (foldl (λ acc m, mergedGroup acc (psm_lookup m r)) start psms)
    ↔ is_Some start ∨ ∃ psm, psm ∈ psms ∧ is_Some (psm_lookup psm r).
Proof.
  induction psms as [|m psms IH]; intros start; simpl.
  - split; [left; assumption|]. intros [H|(psm & Hin & _)]; [exact H | inversion Hin].
  - rewrite IH. split.
    + intros [H|(psm & Hin & H)].
      * destruct start as [d|]; [left; eexists; reflexivity|].
        right. exists m. split; [left | exact H].
      * right. exists psm. split; [right; exact Hin | exact H].
    + intros [[d ->]|(psm & Hin & H)].
      * left. destruct (psm_lookup m r); eexists; reflexivity.
      * apply elem_of_cons in Hin as [->|Hin].
        -- left. destruct H as [s ->]. destruct start; eexists; reflexivity.
        -- right. exists psm. auto.
Qed.

(** A key holds a group in the merge of some maps exactly when it holds one
    in one of the maps. *)
Lemma mergedAcross_is_Some (psms : list pipeStatsGroupMap) (r : groupRef) :
  is_Some (mergedAcross psms r) ↔ ∃ psm, psm ∈ psms ∧ is_Some (psm_lookup psm r).
Proof.
  unfold mergedAcross. rewrite foldl_mergedGroup_is_Some. split.
  - intros [[x H]|H]; [discriminate | exact H].
  - intros H. right. exact H.
Qed.

(** The maps of the CPUs after the merge of the scattered maps of [ms] into
    [acc]: the map of CPU [j] holds, for every key that hashes to [j], the
    groups of [acc] and of [ms] at the key, merged in this order. *)
Lemma merged_lookup (ms : list pipeStatsGroupMap) :
  ∀ (acc : list pipeStatsGroupMap) (A : groupRef → option pipeStatsGroup),
    length acc = cpusCount →
    (∀ j r, (j < cpusCount)%nat →
       lookupAt acc j r = if decide (cpuIdx r = j) then A r else None) →
    let merged := foldl (λ acc perCPU, zip_with (psm_mergeState false) acc perCPU)
                        acc (map scatterShard ms) in
    length merged = cpusCount
    ∧ ∀ j r, (j < cpusCount)%nat →
        lookupAt merged j r
        = if decide (cpuIdx r = j)
          then foldl (λ a m, mergedGroup a (psm_lookup m r)) (A r) ms
          else None.
Proof.
  induction ms as [|m ms IH]; intros acc A Hlen Hacc; simpl.
  - split; assumption.
  - destruct (scatterShard_lookup m) as [Hslen Hs].
    apply (IH _ (λ r, mergedGroup (A r) (psm_lookup m r))).
    + rewrite length_zip_with. lia.
    + intros j r Hj. unfold lookupAt. rewrite lookup_zip_with.
      specialize (Hacc j r Hj). specialize (Hs j r Hj). unfold lookupAt in Hacc, Hs.
      destruct (acc !! j) as [a|] eqn:Ha.
      2:{ apply lookup_ge_None in Ha. lia. }
      destruct (scatterShard m !! j) as [s|] eqn:Hsj.
      2:{ apply lookup_ge_None in Hsj. lia. }
      change (psm_lookup (psm_mergeState false a s) r
              = if decide (cpuIdx r = j) then mergedGroup (A r) (psm_lookup m r) else None).
      change (psm_lookup a r = if decide (cpuIdx r = j) then A r else None) in Hacc.
      change (psm_lookup s r = if decide (cpuIdx r = j) then psm_lookup m r else None) in Hs.
      rewrite psm_mergeState_lookup, Hacc, Hs.
      destruct (decide (cpuIdx r = j)); reflexivity.
Qed.

Lemma filter_none {A : Type} (P : A → Prop) `{∀ x, Decision (P x)} (l : list A) :
  (∀ x, x ∈ l → ¬ P x) → filter P l = [].
Proof.
  induction l as [|x l IH]; intros Hno; [reflexivity|].
  rewrite filter_cons. destruct (decide (P x)) as [Hx|Hx].
  - destruct (Hno x (list_elem_of_here _ _) Hx).
  - apply IH. intros y Hy. apply Hno. right. exact Hy.
Qed.

Lemma filter_at_most_one {A : Type} (P : A → Prop) `{∀ x, Decision (P x)} (l : list A) :
  ∀ j, (∀ i x, l !! i = Some x → P x → i = j) → (length (filter P l) <= 1)%nat.
Proof.
  induction l as [|x l IH]; intros j Hj; [simpl; lia|].
  rewrite filter_cons. destruct (decide (P x)) as [Hx|Hx].
  - assert (j = 0%nat) by (symmetry; apply (Hj 0%nat x eq_refl Hx)). subst j.
    rewrite (filter_none P l); [simpl; lia|].
    intros y Hy HPy. apply list_elem_of_lookup in Hy as [i Hi].
    specialize (Hj (S i) y Hi HPy). discriminate.
  - apply (IH (pred j)). intros i y Hi HPy. specialize (Hj (S i) y Hi HPy). lia.
Qed.

Lemma length_filter_filter {A : Type} (P Q : A → Prop) `{∀ x, Decision (P x)}
    `{∀ x, Decision (Q x)} (l : list A) :
  (length (filter P (filter Q l)) <= length (filter P l))%nat.
Proof.
  induction l as [|x l IH]; [simpl; lia|].
  rewrite (filter_cons Q). destruct (decide (Q x)).
  - rewrite !(filter_cons P). destruct (decide (P x)); simpl; lia.
  - rewrite (filter_cons P). destruct (decide (P x)); simpl; lia.
Qed.

(** What [mergeShardsParallel] returns for a processor with a shard, when
    [stopCh] is open and the global counter is not below zero. *)
Lemma psp_mergeShardsParallel_spec (psp : pipeStatsProcessor) :
  (0 < cpusCount)%nat →
  shards psp ≠ [] →
  stopCh_closed psp = false →
  0 <= psp_stateSizeBudget psp →
  ∃ psms,
    psp_mergeShardsParallel psp = MergeMaps psms
    ∧ Forall (λ psm, (0 < psm_entriesCount psm)%nat) psms
    ∧ (∀ r psg, (∃ psm, psm ∈ psms ∧ psm_lookup psm r = Some psg)
                ↔ mergedAcross (map shard_m (shards psp)) r = Some psg)
    ∧ (∀ r, (length (filter (λ psm, is_Some (psm_lookup psm r)) psms) <= 1)%nat).
Proof.
  intros Hc Hshards Hstop Hb.
  assert (Hgen : ∀ shard rest, shards psp = shard :: rest →
            ∃ psms,
              mergeShardsGeneral psp = MergeMaps psms
              ∧ Forall (λ psm, (0 < psm_entriesCount psm)%nat) psms
              ∧ (∀ r psg, (∃ psm, psm ∈ psms ∧ psm_lookup psm r = Some psg)
                          ↔ mergedAcross (map shard_m (shards psp)) r = Some psg)
              ∧ (∀ r, (length (filter (λ psm, is_Some (psm_lookup psm r)) psms) <= 1)%nat)).
  { intros shard rest Hsh. unfold mergeShardsGeneral. rewrite Hstop, Hsh.
    destruct (Z.ltb_spec (psp_stateSizeBudget psp) 0); [lia|]. simpl map.
    destruct (scatterShard_lookup (shard_m shard)) as [Hl0 H0].
    rewrite <- (map_map shard_m scatterShard rest).
    destruct (merged_lookup (map shard_m rest) (scatterShard (shard_m shard))
                (psm_lookup (shard_m shard)) Hl0 H0) as [Hlen Hlook].
    set (merged := foldl _ (scatterShard (shard_m shard)) (map scatterShard (map shard_m rest)))
      in *.
    exists (nonEmptyMaps merged). split; [reflexivity|]. split; [|split].
    - apply Forall_forall. intros psm Hin. unfold nonEmptyMaps in Hin.
      apply list_elem_of_filter in Hin as [Hpos _]. exact Hpos.
    - intros r psg. rewrite mergedAcross_cons. split.
      + intros (psm & Hin & Hr). unfold nonEmptyMaps in Hin.
        apply list_elem_of_filter in Hin as [_ Hin].
        apply list_elem_of_lookup in Hin as [j Hj].
        assert (Hjlt : (j < cpusCount)%nat) by (rewrite <- Hlen; eapply lookup_lt_Some; exact Hj).
        specialize (Hlook j r Hjlt). unfold lookupAt in Hlook. rewrite Hj in Hlook.
        simpl in Hlook. rewrite Hr in Hlook.
        destruct (decide (cpuIdx r = j)); [symmetry; exact Hlook | discriminate].
      + intros Hr. pose proof (cpuIdx_bound r Hc) as Hj.
        destruct (lookup_lt_is_Some_2 merged (cpuIdx r)) as [psm Hpsm]; [lia|].
        specialize (Hlook (cpuIdx r) r Hj). unfold lookupAt in Hlook.
        rewrite Hpsm in Hlook. simpl in Hlook.
        rewrite decide_True in Hlook by reflexivity. rewrite Hr in Hlook.
        exists psm. split; [|exact Hlook]. unfold nonEmptyMaps.
        apply list_elem_of_filter. split.
        * eapply psm_lookup_entriesCount. exact Hlook.
        * eapply list_elem_of_lookup_2. exact Hpsm.
    - intros r. unfold nonEmptyMaps.
      etransitivity; [apply length_filter_filter|].
      apply (filter_at_most_one _ merged (cpuIdx r)). intros j psm Hj [g Hg].
      assert (Hjlt : (j < cpusCount)%nat) by (rewrite <- Hlen; eapply lookup_lt_Some; exact Hj).
      specialize (Hlook j r Hjlt). unfold lookupAt in Hlook. rewrite Hj in Hlook.
      simpl in Hlook. rewrite Hg in Hlook.
      destruct (decide (cpuIdx r = j)); [congruence | discriminate]. }
  unfold psp_mergeShardsParallel.
  destruct (shards psp) as [|shard [|shard2 rest]] eqn:Hsh; [contradiction| |].
  - clear Hgen. destruct (Nat.ltb_spec 0 (psm_entriesCount (shard_m shard))) as [Hpos|Hzero].
    + exists [shard_m shard]. split; [reflexivity|]. split; [|split].
      * constructor; [exact Hpos | constructor].
      * intros r psg. simpl. unfold mergedAcross. simpl. split.
        -- intros (psm & Hin & Hr). apply list_elem_of_singleton in Hin. subst psm. exact Hr.
        -- intros Hr. exists (shard_m shard). split; [left | exact Hr].
      * intros r. etransitivity; [apply length_filter|]. simpl. lia.
    + exists []. split; [reflexivity|]. split; [constructor|]. split.
      * intros r psg. simpl. unfold mergedAcross. simpl. split.
        -- intros (psm & Hin & _). inversion Hin.
        -- intros Hr. apply psm_lookup_entriesCount in Hr. lia.
      * intros r. simpl. lia.
  - apply (Hgen shard (shard2 :: rest)). reflexivity.
Qed.

End MergeFacts.

(** ** What the merge and the flush make of the groups of the shards *)

Section FlushFacts.
Context `{API : StatsAPI}.

(** X14. [mergeShardsParallel], for a processor with at least one shard on
    a machine with at least one CPU, [stopCh] open and the global counter
    not below zero: it returns maps that are not empty; a key holds a group
    in one of them exactly when it holds a group in the map of some shard,
    and in at most one of them; and the group at the key is the groups the
    shards hold at the key, merged with [mergeState] in the order of the
    shards. *)
Theorem mergeShardsParallel_groups (psp : pipeStatsProcessor) :
  (0 < cpusCount)%nat →
  shards psp ≠ [] →
  stopCh_closed psp = false →
  0 <= psp_stateSizeBudget psp →
  ∃ psms,
    psp_mergeShardsParallel psp = MergeMaps psms
    ∧ Forall (λ psm, (0 < psm_entriesCount psm)%nat) psms
    ∧ (∀ r psg, (∃ psm, psm ∈ psms ∧ psm_lookup psm r = Some psg)
                ↔ mergedAcross (map shard_m (shards psp)) r = Some psg)
    ∧ (∀ r, is_Some (mergedAcross (map shard_m (shards psp)) r)
            ↔ ∃ sh, sh ∈ shards psp ∧ is_Some (psm_lookup (shard_m sh) r))
    ∧ (∀ r, (length (filter (λ psm, is_Some (psm_lookup psm r)) psms) <= 1)%nat).
Proof.
  intros Hc Hshards Hstop Hb.
  destruct (psp_mergeShardsParallel_spec psp Hc Hshards Hstop Hb)
    as (psms & Hm & Hpos & Hlook & Hone).
  exists psms. split; [exact Hm|]. split; [exact Hpos|]. split; [exact Hlook|].
  split; [|exact Hone].
  intros r. rewrite mergedAcross_is_Some. split.
  - intros (psm & Hin & Hr). apply list_elem_of_fmap in Hin as (sh & -> & Hsh).
    exists sh. auto.
  - intros (sh & Hsh & Hr). exists (shard_m sh). split; [|exact Hr].
    apply list_elem_of_fmap. exists sh. auto.
Qed.

Lemma mergeGroups_size {K : Type} `{Countable K} (dst src : gmap K pipeStatsGroup) :
  (size dst <= size (mergeGroups dst src) <= size dst + size src)%nat.
Proof.
  unfold mergeGroups.
  apply (map_fold_weak_ind (λ acc m, (size dst <= size acc <= size dst + size m)%nat)).
  - rewrite map_size_empty. lia.
  - intros k g m acc Hk IH. rewrite (map_size_insert_None k g m) by exact Hk.
    destruct (acc !! k) as [d|] eqn:Hacc.
    + rewrite map_size_insert_Some by (eexists; exact Hacc). lia.
    + rewrite map_size_insert_None by exact Hacc. lia.
Qed.

(** X15. [pipeStatsGroupMap.mergeState]: with [stopCh] closed the map stays
    as it is.  Otherwise, at every key, a group of [src] is merged into the
    group the map holds at the key, moves to the map as it is when the map
    holds none, and a group of the map without partner in [src] stays as it
    is; the map ends with at least the groups it had and at most those of
    both maps together. *)
Theorem mergeState_groups (psm src : pipeStatsGroupMap) :
  psm_mergeState true psm src = psm
  ∧ (∀ r, psm_lookup (psm_mergeState false psm src) r
          = match psm_lookup psm r, psm_lookup src r with
            | Some d, Some s => Some (psg_mergeState d s)
            | Some d, None => Some d
            | None, s => s
            end)
  ∧ (psm_entriesCount psm <= psm_entriesCount (psm_mergeState false psm src)
     <= psm_entriesCount psm + psm_entriesCount src)%nat.
Proof.
  split; [reflexivity|]. split.
  - intros r. rewrite psm_mergeState_lookup. reflexivity.
  - unfold psm_entriesCount. simpl.
    pose proof (mergeGroups_size (u64 psm) (u64 src)).
    pose proof (mergeGroups_size (negative64 psm) (negative64 src)).
    pose proof (mergeGroups_size (strings psm) (strings src)). lia.
Qed.

Lemma decodeKey_zero (key : string) : is_Some (decodeKey 0 key) → key = "".
Proof.
  destruct key as [|a rest]; [reflexivity|]. unfold decodeKey.
  change (String.length (String a rest)) with (S (String.length rest)).
  rewrite unmarshalKey_step by discriminate.
  destruct (UnmarshalBytes (String a rest)) as [[v tail]|]; [|intros [x Hx]; discriminate].
  destruct (unmarshalKey _ tail) as [vs|]; intros [x Hx]; discriminate.
Qed.

(** The maps of a pipe without by-fields hold groups at the empty key
    only. *)
Lemma psm_wf_no_by (ps : pipeStats) (psm : pipeStatsGroupMap) (r : groupRef)
    (psg : pipeStatsGroup) :
  psm_wf ps psm → byFields ps = [] → psm_lookup psm r = Some psg → r = RefString "".
Proof.
  intros Hwf HbyFs Hr. destruct (Hwf r psg Hr) as [_ Hok]. unfold ref_ok in Hok.
  rewrite HbyFs in Hok. simpl in Hok. destruct r as [n|n|key]; try contradiction.
  rewrite (decodeKey_zero key Hok). reflexivity.
Qed.

Lemma psm_entries_no_by (ps : pipeStats) (psm : pipeStatsGroupMap) (psg : pipeStatsGroup) :
  psm_wf ps psm → byFields ps = [] → psm_lookup psm (RefString "") = Some psg →
  psm_entries psm = [(RefString "", psg)].
Proof.
  intros Hwf HbyFs Hr. unfold psm_entries.
  destruct (psm_wf_no_integers ps psm Hwf) as [Hu Hn]; [rewrite HbyFs; simpl; lia|].
  rewrite Hu, Hn, map_to_list_empty. simpl.
  assert (Hs : strings psm = {[ "" := psg ]}).
  { apply map_eq. intros k. destruct (decide (k = "")) as [->|Hne].
    - rewrite lookup_singleton_eq. exact Hr.
    - rewrite lookup_singleton_ne by congruence.
      destruct (strings psm !! k) as [g|] eqn:Hk; [|reflexivity].
      pose proof (psm_wf_no_by ps psm (RefString k) g Hwf HbyFs Hk) as Heq.
      congruence. }
  rewrite Hs, map_to_list_singleton. reflexivity.
Qed.

(** X16. A flush of a pipe without by-fields that passes the budget check
    and is not stopped gives exactly one row to the next pipe, through one
    writer, whatever the number of shards and of blocks taken: the final
    values of the groups the shards hold at the empty key, merged in the
    order of the shards, or of new processors when no shard holds a group. *)
Theorem flush_without_by_fields_one_row (ps : pipeStats) (psp : pipeStatsProcessor) :
  reachable ps psp →
  byFields ps = [] →
  shards psp ≠ [] →
  (0 < cpusCount)%nat →
  0 < psp_stateSizeBudget psp →
  stopCh_closed psp = false →
  ∃ blocks,
    psp_flush psp = (FlushNil, [blocks])
    ∧ writtenRows blocks
      = [finalValues
           (default {| psg_funcs := funcs ps;
                       sfps := map (λ fn, (newStatsProcessor (f fn)).1) (funcs ps) |}
                    (mergedAcross (map shard_m (shards psp)) (RefString "")))]
    ∧ Forall (λ rb, map rc_name (rb_rcs rb) = map resultName (funcs ps)) blocks.
Proof.
  intros Hreach HbyFs Hshards Hc Hb Hstop.
  destruct (reachable_wf ps psp Hreach) as [Hps Hwf].
  destruct (psp_mergeShardsParallel_spec psp Hc Hshards Hstop ltac:(lia))
    as (psms & Hm & Hpos & Hlook & Hone).
  assert (Hpsms : Forall (psm_wf ps) psms).
  { rewrite <- Hps. apply psp_mergeShardsParallel_wf; [exact Hwf | left; exact Hm]. }
  destruct (psp_flushWith_success psp_mergeShardsParallel psp psms Hwf Hshards Hb Hstop Hm)
    as (_ & written & Hflush & Hout); [rewrite Hps; exact Hpsms|].
  fold (psp_flush psp) in Hflush. rewrite Hps, HbyFs in Hout. simpl in Hout.
  assert (Hat : ∀ psm, psm ∈ psms → is_Some (psm_lookup psm (RefString ""))).
  { intros psm Hin. rewrite Forall_forall in Hpos, Hpsms.
    specialize (Hpos psm Hin). rewrite <- psm_entries_length in Hpos.
    destruct (psm_entries psm) as [|[r g] l] eqn:He; [simpl in Hpos; lia|].
    assert (Hr : psm_lookup psm r = Some g).
    { apply elem_of_psm_entries. rewrite He. left. }
    rewrite <- (psm_wf_no_by ps psm r g (Hpsms psm Hin) HbyFs Hr). eexists; exact Hr. }
  assert (Hnames : ∀ blocks psm, writerOutput ps blocks psm →
            Forall (λ rb, map rc_name (rb_rcs rb) = map resultName (funcs ps)) blocks).
  { intros blocks psm (init & last & _ & Hn & _). unfold pipeNames in Hn.
    rewrite HbyFs in Hn. exact Hn. }
  destruct psms as [|psm [|psm2 rest]].
  - simpl in Hout. apply Forall2_singleton_r in Hout as (blocks & -> & Hw).
    exists blocks. split; [exact Hflush|]. split; [|exact (Hnames _ _ Hw)].
    destruct Hw as (init & last & _ & _ & Hr & _). rewrite Hr.
    rewrite emptyMatchMap_rows by (rewrite HbyFs; reflexivity).
    destruct (mergedAcross (map shard_m (shards psp)) (RefString "")) as [g|] eqn:Hg.
    + apply Hlook in Hg as (psm & Hin & _). inversion Hin.
    + unfold finalValues. simpl. rewrite map_map. reflexivity.
  - simpl in Hout. apply Forall2_singleton_r in Hout as (blocks & -> & Hw).
    exists blocks. split; [exact Hflush|]. split; [|exact (Hnames _ _ Hw)].
    destruct Hw as (init & last & _ & _ & Hr & _). rewrite Hr.
    destruct (Hat psm (list_elem_of_here _ _)) as [g Hg].
    assert (Hmerged : mergedAcross (map shard_m (shards psp)) (RefString "") = Some g).
    { apply Hlook. exists psm. split; [left | exact Hg]. }
    rewrite Hmerged. simpl. unfold psm_rows.
    apply Forall_cons in Hpsms as [Hpsm _].
    rewrite (psm_entries_no_by ps psm g Hpsm HbyFs Hg). simpl.
    unfold groupRow, keyValues. simpl. rewrite HbyFs. reflexivity.
  - exfalso. specialize (Hone (RefString "")).
    rewrite !filter_cons in Hone.
    destruct (decide (is_Some (psm_lookup psm (RefString "")))) as [_|Hno].
    2:{ apply Hno, Hat. left. }
    destruct (decide (is_Some (psm_lookup psm2 (RefString "")))) as [_|Hno].
    2:{ apply Hno, Hat. right. left. }
    simpl in Hone. lia.
Qed.

End FlushFacts.

Section FlushRowsFacts.
Context `{API : StatsAPI}.

Lemma elem_of_concat_entries (psms : list pipeStatsGroupMap) (r : groupRef)
    (psg : pipeStatsGroup) :
  (r, psg) ∈ concat (map psm_entries psms)
  ↔ ∃ psm, psm ∈ psms ∧ psm_lookup psm r = Some psg.
Proof.
  rewrite list_elem_of_In, in_concat. split.
  - intros (l & Hl & Hin). apply in_map_iff in Hl as (psm & <- & Hpsm).
    exists psm. split; [apply list_elem_of_In; exact Hpsm|].
    apply elem_of_psm_entries, list_elem_of_In. exact Hin.
  - intros (psm & Hpsm & Hr). exists (psm_entries psm). split.
    + apply in_map. apply list_elem_of_In. exact Hpsm.
    + apply list_elem_of_In, elem_of_psm_entries. exact Hr.
Qed.

(** The groups of maps that share no key, taken together, hold no group
    twice. *)
Lemma NoDup_concat_entries (psms : list pipeStatsGroupMap) :
  (∀ r, (length (filter (λ psm, is_Some (psm_lookup psm r)) psms) <= 1)%nat) →
  NoDup (concat (map psm_entries psms)).
Proof.
  induction psms as [|p rest IH]; intros Hone; simpl; [constructor|].
  apply NoDup_app. split; [apply NoDup_psm_entries|]. split.
  - intros [r g] Hp Hrest. apply elem_of_psm_entries in Hp.
    apply elem_of_concat_entries in Hrest as (q & Hq & Hr).
    specialize (Hone r). rewrite filter_cons in Hone.
    destruct (decide (is_Some (psm_lookup p r))) as [_|Hno]; [|apply Hno; eexists; exact Hp].
    assert (Hin : q ∈ filter (λ psm, is_Some (psm_lookup psm r)) rest).
    { apply list_elem_of_filter. split; [eexists; exact Hr | exact Hq]. }
    destruct (filter _ rest); [inversion Hin | simpl in Hone; lia].
  - apply IH. intros r. specialize (Hone r). rewrite filter_cons in Hone.
    destruct (decide (is_Some (psm_lookup p r))); simpl in Hone; lia.
Qed.

Lemma elem_of_shardKeys (psp : pipeStatsProcessor) (r : groupRef) :
  r ∈ shardKeys psp ↔ ∃ sh, sh ∈ shards psp ∧ is_Some (psm_lookup (shard_m sh) r).
Proof.
  unfold shardKeys. rewrite elem_of_remove_dups, list_elem_of_In, in_concat. split.
  - intros (l & Hl & Hin). apply in_map_iff in Hl as (sh & <- & Hsh).
    apply in_map_iff in Hin as ([r' g] & Hr & Hin). simpl in Hr. subst r'.
    exists sh. split; [apply list_elem_of_In; exact Hsh|]. exists g.
    apply elem_of_psm_entries, list_elem_of_In. exact Hin.
  - intros (sh & Hsh & [g Hr]). exists (map fst (psm_entries (shard_m sh))). split.
    + apply (in_map (λ sh, map fst (psm_entries (shard_m sh)))).
      apply list_elem_of_In. exact Hsh.
    + apply in_map_iff. exists (r, g). split; [reflexivity|].
      apply list_elem_of_In, elem_of_psm_entries. exact Hr.
Qed.

(** X17. A flush of a pipe with by-fields that passes the budget check and
    is not stopped returns nil, and the rows its writers give to the next
    pipe are, up to their order, one row for every key that holds a group in
    some shard: the values of the by-fields of the key and then the final
    values of the groups the shards hold at the key, merged in the order of
    the shards.  Every writer gives at least one row. *)
Theorem flush_one_row_per_key (ps : pipeStats) (psp : pipeStatsProcessor) :
  reachable ps psp →
  byFields ps ≠ [] →
  shards psp ≠ [] →
  (0 < cpusCount)%nat →
  0 < psp_stateSizeBudget psp →
  stopCh_closed psp = false →
  (psp_flush psp).1 = FlushNil
  ∧ allRows (psp_flush psp).2
    ≡ₚ map (λ r, keyValues ps r
                 ++ from_option finalValues []
                      (mergedAcross (map shard_m (shards psp)) r))
           (shardKeys psp)
  ∧ Forall (λ blocks, writtenRows blocks ≠ []) (psp_flush psp).2.
Proof.
  intros Hreach HbyFs Hshards Hc Hb Hstop.
  destruct (reachable_wf ps psp Hreach) as [Hps Hwf].
  destruct (psp_mergeShardsParallel_spec psp Hc Hshards Hstop ltac:(lia))
    as (psms & Hm & Hpos & Hlook & Hone).
  assert (Hpsms : Forall (psm_wf (psp_ps psp)) psms).
  { apply psp_mergeShardsParallel_wf; [exact Hwf | left; exact Hm]. }
  destruct (psp_flushWith_success psp_mergeShardsParallel psp psms Hwf Hshards Hb Hstop Hm Hpsms)
    as (_ & written & Hflush & Hout).
  fold (psp_flush psp) in Hflush. rewrite Hps in Hout.
  assert (Hz : Nat.eqb (length (byFields ps)) 0 = false).
  { destruct (byFields ps); [contradiction | reflexivity]. }
  rewrite Hz in Hout. simpl in Hout. rewrite Hflush. simpl.
  split; [reflexivity|]. split.
  - rewrite (allRows_writerOutput ps written psms Hout).
    set (G := mergedAcross (map shard_m (shards psp))).
    set (dummy := {| psg_funcs := []; sfps := [] |}).
    assert (Hrow : map (λ r, keyValues ps r ++ from_option finalValues [] (G r)) (shardKeys psp)
                   = map (groupRow ps) (map (λ r, (r, default dummy (G r))) (shardKeys psp))).
    { rewrite map_map. apply map_ext. intros r. unfold groupRow. simpl.
      destruct (G r); reflexivity. }
    rewrite Hrow. apply Permutation_map.
    apply NoDup_Permutation.
    + apply NoDup_concat_entries. exact Hone.
    + apply NoDup_fmap_2_strong; [|apply NoDup_remove_dups].
      intros x y _ _ Heq. inversion Heq. reflexivity.
    + intros [r g]. rewrite elem_of_concat_entries, Hlook. fold G.
      rewrite list_elem_of_fmap. split.
      * intros Hg. exists r. rewrite Hg. split; [reflexivity|].
        apply elem_of_shardKeys.
        assert (Hsome : is_Some (mergedAcross (map shard_m (shards psp)) r))
          by (eexists; exact Hg).
        apply mergedAcross_is_Some in Hsome as (psm & Hin & Hr).
        apply list_elem_of_fmap in Hin as (sh & -> & Hsh). exists sh. auto.
      * intros (r' & Heq & Hin). inversion Heq; subst r'.
        apply elem_of_shardKeys in Hin as (sh & Hsh & Hr).
        assert (Hsome : is_Some (G r)).
        { apply mergedAcross_is_Some. exists (shard_m sh). split; [|exact Hr].
          apply list_elem_of_fmap. exists sh. auto. }
        destruct Hsome as [g' Hg']. rewrite Hg'. reflexivity.
  - assert (Hidle : ∀ ws ms, Forall2 (writerOutput ps) ws ms →
              Forall (λ psm, (0 < psm_entriesCount psm)%nat) ms →
              Forall (λ blocks, writtenRows blocks ≠ []) ws).
    { clear. induction 1 as [|blocks psm ws ms Hw Hrest IH]; intros Hp; constructor.
      - destruct Hw as (init & last & _ & _ & Hr & _). rewrite Hr. unfold psm_rows.
        apply Forall_cons in Hp as [Hp _]. rewrite <- psm_entries_length in Hp.
        destruct (psm_entries psm); [simpl in Hp; lia | discriminate].
      - apply IH. apply Forall_cons in Hp as [_ Hp]. exact Hp. }
    exact (Hidle written psms Hout Hpos).
Qed.

End FlushRowsFacts.

(** ** Keys: composite keys and integers as text *)

Section KeyFacts.
Context `{API : StatsAPI}.

(** X18. The composite key of [writeBlock] for the values of the by-fields
    of a row decodes, in [writeShardData], to these values; so the keys of
    two rows are equal only when the rows agree on every by-field, and the
    lookups for two rows return the same group only then. *)
Theorem composite_key_round_trip (t1 t2 : list string) (sh : pipeStatsProcessorShard) :
  decodeKey (length t1) (marshalKey t1) = Some t1
  ∧ (marshalKey t1 = marshalKey t2 ↔ t1 = t2)
  ∧ ((psm_getPipeStatsGroupString (marshalKey t1) sh).2
     = (psm_getPipeStatsGroupString (marshalKey t2) sh).2 ↔ t1 = t2).
Proof.
  assert (Hinj : marshalKey t1 = marshalKey t2 → t1 = t2).
  { intros Heq.
    pose proof (unmarshalKey_concat t1 (length t1 + length t2) ltac:(lia)) as H1.
    pose proof (unmarshalKey_concat t2 (length t1 + length t2) ltac:(lia)) as H2.
    rewrite <- !marshalKey_concat, Heq in *. congruence. }
  split; [apply decodeKey_marshalKey|]. split.
  - split; [exact Hinj | intros ->; reflexivity].
  - rewrite !psm_getPipeStatsGroupString_getAt.
    destruct (psm_getAt_spec (RefString (marshalKey t1))
                (Z.of_nat (String.length (marshalKey t1)) + 16) sh) as [-> _].
    destruct (psm_getAt_spec (RefString (marshalKey t2))
                (Z.of_nat (String.length (marshalKey t2)) + 16) sh) as [-> _].
    split; [intros [= Heq]; exact (Hinj Heq) | intros ->; reflexivity].
Qed.

Lemma wrap64_to_uint64 (n : Z) : int64_range n → wrap64 (to_uint64 n) = n.
Proof.
  unfold int64_range, wrap64, to_uint64. intros Hn.
  rewrite Zplus_mod_idemp_l. rewrite Z.mod_small by lia. lia.
Qed.

Lemma to_uint64_id (n : Z) : 0 <= n < 2 ^ 64 → to_uint64 n = n.
Proof. intros Hn. unfold to_uint64. apply Z.mod_small. exact Hn. Qed.

Lemma psm_entries_single (r : groupRef) (psg : pipeStatsGroup) :
  psm_entries (psm_store psm_init r psg) = [(r, psg)].
Proof.
  unfold psm_entries. destruct r; simpl;
    rewrite insert_empty, map_to_list_singleton, map_to_list_empty; reflexivity.
Qed.

(** X19. The writer of a pipe with one by-field gives, for the group that
    [getPipeStatsGroupInt64] keeps for the [int64] value [n] of a typed
    column, the row whose by-value is the decimal text of [n]: the key
    [uint64(n)] of a negative value is read back as [int64]. *)
Theorem int64_group_written_as_decimal (psp : pipeStatsProcessor) (workerID : nat)
    (n : Z) (sh : pipeStatsProcessorShard) (psg : pipeStatsGroup) :
  length (byFields (psp_ps psp)) = 1%nat →
  stopCh_closed psp = false →
  group_wf (psp_ps psp) psg →
  int64_range n →
  ∃ blocks,
    runWriter psp workerID (psm_store psm_init (psm_getPipeStatsGroupInt64 n sh).2 psg)
    = Some blocks
    ∧ writtenRows blocks = [marshalInt64String n :: finalValues psg].
Proof.
  intros Hone Hstop Hg Hn.
  rewrite psm_getPipeStatsGroupInt64_getAt.
  destruct (psm_getAt_spec (if 0 <=? n then RefU64 (to_uint64 n)
                            else RefNegative64 (to_uint64 n)) 8 sh) as [-> _].
  set (r := if 0 <=? n then RefU64 (to_uint64 n) else RefNegative64 (to_uint64 n)).
  destruct (runWriter_blocks psp workerID (psm_store psm_init r psg) Hstop)
    as (init & last & Hrun & _ & Hrows & _).
  { apply psm_wf_store; [apply psm_init_wf | exact Hg|].
    apply ref_ok_integer; [exact Hone|]. subst r. destruct (0 <=? n); discriminate. }
  exists (init ++ [last]). split; [exact Hrun|]. rewrite Hrows.
  unfold psm_rows. rewrite psm_entries_single. simpl. unfold groupRow. simpl.
  subst r. unfold int64_range in Hn. destruct (Z.leb_spec 0 n); simpl.
  - rewrite to_uint64_id by lia. reflexivity.
  - rewrite wrap64_to_uint64 by exact Hn. reflexivity.
Qed.

End KeyFacts.

(** *** Decimal text read back *)

Lemma digitValue_pretty_N_char (d : N) :
  (d < 10)%N → digitValue (pretty_N_char d) = Some (Z.of_N d).
Proof.
  intros Hd.
  assert (d = 0 ∨ d = 1 ∨ d = 2 ∨ d = 3 ∨ d = 4 ∨ d = 5 ∨ d = 6 ∨ d = 7 ∨ d = 8 ∨ d = 9)%N
    as Hcases by lia.
  repeat (destruct Hcases as [->|Hcases]; [reflexivity|]). subst d. reflexivity.
Qed.

Lemma parseDigits_pretty_N_go (x : N) :
  ∃ p, 0 < p ∧ Z.of_N x < p
       ∧ ∀ s acc, 0 <= acc → acc * p + Z.of_N x < 2 ^ 64 →
           parseDigits (pretty_N_go x s) acc = parseDigits s (acc * p + Z.of_N x).
Proof.
  induction (N.lt_wf_0 x) as [x _ IH].
  destruct (N.eq_dec x 0%N) as [->|Hx].
  - exists 1. split; [lia|]. split; [simpl; lia|]. intros s acc Hacc _.
    rewrite pretty_N_go_0. f_equal. simpl. lia.
  - assert (Hpos : (0 < x)%N) by lia.
    destruct (IH (x `div` 10)%N) as (p & Hp & Hlt & Heq); [apply N.div_lt; lia|].
    pose proof (N.div_mod x 10%N ltac:(lia)) as Hdm.
    pose proof (N.mod_upper_bound x 10%N ltac:(lia)) as Hmod.
    apply (f_equal Z.of_N) in Hdm. rewrite N2Z.inj_add, N2Z.inj_mul in Hdm.
    assert (Hd : 0 <= Z.of_N (x `mod` 10) < 10).
    { split; [apply N2Z.is_nonneg|].
      change 10 with (Z.of_N 10). apply N2Z.inj_lt. exact Hmod. }
    assert (Hq : 0 <= Z.of_N (x `div` 10)) by apply N2Z.is_nonneg.
    change (Z.of_N 10) with 10 in Hdm.
    remember (Z.of_N (x `div` 10)) as q eqn:Eq.
    remember (Z.of_N (x `mod` 10)) as d eqn:Ed.
    exists (10 * p). split; [lia|]. split; [lia|]. intros s acc Hacc Hbound.
    rewrite pretty_N_go_step by exact Hpos.
    rewrite Heq; [|exact Hacc|nia]. cbn [parseDigits].
    rewrite digitValue_pretty_N_char by exact Hmod. rewrite <- Ed.
    replace ((acc * p + q) * 10 + d) with (acc * (10 * p) + Z.of_N x) by lia.
    destruct (Z.ltb_spec (acc * (10 * p) + Z.of_N x) (2 ^ 64)); [reflexivity | lia].
Qed.

Lemma pretty_N_go_length (x : N) :
  ∀ s, (String.length s <= String.length (pretty_N_go x s))%nat.
Proof.
  induction (N.lt_wf_0 x) as [x _ IH]. intros s.
  destruct (N.eq_dec x 0%N) as [->|Hx]; [rewrite pretty_N_go_0; lia|].
  rewrite pretty_N_go_step by lia.
  etransitivity; [|apply IH; apply N.div_lt; lia]. simpl. lia.
Qed.

(** The decimal text of a number below [2^64] parses as this number. *)
Lemma tryParseUint64_pretty (n : Z) : 0 <= n < 2 ^ 64 → tryParseUint64 (pretty n) = Some n.
Proof.
  intros Hn. destruct n as [|p|p]; [reflexivity| |lia].
  change (pretty (Z.pos p)) with (pretty (N.pos p)). unfold pretty, pretty_N.
  destruct (decide (N.pos p = 0%N)) as [|_]; [discriminate|].
  destruct (parseDigits_pretty_N_go (N.pos p)) as (q & Hq & Hlt & Heq).
  specialize (Heq "" 0 ltac:(lia) ltac:(simpl; lia)).
  pose proof (pretty_N_go_length (N.pos p `div` 10)
                (String (pretty_N_char (N.pos p `mod` 10)) "")) as Hlen.
  rewrite <- pretty_N_go_step in Hlen by lia.
  unfold tryParseUint64. destruct (pretty_N_go (N.pos p) "") eqn:Hs; [simpl in Hlen; lia|].
  rewrite Heq. reflexivity.
Qed.

Lemma pretty_negative (p : positive) : pretty (Z.neg p) = String "-" (pretty (Z.pos p)).
Proof. reflexivity. Qed.

Section TextKeyFacts.
Context `{API : StatsAPI}.

(** X20. A number reaches the same group whether it comes as an integer of
    a typed column or as its decimal text: for an [int64] value [n] the
    lookup by the text of [n] ([getPipeStatsGroupGeneric]) returns the group
    of [getPipeStatsGroupInt64], and for a [uint64] value the group of
    [getPipeStatsGroupUint64]. *)
Theorem typed_and_text_values_share_groups (n u : Z) (sh : pipeStatsProcessorShard) :
  (int64_range n →
     (psm_getPipeStatsGroupGeneric (marshalInt64String n) sh).2
     = (psm_getPipeStatsGroupInt64 n sh).2)
  ∧ (0 <= u < 2 ^ 64 →
     (psm_getPipeStatsGroupGeneric (marshalUint64String u) sh).2
     = (psm_getPipeStatsGroupUint64 u sh).2).
Proof.
  split.
  - intros Hn. unfold int64_range in Hn.
    destruct (psm_getPipeStatsGroupGeneric_getAt (marshalInt64String n) sh) as [kb ->].
    rewrite psm_getPipeStatsGroupInt64_getAt.
    destruct (psm_getAt_spec (keySubMap (marshalInt64String n)) kb sh) as [-> _].
    destruct (psm_getAt_spec (if 0 <=? n then RefU64 (to_uint64 n)
                              else RefNegative64 (to_uint64 n)) 8 sh) as [-> _].
    unfold keySubMap, marshalInt64String.
    destruct (Z.leb_spec 0 n) as [Hpos|Hneg].
    + rewrite tryParseUint64_pretty by lia. rewrite to_uint64_id by lia. reflexivity.
    + destruct n as [|p|p]; try lia. rewrite pretty_negative.
      assert (Hu : tryParseUint64 (String "-" (pretty (Z.pos p))) = None) by reflexivity.
      rewrite Hu. unfold tryParseInt64.
      change (Ascii.eqb "-" "-") with true. cbv iota.
      rewrite tryParseUint64_pretty by lia.
      destruct (Z.leb_spec (Z.pos p) (2 ^ 63)); [|lia]. reflexivity.
  - intros Hu.
    destruct (psm_getPipeStatsGroupGeneric_getAt (marshalUint64String u) sh) as [kb ->].
    destruct (psm_getAt_spec (keySubMap (marshalUint64String u)) kb sh) as [-> _].
    unfold keySubMap, marshalUint64String. rewrite tryParseUint64_pretty by exact Hu.
    rewrite psm_getPipeStatsGroupUint64_getAt.
    destruct (psm_getAt_spec (RefU64 u) 8 sh) as [-> _]. reflexivity.
Qed.

End TextKeyFacts.

(** ** The parser: what a parsed pipe looks like *)

Section ParserMoreFacts.
Context `{PAPI : ParserAPI}.

Lemma parseFuncs_end (fuel : nat) (byFs : list byStatsField)
    (seenByFields : gmap string byStatsField) :
  ∀ (seenResultNames : gmap string statsFunc) (fs : list pipeStatsFunc) (lex : lexer)
    (ps : pipeStats) (lex' : lexer),
    parseFuncs fuel byFs seenByFields seenResultNames fs lex = ParseOk (ps, lex') →
    byFields ps = byFs
    ∧ (∃ fn more, funcs ps = fs ++ fn :: more)
    ∧ isKeyword lex' ["|"; ")"; ""] = true.
Proof.
  induction fuel as [|fuel IH]; intros seen fs lex ps lex' Hparse; [discriminate|].
  simpl in Hparse.
  destruct (parseStatsFunc lex) as [[sf lex1]|msg|]; try discriminate.
  destruct (parseOptionalIf lex1) as [[flt lex2]|msg|]; try discriminate.
  destruct (parseResultName sf flt lex2) as [[name lex3]|msg|]; try discriminate.
  destruct (seenByFields !! name); [discriminate|].
  destruct (seen !! name); [discriminate|].
  destruct (isKeyword lex3 ["|"; ")"; ""]) eqn:Hend.
  - inversion Hparse; subst. split; [reflexivity|]. split; [|exact Hend].
    exists {| f := sf; iff := flt; resultName := name |}, []. reflexivity.
  - destruct (isKeyword lex3 [","]); [|discriminate]. simpl in Hparse.
    apply IH in Hparse as (HbyFs & (fn & more & Hfuncs) & Hlex).
    split; [exact HbyFs|]. split; [|exact Hlex].
    exists {| f := sf; iff := flt; resultName := name |}, (fn :: more).
    rewrite Hfuncs, <- app_assoc. reflexivity.
Qed.

(** X21. Every pipe [parsePipeStats] returns has at least one function, so
    that [String()] of a parsed pipe does not reach its panic; the lexer is
    left at [|], [)] or the end of the input; with [needStatsKeyword] the
    input started with the keyword [stats]; and the pipe has no by-fields
    when neither [by] nor [(] follows. *)
Theorem parsePipeStats_shape (fuel : nat) (lex : lexer) (needStatsKeyword : bool)
    (ps : pipeStats) (lex' : lexer) :
  parsePipeStats fuel lex needStatsKeyword = ParseOk (ps, lex') →
  funcs ps ≠ []
  ∧ is_Some (ps_String ps)
  ∧ isKeyword lex' ["|"; ")"; ""] = true
  ∧ (needStatsKeyword = true → isKeyword lex ["stats"] = true)
  ∧ (isKeyword (if needStatsKeyword then nextToken lex else lex) ["by"; "("] = false →
     byFields ps = []).
Proof.
  intros Hparse. unfold parsePipeStats in Hparse.
  destruct (needStatsKeyword && negb (isKeyword lex ["stats"])) eqn:Hkw; [discriminate|].
  set (lex0 := if needStatsKeyword then nextToken lex else lex) in *.
  destruct (isKeyword lex0 ["by"; "("]) eqn:Hby.
  - destruct (parseByStatsFields _) as [[byFs lex1]|msg|]; try discriminate.
    apply parseFuncs_end in Hparse as (HbyFs & (fn & more & Hfuncs) & Hlex).
    simpl in Hfuncs.
    split; [rewrite Hfuncs; discriminate|]. split.
    { unfold ps_String. rewrite Hfuncs. eexists; reflexivity. }
    split; [exact Hlex|]. split; [|discriminate].
    intros ->. simpl in Hkw. destruct (isKeyword lex ["stats"]); [reflexivity | discriminate].
  - apply parseFuncs_end in Hparse as (HbyFs & (fn & more & Hfuncs) & Hlex).
    simpl in Hfuncs.
    split; [rewrite Hfuncs; discriminate|]. split.
    { unfold ps_String. rewrite Hfuncs. eexists; reflexivity. }
    split; [exact Hlex|]. split; [|intros _; exact HbyFs].
    intros ->. simpl in Hkw. destruct (isKeyword lex ["stats"]); [reflexivity | discriminate].
Qed.

End ParserMoreFacts.

(** ** [parseStatsFunc] and [statsNames] *)

Section StatsFuncSwitchFacts.
Context `{SFP : StatsFuncParsers}.

(** X22. [parseStatsFunc] takes the case of the first name of [statsNames]
    that is the keyword at the lexer, and returns the error
    [unknown stats func] exactly when none of the names of [statsNames] is:
    the list names the cases of the switch, in their order. *)
Theorem parseStatsFunc_follows_statsNames (lex : lexer) :
  parseStatsFunc_switch lex
  = match List.find (λ name, isKeyword lex [name]) statsNames with
    | Some name => parseStatsFuncCase name lex
    | None => ParseErr ("unknown stats func " +:+ quoteGo (lex_token lex))
    end
  ∧ (parseStatsFunc_switch lex = ParseErr ("unknown stats func " +:+ quoteGo (lex_token lex))
     ↔ Forall (λ name, isKeyword lex [name] = false) statsNames).
Proof.
  assert (Hcase : ∀ name, parseStatsFuncCase name lex
                          ≠ ParseErr ("unknown stats func " +:+ quoteGo (lex_token lex))).
  { intros name. unfold parseStatsFuncCase.
    destruct (parseStatsNamed name lex) as [r|msg|]; discriminate. }
  assert (Hfind : parseStatsFunc_switch lex
                  = match List.find (λ name, isKeyword lex [name]) statsNames with
                    | Some name => parseStatsFuncCase name lex
                    | None => ParseErr ("unknown stats func " +:+ quoteGo (lex_token lex))
                    end).
  { unfold parseStatsFunc_switch, statsNames. simpl.
    repeat match goal with
           | |- context [isKeyword lex [?name]] =>
               destruct (isKeyword lex [name]); [reflexivity|]
           end; reflexivity. }
  split; [exact Hfind|]. rewrite Hfind. split.
  - intros Hres. apply Forall_forall. intros name Hin.
    destruct (isKeyword lex [name]) eqn:Hk; [|reflexivity]. exfalso.
    destruct (List.find (λ name, isKeyword lex [name]) statsNames) as [found|] eqn:Hf.
    + exact (Hcase found Hres).
    + rewrite (find_none _ _ Hf name) in Hk; [discriminate|].
      apply list_elem_of_In. exact Hin.
  - intros Hall.
    destruct (List.find (λ name, isKeyword lex [name]) statsNames) as [found|] eqn:Hf;
      [|reflexivity].
    apply find_some in Hf as [Hin Hk]. rewrite Forall_forall in Hall.
    rewrite (Hall found) in Hk; [discriminate|]. apply list_elem_of_In. exact Hin.
Qed.

End StatsFuncSwitchFacts.

(** ** [initFilterInValues] *)

Section InitFilterFacts.
Context `{API : StatsAPI}.

Lemma initFilterInValues_loop_spec (initIff : option ifFilter → option ifFilter + string)
    (fs : list pipeStatsFunc) :
  match initFilterInValues_loop initIff fs with
  | inl fs' =>
      Forall2 (λ fn fn', f fn' = f fn ∧ resultName fn' = resultName fn
                         ∧ initIff (iff fn) = inl (iff fn')) fs fs'
  | inr err =>
      ∃ i fn, fs !! i = Some fn ∧ initIff (iff fn) = inr err
              ∧ ∀ j fn', (j < i)%nat → fs !! j = Some fn' → ∃ flt, initIff (iff fn') = inl flt
  end.
Proof.
  induction fs as [|fn fs IH]; simpl; [constructor|].
  destruct (initIff (iff fn)) as [iffNew|err] eqn:Hinit.
  - destruct (initFilterInValues_loop initIff fs) as [fs'|err].
    + constructor; [simpl; auto | exact IH].
    + destruct IH as (i & fn0 & Hi & Herr & Hbefore).
      exists (S i), fn0. split; [exact Hi|]. split; [exact Herr|].
      intros j fn' Hj Hfn'. destruct j as [|j].
      * simpl in Hfn'. inversion Hfn'; subst. eexists; exact Hinit.
      * apply (Hbefore j fn'); [lia | exact Hfn'].
  - exists 0%nat, fn. split; [reflexivity|]. split; [exact Hinit|]. intros j fn' Hj. lia.
Qed.

(** X23. [initFilterInValues] returns a pipe with the by-fields, the
    functions and the result names of the pipe it is given, and so with the
    same output columns; only the filters are replaced, each by what
    [initFilterInValues] of the filter returns.  It fails with the error of
    the first function whose filter fails. *)
Theorem initFilterInValues_keeps_columns
    (initIff : option ifFilter → option ifFilter + string) (ps : pipeStats) :
  match initFilterInValues initIff ps with
  | inl ps' =>
      byFields ps' = byFields ps
      ∧ map f (funcs ps') = map f (funcs ps)
      ∧ map resultName (funcs ps') = map resultName (funcs ps)
      ∧ pipeNames ps' = pipeNames ps
      ∧ Forall2 (λ fn fn', initIff (iff fn) = inl (iff fn')) (funcs ps) (funcs ps')
  | inr err =>
      ∃ i fn, funcs ps !! i = Some fn ∧ initIff (iff fn) = inr err
              ∧ ∀ j fn', (j < i)%nat → funcs ps !! j = Some fn' →
                  ∃ flt, initIff (iff fn') = inl flt
  end.
Proof.
  unfold initFilterInValues.
  pose proof (initFilterInValues_loop_spec initIff (funcs ps)) as H.
  destruct (initFilterInValues_loop initIff (funcs ps)) as [fs'|err]; [|exact H].
  simpl. unfold pipeNames. simpl.
  assert (Hf : map f fs' = map f (funcs ps)
               ∧ map resultName fs' = map resultName (funcs ps)).
  { induction H as [|fn fn' l l' (Hf & Hn & _) Hrest [IH1 IH2]]; [split; reflexivity|].
    simpl. rewrite Hf, Hn, IH1, IH2. split; reflexivity. }
  destruct Hf as [Hf Hn]. rewrite Hn.
  split; [reflexivity|]. split; [exact Hf|]. split; [reflexivity|]. split; [reflexivity|].
  eapply Forall2_impl; [exact H|]. intros fn fn' (_ & _ & Hi). exact Hi.
Qed.

End InitFilterFacts.

(** ** Bucket sizes and bucket offsets *)

Section BucketFacts.
Context `{BAPI : BucketAPI}.

(** X24. Every text [tryParseBucketOffset] takes as the offset of a bucket,
    [tryParseBucketSize] takes as the size of a bucket, and with the same
    number when the text is not the name of a unit of time; the names of the
    units are sizes whatever the number parsers make of them. *)
Theorem bucket_offsets_are_bucket_sizes (s : string) :
  (is_Some (tryParseBucketOffset s) → is_Some (tryParseBucketSize s))
  ∧ (s ∉ bucketUnitNames → ∀ x, tryParseBucketOffset s = Some x → tryParseBucketSize s = Some x)
  ∧ (s ∈ bucketUnitNames → is_Some (tryParseBucketSize s)).
Proof.
  unfold tryParseBucketOffset, tryParseBucketSize, bucketUnitNames.
  repeat (case_bool_decide;
          [subst s; split; [intros _; eexists; reflexivity|];
           split; [intros Hnot; exfalso; apply Hnot; set_solver
                  |intros _; eexists; reflexivity]|]).
  split; [|split].
  - destruct (tryParseFloat64 s); [intros _; eexists; reflexivity|].
    destruct (tryParseDuration s); [intros _; eexists; reflexivity|].
    destruct (tryParseBytes s); [intros _; eexists; reflexivity|].
    intros [x Hx]. discriminate.
  - intros _ x. destruct (tryParseFloat64 s); [auto|].
    destruct (tryParseDuration s); [auto|].
    destruct (tryParseBytes s); [auto | discriminate].
  - intros Hin.
    repeat (apply elem_of_cons in Hin as [->|Hin]; [contradiction|]). inversion Hin.
Qed.

End BucketFacts.

(** ** The scatter of a shard over the CPUs *)

Section ScatterFacts.
Context `{API : StatsAPI}.

Lemma length_concat_entries (psms : list pipeStatsGroupMap) :
  length (concat (map psm_entries psms)) = sum_list_with psm_entriesCount psms.
Proof.
  induction psms as [|psm psms IH]; simpl; [reflexivity|].
  rewrite length_app, IH, psm_entries_length. reflexivity.
Qed.

(** X25. The scatter of the map of a shard in [mergeShardsParallel], on a
    machine with at least one CPU: it makes one map per CPU; every group of
    the shard lands, at its key, in the map of the CPU that the hash of the
    key names and in no other map; the maps hold no other group; and they
    hold together as many groups as the shard. *)
Theorem scatter_keeps_every_group (psm : pipeStatsGroupMap) :
  (0 < cpusCount)%nat →
  length (scatterShard psm) = cpusCount
  ∧ (∀ j d r psg, scatterShard psm !! j = Some d →
       (psm_lookup d r = Some psg ↔ cpuIdx r = j ∧ psm_lookup psm r = Some psg))
  ∧ (∀ r psg, psm_lookup psm r = Some psg →
       ∃ d, scatterShard psm !! cpuIdx r = Some d ∧ psm_lookup d r = Some psg)
  ∧ sum_list_with psm_entriesCount (scatterShard psm) = psm_entriesCount psm.
Proof.
  intros Hc. destruct (scatterShard_lookup psm) as [Hlen Hlook].
  split; [exact Hlen|]. split; [|split].
  - intros j d r psg Hd.
    assert (Hj : (j < cpusCount)%nat) by (rewrite <- Hlen; eapply lookup_lt_Some; exact Hd).
    specialize (Hlook j r Hj). unfold lookupAt in Hlook. rewrite Hd in Hlook.
    change (psm_lookup d r = if decide (cpuIdx r = j) then psm_lookup psm r else None)
      in Hlook.
    rewrite Hlook. destruct (decide (cpuIdx r = j)); split;
      try (intros [? ?]; assumption); try tauto; try discriminate.
  - intros r psg Hr. pose proof (cpuIdx_bound r Hc) as Hj.
    destruct (lookup_lt_is_Some_2 (scatterShard psm) (cpuIdx r)) as [d Hd]; [lia|].
    exists d. split; [exact Hd|].
    specialize (Hlook (cpuIdx r) r Hj). unfold lookupAt in Hlook. rewrite Hd in Hlook.
    change (psm_lookup d r
            = if decide (cpuIdx r = cpuIdx r) then psm_lookup psm r else None) in Hlook.
    rewrite decide_True in Hlook by reflexivity. congruence.
  - rewrite <- length_concat_entries, <- psm_entries_length.
    apply Permutation_length. apply scatterShard_entries. exact Hc.
Qed.

End ScatterFacts.

(** ** What every state of a run keeps true of the shards *)

Section InvariantFacts.
Context `{API : StatsAPI}.

(** X26. In every state a run of [writeBlock] calls reaches, every shard
    belongs to the pipe and every group of its map has one processor per
    function of the pipe.  For a pipe with no or with two and more by-fields
    the integer maps of the shard are empty and every key of the string map
    decodes to one value per by-field; for a pipe without by-fields the only
    key is the empty string. *)
Theorem reachable_shard_invariants (ps : pipeStats) (psp : pipeStatsProcessor)
    (shard : pipeStatsProcessorShard) :
  reachable ps psp →
  shard ∈ shards psp →
  shard_ps shard = ps
  ∧ (∀ r psg, psm_lookup (shard_m shard) r = Some psg →
       length (sfps psg) = length (funcs ps))
  ∧ (length (byFields ps) ≠ 1%nat →
       u64 (shard_m shard) = ∅ ∧ negative64 (shard_m shard) = ∅
       ∧ ∀ key, is_Some (strings (shard_m shard) !! key) →
           ∃ values, decodeKey (length (byFields ps)) key = Some values
                     ∧ length values = length (byFields ps))
  ∧ (byFields ps = [] → ∀ r, is_Some (psm_lookup (shard_m shard) r) → r = RefString "").
Proof.
  intros Hreach Hin. destruct (reachable_wf ps psp Hreach) as [Hps Hwf].
  unfold psp_wf in Hwf. rewrite Forall_forall in Hwf.
  destruct (Hwf shard Hin) as [Hsps Hpsm]. rewrite Hps in Hsps, Hpsm.
  split; [exact Hsps|]. split; [|split].
  - intros r psg Hr. exact (proj1 (Hpsm r psg Hr)).
  - intros Hne. destruct (psm_wf_no_integers ps (shard_m shard) Hpsm Hne) as [Hu Hn].
    split; [exact Hu|]. split; [exact Hn|]. intros key [psg Hkey].
    destruct (Hpsm (RefString key) psg Hkey) as [_ Hok]. unfold ref_ok in Hok.
    rewrite decide_False in Hok by exact Hne. destruct Hok as [values Hv].
    exists values. split; [exact Hv | exact (decodeKey_length _ _ _ Hv)].
  - intros HbyFs r [psg Hr]. exact (psm_wf_no_by ps (shard_m shard) r psg Hpsm HbyFs Hr).
Qed.

End InvariantFacts.

(** ** The panics [flush] can reach *)

Section PanicFacts.
Context `{API : StatsAPI}.

(** X27. The two ways [flush] panics: a processor made for zero workers
    that passes the budget check with [stopCh] open reaches
    [perShardMaps[0]], an index out of range; and a pipe without functions
    whose global counter is at zero or below reaches the panic of
    [String()] while the text of the error is built.  In both cases nothing
    is given to the next pipe. *)
Theorem flush_panics (psp : pipeStatsProcessor) :
  (shards psp = [] → 0 < psp_stateSizeBudget psp → stopCh_closed psp = false →
     psp_flush psp = (FlushPanic, []))
  ∧ (funcs (psp_ps psp) = [] → psp_stateSizeBudget psp <= 0 →
     psp_flush psp = (FlushPanic, []))
  ∧ (∀ ps maxSize, 0 < maxSize →
       psp_flush (newPipeProcessor ps 0 false maxSize) = (FlushPanic, [])).
Proof.
  assert (Hnone : ∀ p : pipeStatsProcessor,
            shards p = [] → 0 < psp_stateSizeBudget p → stopCh_closed p = false →
            psp_flush p = (FlushPanic, [])).
  { intros p Hshards Hb Hstop. unfold psp_flush, psp_flushWith.
    destruct (Z.leb_spec (psp_stateSizeBudget p) 0); [lia|].
    unfold psp_mergeShardsParallel, mergeShardsGeneral. rewrite Hshards, Hstop. simpl.
    destruct (Z.ltb_spec (psp_stateSizeBudget p) 0); [lia | reflexivity]. }
  split; [exact (Hnone psp)|]. split.
  - intros Hf Hb. unfold psp_flush, psp_flushWith.
    destruct (Z.leb_spec (psp_stateSizeBudget psp) 0); [|lia].
    unfold budgetError, ps_String. rewrite Hf. reflexivity.
  - intros ps maxSize Hmax. apply Hnone; [reflexivity | exact Hmax | reflexivity].
Qed.

End PanicFacts.

(** ** The further properties at the inputs above *)

Lemma addByTimeField_result_names_witness :
  0 < 60
  ∧ ((∀ fn bf, fn ∈ funcs (addByTimeField 60 ex_ps_by) →
               bf ∈ byFields (addByTimeField 60 ex_ps_by) → resultName fn ≠ bf_name bf)
     ↔ (∀ fn bf, fn ∈ funcs ex_ps_by → bf ∈ byFields ex_ps_by → resultName fn ≠ bf_name bf)
       ∧ "_time" ∉ map resultName (funcs ex_ps_by)).
Proof.
  assert (H : 0 < 60) by lia.
  split; [exact H|].
  exact (addByTimeField_result_names (API := countAPI) 60 ex_ps_by H).
Defined.

Lemma writeBlock_groups_of_rows_witness :
  length (byFields (shard_ps ex_shard_two)) ≠ 1%nat
  ∧ (0 < rowsLen ex_block)%nat
  ∧ Forall (λ values, length values = rowsLen ex_block)
           (byColumnValues (shard_ps ex_shard_two) ex_block)
  ∧ (is_Some (psm_lookup (shard_m (shard_writeBlock ex_block ex_shard_two))
                (RefString (marshalKey ["b"; "200"])))
     ↔ is_Some (psm_lookup (shard_m ex_shard_two) (RefString (marshalKey ["b"; "200"])))
       ∨ ∃ i, (i < rowsLen ex_block)%nat
              ∧ RefString (marshalKey ["b"; "200"])
                = RefString (marshalKey
                               (rowTuple (byColumnValues (shard_ps ex_shard_two) ex_block) i))).
Proof.
  assert (H1 : length (byFields (shard_ps ex_shard_two)) ≠ 1%nat) by discriminate.
  assert (H2 : (0 < rowsLen ex_block)%nat) by (simpl; lia).
  assert (Hcv : byColumnValues (shard_ps ex_shard_two) ex_block
                = [["a"; "a"; "b"]; ["200"; "500"; "200"]]) by reflexivity.
  assert (H3 : Forall (λ values, length values = rowsLen ex_block)
                 (byColumnValues (shard_ps ex_shard_two) ex_block)).
  { rewrite Hcv. repeat constructor. }
  split; [exact H1|]. split; [exact H2|]. split; [exact H3|].
  exact (writeBlock_groups_of_rows (API := countAPI) ex_block ex_shard_two
           (RefString (marshalKey ["b"; "200"])) H1 H2 H3).
Defined.

Lemma writeBlock_touches_one_shard_witness :
  1%nat ≠ 0%nat
  ∧ shards (psp_writeBlock 0 ex_block ex_psp_fresh) !! 1%nat = shards ex_psp_fresh !! 1%nat
  ∧ length (shards (psp_writeBlock 0 ex_block ex_psp_fresh)) = length (shards ex_psp_fresh)
  ∧ psp_ps (psp_writeBlock 0 ex_block ex_psp_fresh) = psp_ps ex_psp_fresh
  ∧ maxStateSize (psp_writeBlock 0 ex_block ex_psp_fresh) = maxStateSize ex_psp_fresh
  ∧ stopCh_closed (psp_writeBlock 0 ex_block ex_psp_fresh) = stopCh_closed ex_psp_fresh.
Proof.
  assert (H : 1%nat ≠ 0%nat) by discriminate.
  split; [exact H|].
  exact (writeBlock_touches_one_shard (API := countAPI) 0 1 ex_block ex_psp_fresh H).
Defined.

Lemma ex_shard_by_group_a :
  psm_lookup (shard_m ex_shard_by) (RefString "a")
  = Some {| psg_funcs := funcs ex_ps_by; sfps := [2; 1] |}.
Proof. evaluate_sides. Qed.

Lemma writeBlock_keeps_groups_witness :
  shards ex_psp_by !! 0%nat = Some ex_shard_by
  ∧ is_Some (psm_lookup (shard_m ex_shard_by) (RefString "a"))
  ∧ ∃ sh', shards (psp_writeBlock 0 ex_block ex_psp_by) !! 0%nat = Some sh'
           ∧ is_Some (psm_lookup (shard_m sh') (RefString "a")).
Proof.
  assert (H1 : shards ex_psp_by !! 0%nat = Some ex_shard_by) by evaluate_sides.
  assert (H2 : is_Some (psm_lookup (shard_m ex_shard_by) (RefString "a")))
    by (eexists; exact ex_shard_by_group_a).
  split; [exact H1|]. split; [exact H2|].
  exact (writeBlock_keeps_groups (API := countAPI) 0 0 ex_block ex_psp_by ex_shard_by
           (RefString "a") H1 H2).
Defined.

Lemma writeBlock_moves_whole_chunks_witness :
  - 2 ^ 63 + stateSizeBudgetChunk <= 100 < 2 ^ 63
  ∧ int64_range (-178)
  ∧ match stealBudget 100 (-178) with
    | BudgetReady g l =>
        g + l = 100 + -178
        ∧ 0 <= l
        ∧ (∃ k, 0 <= k ∧ l = -178 + k * stateSizeBudgetChunk)
        ∧ (-178 < 0 → l < stateSizeBudgetChunk ∧ 0 <= g)
        ∧ (0 <= -178 → g = 100 ∧ l = -178)
    | BudgetExhausted g l c =>
        g + l = 100 + -178 - stateSizeBudgetChunk
        ∧ l < 0 ∧ g < 0
        ∧ (∃ k, 0 <= k ∧ l = -178 + k * stateSizeBudgetChunk)
        ∧ c = bool_decide (0 <= g + stateSizeBudgetChunk)
    end.
Proof.
  assert (H1 : - 2 ^ 63 + stateSizeBudgetChunk <= 100 < 2 ^ 63) by (rewrite chunk_value; lia).
  assert (H2 : int64_range (-178)) by (unfold int64_range; lia).
  split; [exact H1|]. split; [exact H2|].
  exact (writeBlock_moves_whole_chunks 100 (-178) H1 H2).
Defined.

Lemma writeBlock_processes_or_flush_fails_witness :
  rowsLen ex_block ≠ 0%nat
  ∧ shards ex_psp_debt !! 0%nat = Some ex_shard_debt
  ∧ funcs (psp_ps ex_psp_debt) ≠ []
  ∧ ((∃ local, 0 <= local
               ∧ shards (psp_writeBlock 0 ex_block ex_psp_debt)
                 = <[0%nat := shard_writeBlock ex_block (shard_with_budget local ex_shard_debt)]>
                     (shards ex_psp_debt))
     ∨ (shard_m <$> shards (psp_writeBlock 0 ex_block ex_psp_debt)
        = shard_m <$> shards ex_psp_debt
        ∧ ∃ msg, budgetError (psp_writeBlock 0 ex_block ex_psp_debt) = Some msg
                 ∧ psp_flush (psp_writeBlock 0 ex_block ex_psp_debt) = (FlushError msg, []))).
Proof.
  assert (H1 : rowsLen ex_block ≠ 0%nat) by discriminate.
  assert (H2 : shards ex_psp_debt !! 0%nat = Some ex_shard_debt) by reflexivity.
  assert (H3 : funcs (psp_ps ex_psp_debt) ≠ []) by discriminate.
  split; [exact H1|]. split; [exact H2|]. split; [exact H3|].
  exact (writeBlock_processes_or_flush_fails (API := countAPI) 0 ex_block ex_psp_debt
           ex_shard_debt H1 H2 H3).
Defined.

Lemma flush_after_stop_witness :
  stopCh_closed ex_psp_stopped = true
  ∧ 0 < psp_stateSizeBudget ex_psp_stopped
  ∧ psp_flush ex_psp_stopped = (FlushNil, []).
Proof.
  assert (H1 : stopCh_closed ex_psp_stopped = true) by reflexivity.
  assert (H2 : 0 < psp_stateSizeBudget ex_psp_stopped) by reflexivity.
  split; [exact H1|]. split; [exact H2|].
  exact (flush_after_stop (API := countAPI) ex_psp_stopped H1 H2).
Defined.

Lemma ex_psp_by_shards : shards ex_psp_by = [ex_shard_by].
Proof. evaluate_sides. Qed.

Lemma flush_result_witness :
  reachable ex_ps_by ex_psp_by
  ∧ funcs ex_ps_by ≠ []
  ∧ shards ex_psp_by ≠ []
  ∧ (0 < @cpusCount countAPI)%nat
  ∧ (psp_stateSizeBudget ex_psp_by <= 0 →
       ∃ msg, budgetError ex_psp_by = Some msg ∧ psp_flush ex_psp_by = (FlushError msg, []))
  ∧ (0 < psp_stateSizeBudget ex_psp_by → (psp_flush ex_psp_by).1 = FlushNil)
  ∧ (psp_flush ex_psp_by).1 ≠ FlushPanic.
Proof.
  assert (H2 : funcs ex_ps_by ≠ []) by discriminate.
  assert (H3 : shards ex_psp_by ≠ []) by (rewrite ex_psp_by_shards; discriminate).
  assert (H4 : (0 < @cpusCount countAPI)%nat) by (simpl; lia).
  split; [exact ex_psp_by_reachable|]. split; [exact H2|]. split; [exact H3|].
  split; [exact H4|].
  exact (flush_result (API := countAPI) ex_ps_by ex_psp_by ex_psp_by_reachable H2 H3 H4).
Defined.

Lemma ex_psp_by2_reachable : reachable ex_ps_by ex_psp_by2.
Proof. apply reach_writeBlock, reach_writeBlock, reach_new. Qed.

Lemma ex_psp_by2_state :
  length (shards ex_psp_by2) = 2%nat
  ∧ stopCh_closed ex_psp_by2 = false
  ∧ psp_stateSizeBudget ex_psp_by2 = 100000000.
Proof. split; [|split]; evaluate_sides. Qed.

Lemma ex_psp_count2_reachable : reachable ex_ps_count ex_psp_count2.
Proof. apply reach_writeBlock, reach_writeBlock, reach_new. Qed.

Lemma ex_psp_count2_state :
  length (shards ex_psp_count2) = 2%nat
  ∧ stopCh_closed ex_psp_count2 = false
  ∧ psp_stateSizeBudget ex_psp_count2 = 100000000.
Proof. split; [|split]; evaluate_sides. Qed.

Lemma mergeShardsParallel_groups_witness :
  (0 < @cpusCount countAPI)%nat
  ∧ shards ex_psp_by2 ≠ []
  ∧ stopCh_closed ex_psp_by2 = false
  ∧ 0 <= psp_stateSizeBudget ex_psp_by2
  ∧ ∃ psms : list (@pipeStatsGroupMap countAPI),
      psp_mergeShardsParallel ex_psp_by2 = MergeMaps psms
      ∧ Forall (λ psm, (0 < psm_entriesCount psm)%nat) psms
      ∧ (∀ r psg, (∃ psm, psm ∈ psms ∧ psm_lookup psm r = Some psg)
                  ↔ mergedAcross (map shard_m (shards ex_psp_by2)) r = Some psg)
      ∧ (∀ r, is_Some (mergedAcross (map shard_m (shards ex_psp_by2)) r)
              ↔ ∃ sh, sh ∈ shards ex_psp_by2 ∧ is_Some (psm_lookup (shard_m sh) r))
      ∧ (∀ r, (length (filter (λ psm, is_Some (psm_lookup psm r)) psms) <= 1)%nat).
Proof.
  destruct ex_psp_by2_state as (Hlen & Hstop & Hb).
  assert (H1 : (0 < @cpusCount countAPI)%nat) by (simpl; lia).
  assert (H2 : shards ex_psp_by2 ≠ []).
  { intros Hnil. rewrite Hnil in Hlen. discriminate. }
  assert (H4 : 0 <= psp_stateSizeBudget ex_psp_by2) by (rewrite Hb; lia).
  split; [exact H1|]. split; [exact H2|]. split; [exact Hstop|]. split; [exact H4|].
  exact (mergeShardsParallel_groups (API := countAPI) ex_psp_by2 H1 H2 Hstop H4).
Defined.

Lemma flush_without_by_fields_one_row_witness :
  reachable ex_ps_count ex_psp_count2
  ∧ byFields ex_ps_count = []
  ∧ shards ex_psp_count2 ≠ []
  ∧ (0 < @cpusCount countAPI)%nat
  ∧ 0 < psp_stateSizeBudget ex_psp_count2
  ∧ stopCh_closed ex_psp_count2 = false
  ∧ ∃ blocks,
      psp_flush ex_psp_count2 = (FlushNil, [blocks])
      ∧ writtenRows blocks
        = [finalValues
             (default {| psg_funcs := funcs ex_ps_count;
                         sfps := map (λ fn, (newStatsProcessor (f fn)).1) (funcs ex_ps_count) |}
                      (mergedAcross (map shard_m (shards ex_psp_count2)) (RefString "")))]
      ∧ Forall (λ rb, map rc_name (rb_rcs rb) = map resultName (funcs ex_ps_count)) blocks.
Proof.
  destruct ex_psp_count2_state as (Hlen & Hstop & Hb).
  assert (H2 : byFields ex_ps_count = []) by reflexivity.
  assert (H3 : shards ex_psp_count2 ≠ []).
  { intros Hnil. rewrite Hnil in Hlen. discriminate. }
  assert (H4 : (0 < @cpusCount countAPI)%nat) by (simpl; lia).
  assert (H5 : 0 < psp_stateSizeBudget ex_psp_count2) by (rewrite Hb; lia).
  split; [exact ex_psp_count2_reachable|]. split; [exact H2|]. split; [exact H3|].
  split; [exact H4|]. split; [exact H5|]. split; [exact Hstop|].
  exact (flush_without_by_fields_one_row (API := countAPI) ex_ps_count ex_psp_count2
           ex_psp_count2_reachable H2 H3 H4 H5 Hstop).
Defined.

Lemma flush_one_row_per_key_witness :
  reachable ex_ps_by ex_psp_by2
  ∧ byFields ex_ps_by ≠ []
  ∧ shards ex_psp_by2 ≠ []
  ∧ (0 < @cpusCount countAPI)%nat
  ∧ 0 < psp_stateSizeBudget ex_psp_by2
  ∧ stopCh_closed ex_psp_by2 = false
  ∧ (psp_flush ex_psp_by2).1 = FlushNil
  ∧ allRows (psp_flush ex_psp_by2).2
    ≡ₚ map (λ r, keyValues ex_ps_by r
                 ++ from_option finalValues []
                      (mergedAcross (map shard_m (shards ex_psp_by2)) r))
           (shardKeys ex_psp_by2)
  ∧ Forall (λ blocks, writtenRows blocks ≠ []) (psp_flush ex_psp_by2).2.
Proof.
  destruct ex_psp_by2_state as (Hlen & Hstop & Hb).
  assert (H2 : byFields ex_ps_by ≠ []) by discriminate.
  assert (H3 : shards ex_psp_by2 ≠ []).
  { intros Hnil. rewrite Hnil in Hlen. discriminate. }
  assert (H4 : (0 < @cpusCount countAPI)%nat) by (simpl; lia).
  assert (H5 : 0 < psp_stateSizeBudget ex_psp_by2) by (rewrite Hb; lia).
  split; [exact ex_psp_by2_reachable|]. split; [exact H2|]. split; [exact H3|].
  split; [exact H4|]. split; [exact H5|]. split; [exact Hstop|].
  exact (flush_one_row_per_key (API := countAPI) ex_ps_by ex_psp_by2
           ex_psp_by2_reachable H2 H3 H4 H5 Hstop).
Defined.

Lemma ex_psp_by_state :
  length (byFields (psp_ps ex_psp_by)) = 1%nat ∧ stopCh_closed ex_psp_by = false.
Proof. split; evaluate_sides. Qed.

Lemma int64_group_written_as_decimal_witness :
  length (byFields (psp_ps ex_psp_by)) = 1%nat
  ∧ stopCh_closed ex_psp_by = false
  ∧ group_wf (psp_ps ex_psp_by) ex_group
  ∧ int64_range (-5)
  ∧ ∃ blocks,
      runWriter ex_psp_by 0
        (psm_store psm_init (psm_getPipeStatsGroupInt64 (-5) ex_shard_by).2 ex_group)
      = Some blocks
      ∧ writtenRows blocks = [marshalInt64String (-5) :: finalValues ex_group].
Proof.
  destruct ex_psp_by_state as [H1 H2].
  assert (H3 : group_wf (psp_ps ex_psp_by) ex_group).
  { unfold group_wf. evaluate_sides. }
  assert (H4 : int64_range (-5)) by (unfold int64_range; lia).
  split; [exact H1|]. split; [exact H2|]. split; [exact H3|]. split; [exact H4|].
  exact (int64_group_written_as_decimal (API := countAPI) ex_psp_by 0 (-5) ex_shard_by
           ex_group H1 H2 H3 H4).
Defined.

Lemma ex_tokens_parse :
  parsePipeStats (PAPI := tokParserAPI) 10 ex_tokens true
  = ParseOk ({| byFields := [ex_byField "x"];
                funcs := [ex_count "n" None; ex_count "count(*)" None] |}, []).
Proof. evaluate_sides. Qed.

Lemma parsePipeStats_shape_witness :
  parsePipeStats (PAPI := tokParserAPI) 10 ex_tokens true
  = ParseOk ({| byFields := [ex_byField "x"];
                funcs := [ex_count "n" None; ex_count "count(*)" None] |}, [])
  ∧ funcs {| byFields := [ex_byField "x"];
             funcs := [ex_count "n" None; ex_count "count(*)" None] |} ≠ []
  ∧ is_Some (ps_String {| byFields := [ex_byField "x"];
                          funcs := [ex_count "n" None; ex_count "count(*)" None] |})
  ∧ isKeyword (ParserAPI := tokParserAPI) [] ["|"; ")"; ""] = true.
Proof.
  split; [exact ex_tokens_parse|].
  destruct (parsePipeStats_shape (PAPI := tokParserAPI) 10 ex_tokens true _ _ ex_tokens_parse)
    as (H1 & H2 & H3 & _).
  split; [exact H1|]. split; [exact H2 | exact H3].
Defined.

(** Two workers that have taken the three rows of [ex_block] each: the
    flush merges their groups, and without by-fields it gives the one row of
    the six rows. *)
Example flush_two_workers :
  allRows (psp_flush ex_psp_by2).2 = [["b"; "2"; "2"]; ["a"; "4"; "2"]]
  ∧ shardKeys ex_psp_by2 = [RefString "a"; RefString "b"]
  ∧ allRows (psp_flush ex_psp_count2).2 = [["6"]].
Proof. split; [|split]; evaluate_sides. Qed.

(** [stats by (metric) ...] with the step 60: [_time:60] is appended. *)
Example addByTimeField_example :
  byFields (addByTimeField 60 ex_ps_by) = [ex_byField "metric"; byTimeField 60]
  ∧ addByTimeField 0 ex_ps_by = ex_ps_by.
Proof. split; reflexivity. Qed.

(** A shard in debt by 178 bytes with 100 bytes left of the global budget,
    and a shard in debt by 2000000 bytes that takes two chunks. *)
Example stealBudget_examples :
  stealBudget 100 (-178) = BudgetExhausted (-1048476) (-178) true
  ∧ stealBudget 5000000 (-2000000) = BudgetReady 2902848 97152.
Proof. split; evaluate_sides. Qed.

Lemma scatter_keeps_every_group_witness :
  (0 < @cpusCount countAPI)%nat
  ∧ length (scatterShard (shard_m ex_shard_by)) = @cpusCount countAPI
  ∧ (∀ j d r psg, scatterShard (shard_m ex_shard_by) !! j = Some d →
       (psm_lookup d r = Some psg
        ↔ cpuIdx (API := countAPI) r = j ∧ psm_lookup (shard_m ex_shard_by) r = Some psg))
  ∧ (∀ r psg, psm_lookup (shard_m ex_shard_by) r = Some psg →
       ∃ d, scatterShard (shard_m ex_shard_by) !! cpuIdx (API := countAPI) r = Some d
            ∧ psm_lookup d r = Some psg)
  ∧ sum_list_with psm_entriesCount (scatterShard (shard_m ex_shard_by))
    = psm_entriesCount (shard_m ex_shard_by).
Proof.
  assert (H : (0 < @cpusCount countAPI)%nat) by (simpl; lia).
  split; [exact H|].
  exact (scatter_keeps_every_group (API := countAPI) (shard_m ex_shard_by) H).
Defined.

Lemma reachable_shard_invariants_witness :
  reachable ex_ps_by ex_psp_by
  ∧ ex_shard_by ∈ shards ex_psp_by
  ∧ shard_ps ex_shard_by = ex_ps_by
  ∧ (∀ r psg, psm_lookup (shard_m ex_shard_by) r = Some psg →
       length (sfps psg) = length (funcs ex_ps_by)).
Proof.
  assert (Hin : ex_shard_by ∈ shards ex_psp_by) by (rewrite ex_psp_by_shards; left).
  split; [exact ex_psp_by_reachable|]. split; [exact Hin|].
  destruct (reachable_shard_invariants (API := countAPI) ex_ps_by ex_psp_by ex_shard_by
              ex_psp_by_reachable Hin) as (H1 & H2 & _).
  split; [exact H1 | exact H2].
Defined.
